(** * instagram-post-scheduler: a shallow embedding of the publish pipeline

    The development follows the TypeScript sources:
    - [instagram.service.ts]: [postToInstagram] and its inner [attemptPublish];
    - [carousel.service.ts]: [createCarousel] and [uploadToCloudinaryOrLocal];
    - [content.service.ts]: [ContentService.markPostAsPublished].

    Asynchronous code is sequential ([await] at every call), so it is modelled
    by explicit state passing over an abstract outside world, in an exception
    monad that also records the trace of observable events. *)

From Stdlib Require Import List String Ascii Bool Arith Lia DecimalString Floats.
From stdpp Require Import base list strings.
Import ListNotations.
Local Open Scope string_scope.
Local Open Scope list_scope.

(** ** JavaScript primitives used by the services *)
Module JS.

(** Truthiness of a string value: only the empty string is falsy. *)
Definition truthy (s : string) : bool := negb (String.eqb s "").

(** Truthiness of a possibly [undefined] string. *)
Definition otruthy (o : option string) : bool :=
  match o with
  | Some s => truthy s
  | None => false
  end.

(** [a || b] where [a] is a possibly undefined string and [b] a string. *)
Definition or_else (a : option string) (b : string) : string :=
  match a with
  | Some s => if truthy s then s else b
  | None => b
  end.

(** [s.includes(sub)]. *)
Definition includes (s sub : string) : bool :=
  match String.index 0 sub s with
  | Some _ => true
  | None => false
  end.

(** [ids.join(',')]. *)
Definition join (sep : string) (l : list string) : string := String.concat sep l.

(** Template interpolation of a non-negative integer. *)
Definition Number_toString (n : nat) : string :=
  NilEmpty.string_of_uint (Nat.to_uint n).

(** [o === s] for a possibly undefined string [o]. *)
Definition strict_eq (o : option string) (s : string) : bool :=
  match o with
  | Some x => String.eqb x s
  | None => false
  end.

(** [l.slice(0, n)]. *)
Definition slice0 {A} (n : nat) (l : list A) : list A := firstn n l.

End JS.

(** ** Sequential effectful code: world passing, exceptions, event trace *)
Module Eff.

Section Monad.

Context {World Err Ev : Type}.

(** A computation threads the world, returns or throws, and logs events. *)
Definition M (A : Type) : Type := World -> (A + Err) * World * list Ev.

Definition ret {A} (a : A) : M A := fun w => (inl a, w, []).

Definition throw {A} (e : Err) : M A := fun w => (inr e, w, []).

Definition bind {A B} (m : M A) (k : A -> M B) : M B :=
  fun w =>
    match m w with
    | (inl a, w1, t1) =>
        match k a w1 with
        | (r, w2, t2) => (r, w2, t1 ++ t2)
        end
    | (inr e, w1, t1) => (inr e, w1, t1)
    end.

(** [try { m } catch (error) { h error }] *)
Definition try_catch {A} (m : M A) (h : Err -> M A) : M A :=
  fun w =>
    match m w with
    | (inl a, w1, t1) => (inl a, w1, t1)
    | (inr e, w1, t1) =>
        match h e w1 with
        | (r, w2, t2) => (r, w2, t1 ++ t2)
        end
    end.

(** A call into the outside world, logged with its outcome. *)
Definition call {A} (op : World -> (A + Err) * World) (log : A + Err -> Ev) : M A :=
  fun w =>
    match op w with
    | (r, w1) => (r, w1, [log r])
    end.

(** A read of the outside world that leaves no event. *)
Definition peek {A} (op : World -> A * World) : M A :=
  fun w =>
    match op w with
    | (a, w1) => (inl a, w1, [])
    end.

End Monad.

Arguments M : clear implicits.

End Eff.

Notation "x <- m ;; k" := (Eff.bind m (fun x => k))
  (at level 100, m at next level, right associativity).
Notation "m ;;; k" := (Eff.bind m (fun _ => k))
  (at level 100, right associativity).

(** ** instagram.service.ts *)
Module Instagram.
Import JS Eff.

(** [process.env] entries read by the service. *)
Record Env := mkEnv {
  FACEBOOK_ACCESS_TOKEN : option string;
  INSTAGRAM_BUSINESS_ACCOUNT_ID : option string
}.

(** The three Graph API calls, [axios.post(url, null, {params})]:
    - [MediaItem acct url tok]: [POST /{acct}/media] with [image_url],
      [is_carousel_item: true], [access_token];
    - [MediaCarousel acct children caption tok]: [POST /{acct}/media] with
      [media_type: 'CAROUSEL'], [children], [caption], [access_token];
    - [MediaPublish acct creation tok]: [POST /{acct}/media_publish] with
      [creation_id], [access_token]. *)
Inductive request :=
| MediaItem (igBusinessId image_url access_token : string)
| MediaCarousel (igBusinessId children caption access_token : string)
| MediaPublish (igBusinessId creation_id access_token : string).

(** [response.data]: only its [id] field is read. *)
Record ResponseData := mkData { id : option string }.

(** An axios response (status 2xx); [data] may be missing. *)
Record AxiosResponse := mkResponse { data : option ResponseData }.

(** A thrown value.  [message] is [error.message];
    [response_error_message] is [error.response?.data?.error?.message],
    undefined as soon as one link of the chain is. *)
Record Error := mkError {
  message : string;
  response_error_message : option string
}.

(** [new Error(msg)]: no [response] property. *)
Definition new_Error (msg : string) : Error := mkError msg None.

Definition outcome := (AxiosResponse + Error)%type.

(** Observable events, in chronological order. *)
Inductive event :=
| EvWarn (msg : string)                    (* console.warn *)
| EvDelay (ms : float)                     (* await setTimeout(resolve, ms) *)
| EvPost (req : request) (res : outcome).  (* await axios.post *)

(** The terminal record returned on success. *)
Record PublishResult := mkResult {
  success : bool;
  postId : option string;
  containerIds : list string;
  carouselContainerId : string
}.

(** [error.response?.data?.error?.message || error.message] *)
Definition describe (error : Error) : string :=
  or_else (response_error_message error) (message error).

(** [error.response?.data?.error?.message?.includes('unknown error') ||
     error.message?.includes('unknown error')] *)
Definition isUnknownError (error : Error) : bool :=
  match response_error_message error with
  | Some m => includes m "unknown error"
  | None => false
  end || includes (message error) "unknown error".

(** [!response.data || !response.data.id] fails; otherwise the id. *)
Definition response_id (r : AxiosResponse) : option string :=
  match data r with
  | Some d =>
      match id d with
      | Some i => if truthy i then Some i else None
      | None => None
      end
  | None => None
  end.

(** [publishResponse.data?.id] *)
Definition optional_id (r : AxiosResponse) : option string :=
  match data r with
  | Some d => id d
  | None => None
  end.

Section WithWorld.

(** The outside world: the platform and the clock. *)
Variable World : Type.
Variable axios_post : request -> World -> outcome * World.
Variable setTimeout : float -> World -> World.

Definition M (A : Type) : Type := Eff.M World Error event A.

Definition console_warn (msg : string) : M unit :=
  fun w => (inl tt, w, [EvWarn msg]).

(** [await new Promise(resolve => setTimeout(resolve, ms))] *)
Definition delay (ms : float) : M unit :=
  fun w => (inl tt, setTimeout ms w, [EvDelay ms]).

(** [await axios.post(...)]: a non-2xx status or a transport failure
    throws. *)
Definition post (req : request) : M AxiosResponse :=
  Eff.call (axios_post req) (EvPost req).

(** Body of the phase-1 [for] loop for index [i] and [url = mediaUrls[i]];
    returns the id pushed on [containerIds]. *)
Definition createContainer (igBusinessId accessToken : string)
    (i : nat) (url : string) : M string :=
  (if (0 <? i)%nat then delay 1000%float else ret tt) ;;;
  try_catch
    (containerResponse <- post (MediaItem igBusinessId url accessToken) ;;
     match response_id containerResponse with
     | None =>
         throw (new_Error ("Failed to create media container for URL: " ++ url))
     | Some cid => ret cid
     end)
    (fun error =>
       throw (new_Error ("Failed to create container " ++ Number_toString (i + 1)
                         ++ ": " ++ describe error))).

(** [for (let i = 0; i < mediaUrls.length; i++)], entered at index [i]
    with [rest] the URLs from [i] on. *)
Fixpoint createContainers (igBusinessId accessToken : string)
    (i : nat) (rest : list string) (containerIds : list string)
    : M (list string) :=
  match rest with
  | [] => ret containerIds
  | url :: rest' =>
      cid <- createContainer igBusinessId accessToken i url ;;
      createContainers igBusinessId accessToken (S i) rest' (containerIds ++ [cid])
  end.

(** Phase 2. *)
Definition createCarouselContainer (igBusinessId accessToken : string)
    (caption : string) (enhancedCaption : option string)
    (containerIds : list string) : M string :=
  try_catch
    (carouselResponse <-
       post (MediaCarousel igBusinessId (join "," containerIds)
               (or_else enhancedCaption caption) accessToken) ;;
     match response_id carouselResponse with
     | None => throw (new_Error "Failed to create carousel container")
     | Some cid => delay 2000%float ;;; ret cid
     end)
    (fun error =>
       throw (new_Error ("Failed to create carousel container: " ++ describe error))).

(** [attemptPublish(retryCount, maxRetries, delayMs)].  The recursion is
    on [maxRetries - retryCount], made explicit as [budget]. *)
Fixpoint attemptPublish_rec (igBusinessId accessToken carouselContainerId : string)
    (budget : nat) (retryCount maxRetries : nat) (delayMs : float)
    : M AxiosResponse :=
  try_catch
    (delay delayMs ;;;
     post (MediaPublish igBusinessId carouselContainerId accessToken))
    (fun error =>
       match budget with
       | S budget' =>
           if (retryCount <? maxRetries)%nat && isUnknownError error
           then attemptPublish_rec igBusinessId accessToken carouselContainerId
                  budget' (retryCount + 1) maxRetries (delayMs * 1.5)%float
           else throw error
       | O => throw error
       end).

Definition attemptPublish (igBusinessId accessToken carouselContainerId : string)
    (retryCount maxRetries : nat) (delayMs : float) : M AxiosResponse :=
  attemptPublish_rec igBusinessId accessToken carouselContainerId
    (maxRetries - retryCount) retryCount maxRetries delayMs.

(** Phase 3: [attemptPublish()] with its default arguments. *)
Definition publishCarousel (igBusinessId accessToken : string)
    (containerIds : list string) (carouselContainerId : string)
    : M PublishResult :=
  try_catch
    (publishResponse <-
       attemptPublish igBusinessId accessToken carouselContainerId 0 3 5000%float ;;
     ret {| success := true;
            postId := optional_id publishResponse;
            containerIds := containerIds;
            carouselContainerId := carouselContainerId |})
    (fun error =>
       throw (new_Error ("Failed to publish carousel after multiple attempts: "
                         ++ describe error))).

Definition postToInstagram (env : Env) (caption : string)
    (mediaUrls : list string) (enhancedCaption : option string)
    : M PublishResult :=
  try_catch
    (match FACEBOOK_ACCESS_TOKEN env, INSTAGRAM_BUSINESS_ACCOUNT_ID env with
     | Some accessToken, Some igBusinessId =>
         if negb (truthy accessToken) || negb (truthy igBusinessId)
         then throw (new_Error "Missing Instagram credentials in environment variables")
         else
           if (length mediaUrls =? 0)%nat
           then throw (new_Error "No media URLs provided for Instagram post")
           else
             mediaUrls <-
               (if (10 <? length mediaUrls)%nat
                then
                  console_warn
                    ("Warning: Instagram only supports up to 10 images in a carousel. Truncating from "
                     ++ Number_toString (length mediaUrls) ++ " to 10.") ;;;
                  ret (slice0 10 mediaUrls)
                else ret mediaUrls) ;;
             containerIds <- createContainers igBusinessId accessToken 0 mediaUrls [] ;;
             if (length containerIds =? 0)%nat
             then throw (new_Error "Failed to create any media containers")
             else
               carouselContainerId <-
                 createCarouselContainer igBusinessId accessToken
                   caption enhancedCaption containerIds ;;
               publishCarousel igBusinessId accessToken containerIds carouselContainerId
     | _, _ =>
         throw (new_Error "Missing Instagram credentials in environment variables")
     end)
    (fun error => throw error).

End WithWorld.

End Instagram.


(** ** carousel.service.ts *)
Module Carousel.
Import JS Eff.

(** [process.env] entries read by the service. *)
Record Env := mkEnv {
  CLOUDINARY_CLOUD_NAME : option string;
  CLOUDINARY_API_KEY : option string;
  CLOUDINARY_API_SECRET : option string;
  APP_BASE_URL : option string;
  PORT : option string;
  NODE_ENV : option string
}.

(** What is drawn: the arguments of [createCoverSlide], [createContentSlide]
    and [createCtaSlide] other than the output path. *)
Inductive slide :=
| Cover (title : string)
| Content (content : string) (slideNumber totalSlides : nat)
| Cta (cta : string) (totalSlides : nat).

(** A thrown value, as the text
    [error instanceof Error ? error.message : String(error)]. *)
Definition thrown : Type := string.

(** Observable events, in chronological order. *)
Inductive event :=
| EvEnsureDir (dirPath : string) (res : unit + thrown)
| EvRender (s : slide) (outputPath : string) (res : unit + thrown)
| EvCloudinary (imagePath : string) (res : string + thrown)
| EvCopyFile (src dest : string) (res : unit + thrown)
| EvCleanup (tempDir : string).

(** The default value of the [cta] parameter. *)
Definition default_cta : string :=
  "Ready to take control? Track your nutrition accurately with DailyNutritionTracker.com!".

Section WithWorld.

(** The outside world: file system, canvas, image host and clock.  Drawing
    a slide ends in [fs.writeFileSync(outputPath, buffer)]; the pixels are
    not modelled.  [cleanupTempFiles] catches its own errors. *)
Variable World : Type.
Variable ensureDirectoryExists_io : string -> World -> (unit + thrown) * World.
Variable draw_io : slide -> string -> World -> (unit + thrown) * World.
Variable cloudinary_upload_io : string -> World -> (string + thrown) * World.
Variable copyFileSync_io : string -> string -> World -> (unit + thrown) * World.
Variable cleanupTempFiles_io : string -> World -> World.
Variable Date_now_io : World -> nat * World.

(** [path.join] of two segments, [path.basename] and [__dirname]. *)
Variable path_join : string -> string -> string.
Variable path_basename : string -> string.
Variable dirname : string.

Variable env : Env.

Definition M (A : Type) : Type := Eff.M World thrown event A.

Definition ensureDirectoryExists (dirPath : string) : M unit :=
  call (ensureDirectoryExists_io dirPath) (EvEnsureDir dirPath).

Definition createCoverSlide (title outputPath : string) : M unit :=
  call (draw_io (Cover title) outputPath) (EvRender (Cover title) outputPath).

Definition createContentSlide (content outputPath : string)
    (slideNumber totalSlides : nat) : M unit :=
  call (draw_io (Content content slideNumber totalSlides) outputPath)
       (EvRender (Content content slideNumber totalSlides) outputPath).

Definition createCtaSlide (cta outputPath : string) (totalSlides : nat) : M unit :=
  call (draw_io (Cta cta totalSlides) outputPath)
       (EvRender (Cta cta totalSlides) outputPath).

Definition Date_now : M nat := peek Date_now_io.

Definition cleanupTempFiles (tempDir : string) : M unit :=
  fun w => (inl tt, cleanupTempFiles_io tempDir w, [EvCleanup tempDir]).

(** The local storage fallback of [uploadToCloudinaryOrLocal]. *)
Definition storeLocally (imagePath : string) : M string :=
  try_catch
    (let publicDir := path_join dirname "../../public/uploads" in
     ensureDirectoryExists publicDir ;;;
     let fileName := path_basename imagePath in
     let publicPath := path_join publicDir fileName in
     call (copyFileSync_io imagePath publicPath) (EvCopyFile imagePath publicPath) ;;;
     let baseUrl :=
       or_else (APP_BASE_URL env) ("http://localhost:" ++ or_else (PORT env) "3000") in
     ret (baseUrl ++ "/uploads/" ++ fileName)%string)
    (fun localError =>
       throw ("Failed to store image locally after Cloudinary failure (if attempted): "
              ++ localError)%string).

Definition uploadToCloudinaryOrLocal (imagePath : string) : M string :=
  let useCloudinary :=
    otruthy (CLOUDINARY_CLOUD_NAME env) && otruthy (CLOUDINARY_API_KEY env)
    && otruthy (CLOUDINARY_API_SECRET env) in
  if useCloudinary
  then
    try_catch
      (call (cloudinary_upload_io imagePath) (EvCloudinary imagePath))
      (fun _ => storeLocally imagePath)
  else storeLocally imagePath.

(** [for (let i = 0; i < totalContentSlides; i++)], entered at index [i]
    with [rest] the slides from [i] on. *)
Fixpoint contentSlides (tempDir : string) (totalContentSlides i : nat)
    (rest : list string) (imageUrls : list string) : M (list string) :=
  match rest with
  | [] => ret imageUrls
  | content :: rest' =>
      let slideNumber := i + 1 in
      now <- Date_now ;;
      let slideImagePath :=
        path_join tempDir ("carousel_" ++ Number_toString now ++ "_slide_"
                           ++ Number_toString slideNumber ++ ".png") in
      createContentSlide content slideImagePath slideNumber totalContentSlides ;;;
      url <- uploadToCloudinaryOrLocal slideImagePath ;;
      contentSlides tempDir totalContentSlides (S i) rest' (imageUrls ++ [url])
  end.

Definition createCarousel (title : string) (slides : list string)
    (cta : option string) : M (list string) :=
  let cta := match cta with Some c => c | None => default_cta end in
  try_catch
    (let tempDir := path_join dirname "../../temp" in
     ensureDirectoryExists tempDir ;;;
     let imageUrls := [] in
     let totalContentSlides := length slides in
     now <- Date_now ;;
     let coverImagePath :=
       path_join tempDir ("carousel_" ++ Number_toString now ++ "_cover.png") in
     createCoverSlide title coverImagePath ;;;
     url <- uploadToCloudinaryOrLocal coverImagePath ;;
     let imageUrls := imageUrls ++ [url] in
     imageUrls <- contentSlides tempDir totalContentSlides 0 slides imageUrls ;;
     now <- Date_now ;;
     let ctaImagePath :=
       path_join tempDir ("carousel_" ++ Number_toString now ++ "_cta.png") in
     createCtaSlide cta ctaImagePath totalContentSlides ;;;
     url <- uploadToCloudinaryOrLocal ctaImagePath ;;
     let imageUrls := imageUrls ++ [url] in
     (if strict_eq (NODE_ENV env) "development"
      then ret tt
      else cleanupTempFiles tempDir) ;;;
     ret imageUrls)
    (fun error => throw ("Failed to create carousel: " ++ error)%string).

End WithWorld.

End Carousel.

(** ** content.service.ts *)
Module Content.

Record PostContent := mkPostContent {
  title : string;
  slides : list string;
  cta : string;
  caption : string
}.

Record ScheduledPost := mkPost {
  id : string;
  date : string;
  time : string;
  type : string;
  category : string;
  status : string;
  content : PostContent
}.

Record Metadata := mkMetadata {
  weekStartDate : string;
  weekEndDate : string;
  createdAt : string;
  updatedAt : string;
  totalPosts : nat
}.

Record ContentSchedule := mkSchedule {
  metadata : Metadata;
  schedule : list ScheduledPost
}.

(** The private fields of the [ContentService] singleton. *)
Record ContentService := mkService {
  schedulePath : string;
  contentSchedule : option ContentSchedule
}.

(** [fs.writeFileSync(path, data, 'utf8')] calls, with [true] when the call
    returned and [false] when it threw. *)
Inductive event :=
| EvWriteFile (path data : string) (returned : bool).

(** [post.status = s] *)
Definition set_status (s : string) (post : ScheduledPost) : ScheduledPost :=
  {| id := id post; date := date post; time := time post; type := type post;
     category := category post; status := s; content := content post |}.

(** [metadata.updatedAt = s] *)
Definition set_updatedAt (s : string) (cs : ContentSchedule) : ContentSchedule :=
  {| metadata :=
       {| weekStartDate := weekStartDate (metadata cs);
          weekEndDate := weekEndDate (metadata cs);
          createdAt := createdAt (metadata cs);
          updatedAt := s;
          totalPosts := totalPosts (metadata cs) |};
     schedule := schedule cs |}.

(** [schedule.findIndex(post => post.id === postId)], [None] for [-1]. *)
Definition findIndex (postId : string) (l : list ScheduledPost) : option nat :=
  fst <$> list_find (fun post => id post = postId) l.

Section WithWorld.

(** The outside world: the clock and the disk. *)
Variable World : Type.
Variable Date_toISOString_io : World -> string * World.
Variable writeFileSync_io : string -> string -> World -> bool * World.
Variable JSON_stringify : ContentSchedule -> string.

(** [saveContentSchedule()]: the timestamp is set before the write is
    attempted, and a failing write is caught and logged. *)
Definition saveContentSchedule (this : ContentService) (w : World)
    : ContentService * World * list event :=
  match contentSchedule this with
  | None => (this, w, [])
  | Some cs =>
      let '(now, w1) := Date_toISOString_io w in
      let cs' := set_updatedAt now cs in
      let data := JSON_stringify cs' in
      let '(returned, w2) := writeFileSync_io (schedulePath this) data w1 in
      ({| schedulePath := schedulePath this; contentSchedule := Some cs' |},
       w2, [EvWriteFile (schedulePath this) data returned])
  end.

Definition markPostAsPublished (postId : string) (this : ContentService)
    (w : World) : bool * ContentService * World * list event :=
  match contentSchedule this with
  | None => (false, this, w, [])
  | Some cs =>
      match findIndex postId (schedule cs) with
      | None => (false, this, w, [])
      | Some postIndex =>
          let cs' :=
            {| metadata := metadata cs;
               schedule := alter (set_status "published") postIndex (schedule cs) |} in
          let this' :=
            {| schedulePath := schedulePath this; contentSchedule := Some cs' |} in
          let '(this'', w', t) := saveContentSchedule this' w in
          (true, this'', w', t)
      end
  end.

End WithWorld.

End Content.

(** ** carousel.service.ts: [wrapText] *)
Module CarouselText.
Import JS.

(** [s.split(sep)] for a separator of one character below U+0080. *)
Fixpoint split (sep : ascii) (s : string) : list string :=
  match s with
  | EmptyString => [""]
  | String c s' =>
      if Ascii.eqb c sep
      then "" :: split sep s'
      else match split sep s' with
           | w :: ws => String c w :: ws
           | [] => [String c ""]
           end
  end.

(** The value returned by [wrapText]. *)
Record Wrapped := mkWrapped {
  lines : list string;
  lineHeight : nat;
  totalHeight : nat
}.

Section WithContext.

(** [ctx.measureText(s).width] under the font of the context, and the size
    read from [ctx.font] by [parseInt(ctx.font.match(/(\d+)px/)?.[1] || '30', 10)]. *)
Variable measureText_width : string -> float.
Variable fontHeight : nat.

(** [for (let i = 1; i < words.length; i++)], entered at index [i] with
    [rest] the words from [i] on; returns [currentLine] and [lines]. *)
Fixpoint wrapLoop (maxWidth : float) (i : nat) (rest : list string)
    (currentLine : string) (lines : list string) : string * list string :=
  match rest with
  | [] => (currentLine, lines)
  | word :: rest' =>
      let testLine := (currentLine ++ " " ++ word)%string in
      let testWidth := measureText_width testLine in
      if PrimFloat.ltb maxWidth testWidth && (0 <? i)%nat
      then wrapLoop maxWidth (S i) rest' word (lines ++ [currentLine])
      else wrapLoop maxWidth (S i) rest' testLine lines
  end.

Definition wrapText (text : string) (maxWidth : float) : Wrapped :=
  let words := split " "%char text in
  let currentLine := or_else (head words) "" in
  let '(currentLine, lines) := wrapLoop maxWidth 1 (tail words) currentLine [] in
  let lines := lines ++ [currentLine] in
  let lineHeight := fontHeight * 2 in
  {| lines := lines; lineHeight := lineHeight;
     totalHeight := length lines * lineHeight |}.

End WithContext.

End CarouselText.

(** ** carousel.service.ts: [cleanupTempFiles] *)
Module CarouselCleanup.
Import JS Eff.

Definition thrown : Type := string.

(** The file-system calls of the cleanup, with what they returned. *)
Inductive event :=
| EvExists (path : string) (res : bool)
| EvReaddir (dir : string) (res : list string + thrown)
| EvStat (path : string) (res : bool + thrown)     (* statSync(path).isFile() *)
| EvUnlink (path : string) (res : unit + thrown).

(** An event that records a throw. *)
Definition threw (ev : event) : bool :=
  match ev with
  | EvReaddir _ (inr _) | EvStat _ (inr _) | EvUnlink _ (inr _) => true
  | _ => false
  end.

(** The paths handed to [fs.unlinkSync], in order. *)
Fixpoint unlinked (tr : list event) : list string :=
  match tr with
  | [] => []
  | EvUnlink p _ :: tr' => p :: unlinked tr'
  | _ :: tr' => unlinked tr'
  end.

Section WithWorld.

Variable World : Type.
Variable existsSync_io : string -> World -> bool * World.
Variable readdirSync_io : string -> World -> (list string + thrown) * World.
Variable statSync_isFile_io : string -> World -> (bool + thrown) * World.
Variable unlinkSync_io : string -> World -> (unit + thrown) * World.
Variable path_join : string -> string -> string.

Definition M (A : Type) : Type := Eff.M World thrown event A.

Definition existsSync (path : string) : M bool :=
  fun w => let '(b, w1) := existsSync_io path w in (inl b, w1, [EvExists path b]).

(** The callback of [files.forEach]. *)
Definition cleanupFile (tempDir file : string) : M unit :=
  let filePath := path_join tempDir file in
  isFile <- call (statSync_isFile_io filePath) (EvStat filePath) ;;
  if isFile && String.prefix "carousel_" file
  then call (unlinkSync_io filePath) (EvUnlink filePath)
  else ret tt.

(** [files.forEach(file => ...)]: a throw leaves the loop. *)
Fixpoint forEach (tempDir : string) (files : list string) : M unit :=
  match files with
  | [] => ret tt
  | file :: files' => cleanupFile tempDir file ;;; forEach tempDir files'
  end.

Definition cleanupTempFiles (tempDir : string) : M unit :=
  try_catch
    (present <- existsSync tempDir ;;
     if negb present
     then ret tt
     else
       files <- call (readdirSync_io tempDir) (EvReaddir tempDir) ;;
       forEach tempDir files)
    (fun error => ret tt).

End WithWorld.

(** The events of the callback on a file whose [statSync] returned and
    whose [unlinkSync], if called, returned. *)
Definition visited (path_join : string -> string -> string) (tempDir : string)
    (p : string * bool) : list event :=
  EvStat (path_join tempDir (fst p)) (inl (snd p))
  :: (if snd p && String.prefix "carousel_" (fst p)
      then [EvUnlink (path_join tempDir (fst p)) (inl tt)]
      else []).

End CarouselCleanup.

(** ** A temporary directory, as a test double *)
Module MockTemp.
Import CarouselCleanup.

(** The world: the names in the one directory, with [true] for regular
    files. *)
Definition World := list (string * bool).

Definition path_join (a b : string) : string := (a ++ "/" ++ b)%string.

Definition existsSync_io (path : string) (w : World) : bool * World := (true, w).

Definition readdirSync_io (dir : string) (w : World)
  : (list string + thrown) * World := (inl (map fst w), w).

Definition statSync_isFile_io (path : string) (w : World)
  : (bool + thrown) * World :=
  match List.find (fun e => String.eqb (path_join "temp" (fst e)) path) w with
  | Some e => (inl (snd e), w)
  | None => (inr "ENOENT"%string, w)
  end.

Definition unlinkSync_io (path : string) (w : World) : (unit + thrown) * World :=
  (inl tt, List.filter (fun e => negb (String.eqb (path_join "temp" (fst e)) path)) w).

Definition cleanupTempFiles :=
  CarouselCleanup.cleanupTempFiles World existsSync_io readdirSync_io
    statSync_isFile_io unlinkSync_io path_join.

Definition temp : World :=
  [("carousel_1_cover.png"%string, true); ("notes.txt"%string, true);
   ("carousel_old"%string, false); ("carousel_2_cta.png"%string, true)].

End MockTemp.

(** ** content.service.ts: the queries *)
Module ContentQueries.
Import JS Content.

(** What the queries read of [new Date()]: [toISOString()], in UTC, and
    [getHours()], in local time. *)
Record DateNow := mkDate {
  toISOString : string;
  getHours : nat
}.

(** [s.padStart(n, c)] for a one-character pad. *)
Definition padStart (n : nat) (c : ascii) (s : string) : string :=
  (string_of_list_ascii (repeat c (n - String.length s)) ++ s)%string.

(** [s.split(sep)[0]] *)
Definition before (sep : ascii) (s : string) : string :=
  match CarouselText.split sep s with
  | w :: _ => w
  | [] => ""
  end.

(** The filter of [getScheduledPosts] on date and status. *)
Definition scheduledOn (d : string) (post : ScheduledPost) : bool :=
  String.eqb (date post) d && String.eqb (status post) "scheduled".

Definition getScheduledPosts (d : string) (t : option string)
    (this : ContentService) : list ScheduledPost :=
  match contentSchedule this with
  | None => []
  | Some cs =>
      let posts := List.filter (scheduledOn d) (schedule cs) in
      match t with
      | Some t' =>
          if truthy t'
          then List.filter (fun post => String.eqb (time post) t') posts
          else posts
      | None => posts
      end
  end.

(** The filter of [getCurrentTimePost]. *)
Definition dueAt (currentDate currentHour : string) (post : ScheduledPost) : bool :=
  if negb (String.eqb (status post) "scheduled")
  then false
  else if String.eqb (date post) currentDate
       then String.eqb (before ":"%char (time post)) currentHour
       else false.

(** [currentPosts] of [getCurrentTimePost], for [now = new Date()]. *)
Definition currentPosts (now : DateNow) (cs : ContentSchedule) : list ScheduledPost :=
  let currentDate := before "T"%char (toISOString now) in
  let currentHour := padStart 2 "0"%char (Number_toString (getHours now)) in
  List.filter (dueAt currentDate currentHour) (schedule cs).

Definition getCurrentTimePost (now : DateNow) (this : ContentService)
    : option ScheduledPost :=
  match contentSchedule this with
  | None => None
  | Some cs => head (currentPosts now cs)
  end.

(** The posts of a service, none when nothing is loaded. *)
Definition posts_of (this : ContentService) : list ScheduledPost :=
  match contentSchedule this with
  | None => []
  | Some cs => schedule cs
  end.

End ContentQueries.

(** ** content.service.ts: [updateSchedule] *)
Module ContentAdmin.
Import JS Content.

(** File-system calls, with [true] when a call returned and [false] when it
    threw; [fs.existsSync] never throws and its flag is its result. *)
Inductive event :=
| EvExistsSync (path : string) (res : bool)
| EvMkdirSync (path : string) (returned : bool)
| EvWrite (path data : string) (returned : bool).

Section WithWorld.

Variable World : Type.
Variable Date_toISOString_io : World -> string * World.
Variable existsSync_io : string -> World -> bool * World.
Variable mkdirSync_io : string -> World -> bool * World.
Variable writeFileSync_io : string -> string -> World -> bool * World.
Variable JSON_stringify : ContentSchedule -> string.
Variable path_join : string -> string -> string.
Variable path_dirname : string -> string.
Variable dirname : string.

Definition archivePath (cs : ContentSchedule) : string :=
  path_join dirname
    ("../content/archives/week-" ++ weekStartDate (metadata cs) ++ ".json").

(** The archiving step, with [false] when it threw. *)
Definition archive (cs : ContentSchedule) (w : World) : bool * World * list event :=
  let archiveDir := path_dirname (archivePath cs) in
  let '(present, w1) := existsSync_io archiveDir w in
  let '(made, w2, t1) :=
    if negb present
    then let '(returned, w2) := mkdirSync_io archiveDir w1 in
         (returned, w2, [EvExistsSync archiveDir present; EvMkdirSync archiveDir returned])
    else (true, w1, [EvExistsSync archiveDir present]) in
  if made
  then
    let data := JSON_stringify cs in
    let '(returned, w3) := writeFileSync_io (archivePath cs) data w2 in
    (returned, w3, t1 ++ [EvWrite (archivePath cs) data returned])
  else (false, w2, t1).

(** The events of [saveContentSchedule], as events of this module. *)
Definition saved (e : Content.event) : event :=
  match e with
  | EvWriteFile p d r => EvWrite p d r
  end.

Definition updateSchedule (newSchedule : ContentSchedule) (this : ContentService)
    (w : World) : bool * ContentService * World * list event :=
  let '(archived, w1, t1) :=
    match contentSchedule this with
    | Some cs => archive cs w
    | None => (true, w, [])
    end in
  if archived
  then
    let this' := {| schedulePath := schedulePath this;
                    contentSchedule := Some newSchedule |} in
    let '(this'', w2, t2) :=
      saveContentSchedule World Date_toISOString_io writeFileSync_io JSON_stringify
        this' w1 in
    (true, this'', w2, t1 ++ map saved t2)
  else (false, this, w1, t1).

End WithWorld.

End ContentAdmin.

(** ** Reading traces of [postToInstagram] *)
Module InstagramTrace.
Import JS Instagram.

(** The [axios.post] calls of a trace with their outcomes, in order. *)
Fixpoint posts (tr : list event) : list (request * outcome) :=
  match tr with
  | [] => []
  | EvPost req res :: tr' => (req, res) :: posts tr'
  | _ :: tr' => posts tr'
  end.

(** The outgoing requests of a trace, in order. *)
Definition requests (tr : list event) : list request := map fst (posts tr).

(** The delays of a trace, in order. *)
Fixpoint delays (tr : list event) : list float :=
  match tr with
  | [] => []
  | EvDelay ms :: tr' => ms :: delays tr'
  | _ :: tr' => delays tr'
  end.

(** The warnings of a trace, in order. *)
Fixpoint warnings (tr : list event) : list string :=
  match tr with
  | [] => []
  | EvWarn msg :: tr' => msg :: warnings tr'
  | _ :: tr' => warnings tr'
  end.

(** A 2xx response whose body is [{id: i}]. *)
Definition with_id (i : string) : outcome := inl (mkResponse (Some (mkData (Some i)))).

(** The phase of a request. *)
Definition phase (req : request) : nat :=
  match req with
  | MediaItem _ _ _ => 1
  | MediaCarousel _ _ _ _ => 2
  | MediaPublish _ _ _ => 3
  end.

(** A container-creation call (phase 1 or 2) fails when axios throws or
    when the response carries no usable id. *)
Definition creation_failed (res : outcome) : bool :=
  match res with
  | inl r => match response_id r with Some _ => false | None => true end
  | inr _ => true
  end.

(** The text that the phase-1 handler appends after the image number. *)
Definition failure_text (url : string) (res : outcome) : string :=
  match res with
  | inl _ => "Failed to create media container for URL: " ++ url
  | inr e => describe e
  end.

(** The first [n] delays of the publish schedule that starts at [d]:
    each one is the previous one times 1.5. *)
Fixpoint backoff (n : nat) (d : float) : list float :=
  match n with
  | O => []
  | S n' => d :: backoff n' (d * 1.5)%float
  end.

(** The events of successive publish attempts: a delay, then the call. *)
Definition attempts (req : request) (l : list (float * outcome)) : list event :=
  flat_map (fun p => [EvDelay (fst p); EvPost req (snd p)]) l.

(** Strictly increasing sequence of delays. *)
Fixpoint increasing (l : list float) : bool :=
  match l with
  | a :: (b :: _) as l' => PrimFloat.ltb a b && increasing l'
  | _ => true
  end.

(** The URLs actually used: the first ten. *)
Definition used (mediaUrls : list string) : list string :=
  if (10 <? length mediaUrls)%nat then slice0 10 mediaUrls else mediaUrls.

(** The warning logged when the list is cut. *)
Definition truncation_warning (mediaUrls : list string) : list string :=
  if (10 <? length mediaUrls)%nat
  then [("Warning: Instagram only supports up to 10 images in a carousel. Truncating from "
         ++ Number_toString (length mediaUrls) ++ " to 10.")%string]
  else [].

(** A failure that [attemptPublish] treats as transient. *)
Definition transient (e : Error) : Prop := isUnknownError e = true.

Section Shapes.

Variables (acct tok caption : string) (enhancedCaption : option string).

(** Phase-1 calls that were accepted: URL [u] answered with id [i]. *)
Definition accepted (urls ids : list string) : list (request * outcome) :=
  map (fun p => (MediaItem acct (fst p) tok, with_id (snd p))) (combine urls ids).

Definition carousel_request (ids : list string) : request :=
  MediaCarousel acct (join "," ids) (or_else enhancedCaption caption) tok.

(** Phase-3 calls: every attempt sends the same request. *)
Definition published (cid : string) (results : list outcome) : list (request * outcome) :=
  map (fun res => (MediaPublish acct cid tok, res)) results.

(** The four ways a run over [urls] can end, with the calls it made. *)
Inductive ends (urls : list string)
  : PublishResult + Error -> list (request * outcome) -> Prop :=
| ends_phase1 (k : nat) (ids : list string) (url : string) (res : outcome) :
    urls !! k = Some url ->
    length ids = k ->
    Forall (fun i => truthy i = true) ids ->
    creation_failed res = true ->
    ends urls
      (inr (new_Error ("Failed to create container " ++ Number_toString (k + 1)
                       ++ ": " ++ failure_text url res)))
      (accepted (firstn k urls) ids ++ [(MediaItem acct url tok, res)])
| ends_phase2 (ids : list string) (res : outcome) :
    length ids = length urls ->
    Forall (fun i => truthy i = true) ids ->
    creation_failed res = true ->
    ends urls
      (inr (new_Error ("Failed to create carousel container: "
                       ++ match res with
                          | inl _ => "Failed to create carousel container"
                          | inr e => describe e
                          end)))
      (accepted urls ids ++ [(carousel_request ids, res)])
| ends_phase3 (ids : list string) (cid : string) (failures : list Error) (e : Error) :
    length ids = length urls ->
    Forall (fun i => truthy i = true) ids ->
    truthy cid = true ->
    length failures <= 3 ->
    Forall transient failures ->
    isUnknownError e = false \/ length failures = 3 ->
    ends urls
      (inr (new_Error ("Failed to publish carousel after multiple attempts: "
                       ++ describe e)))
      (accepted urls ids ++ [(carousel_request ids, with_id cid)]
       ++ published cid (map inr failures ++ [inr e]))
| ends_published (ids : list string) (cid : string) (failures : list Error)
    (r : AxiosResponse) :
    length ids = length urls ->
    Forall (fun i => truthy i = true) ids ->
    truthy cid = true ->
    length failures <= 3 ->
    Forall transient failures ->
    ends urls
      (inl {| success := true;
              postId := optional_id r;
              containerIds := ids;
              carouselContainerId := cid |})
      (accepted urls ids ++ [(carousel_request ids, with_id cid)]
       ++ published cid (map inr failures ++ [inl r])).

End Shapes.

End InstagramTrace.

(** ** More readings of a trace of [postToInstagram] *)
Module InstagramRequests.
Import JS Instagram InstagramTrace.

(** The [image_url] parameters of the phase-1 requests, in order. *)
Definition image_urls (reqs : list request) : list string :=
  flat_map (fun req => match req with
                       | MediaItem _ u _ => [u]
                       | _ => []
                       end) reqs.

(** The account a request is addressed to, and the token it carries. *)
Definition account (req : request) : string :=
  match req with
  | MediaItem a _ _ => a
  | MediaCarousel a _ _ _ => a
  | MediaPublish a _ _ => a
  end.

Definition token (req : request) : string :=
  match req with
  | MediaItem _ _ t => t
  | MediaCarousel _ _ _ t => t
  | MediaPublish _ _ t => t
  end.

(** The text after the prefix of a phase-2 error. *)
Definition carousel_failure_text (res : outcome) : string :=
  match res with
  | inl _ => "Failed to create carousel container"
  | inr e => describe e
  end.

End InstagramRequests.

(** ** The class of transient errors, and the events of phase 1 *)
Module InstagramReadings.
Import JS Instagram InstagramTrace.

(** The text [s] contains 'unknown error' (13 characters) at some
    position. *)
Definition mentions_unknown_error (s : string) : Prop :=
  exists m, substring m 13 s = "unknown error".

(** The platform's message, when the error has one, or the error's own
    message, contains 'unknown error'. *)
Definition unknown_error_class (e : Error) : Prop :=
  (exists msg, response_error_message e = Some msg /\ mentions_unknown_error msg) \/
  mentions_unknown_error (message e).

(** The events of a completed phase-1 loop entered at index [i], image
    after image: a wait of one second, except at index 0, then the call for
    the image, answered with its container id. *)
Fixpoint container_events (acct tok : string) (i : nat) (urls ids : list string)
    : list event :=
  match urls, ids with
  | url :: urls', cid :: ids' =>
      (if (0 <? i)%nat then [EvDelay 1000%float] else [])
      ++ EvPost (MediaItem acct url tok) (with_id cid)
      :: container_events acct tok (S i) urls' ids'
  | _, _ => []
  end.

End InstagramReadings.

(** ** A scripted platform, as a test double for [axios.post] *)
Module Mock.
Import Instagram.

(** The script: the outcomes of the coming calls, in order. *)
Definition World := list outcome.

Definition axios_post (req : request) (w : World) : outcome * World :=
  match w with
  | o :: w' => (o, w')
  | [] => (inr (new_Error "Network Error"), [])
  end.

Definition setTimeout (ms : float) (w : World) : World := w.

Definition ok (i : string) : outcome := inl (mkResponse (Some (mkData (Some i)))).

Definition fails (msg : string) : outcome := inr (new_Error msg).

Definition env : Env := mkEnv (Some "token") (Some "17841400000000000").

Definition postToInstagram := Instagram.postToInstagram World axios_post setTimeout.

Definition attemptPublish := Instagram.attemptPublish World axios_post setTimeout.

Definition createContainers := Instagram.createContainers World axios_post setTimeout.

(** A 4xx answer of the Graph API, with the platform's own message. *)
Definition rejects (msg : string) : outcome :=
  inr (mkError "Request failed with status code 400" (Some msg)).

(** Three containers, the carousel and the publish call all succeed. *)
Definition script_roundtrip : World :=
  [ok "id1"; ok "id2"; ok "id3"; ok "cid"; ok "post1"].

(** The publish call answers 2xx with a body that has no [id]. *)
Definition script_no_id : World :=
  [ok "id1"; ok "id2"; ok "id3"; ok "cid"; inl (mkResponse (Some (mkData None)))].

(** Three transient failures, then success. *)
Definition script_retry : World :=
  [rejects "An unknown error has occurred."; rejects "An unknown error has occurred.";
   rejects "An unknown error has occurred."; ok "post1"].

(** The second image is refused. *)
Definition script_second_refused : World :=
  [ok "id1"; rejects "Only photo or video can be accepted as media type."].

(** Twelve URLs and a platform that accepts everything. *)
Definition twelve : list string :=
  ["u1"; "u2"; "u3"; "u4"; "u5"; "u6"; "u7"; "u8"; "u9"; "u10"; "u11"; "u12"].

Definition script_ten : World :=
  [ok "c1"; ok "c2"; ok "c3"; ok "c4"; ok "c5"; ok "c6"; ok "c7"; ok "c8"; ok "c9";
   ok "c10"; ok "cid"; ok "post1"].

(** The traces of the scripted runs. *)
Definition trace_roundtrip : list event :=
  snd (postToInstagram env "Test" ["a"; "b"; "c"] (Some "Enhanced") script_roundtrip).

Definition trace_retry : list event :=
  snd (attemptPublish "acct" "tok" "cid" 0 3 5000%float script_retry).

Definition trace_second_refused : list event :=
  snd (postToInstagram env "Test" ["a"; "b"; "c"] None script_second_refused).

Definition trace_twelve : list event :=
  snd (postToInstagram env "Test" twelve None script_ten).

End Mock.

(** ** A disk and a clock, as test doubles for [fs] and [Date] *)
Module MockContent.
Import Content.

(** The disk: the files written so far, most recent first. *)
Definition World := list (string * string).

Definition Date_toISOString_io (w : World) : string * World :=
  ("2025-05-20T14:00:00.000Z", w).

Definition writeFileSync_io (path data : string) (w : World) : bool * World :=
  (true, (path, data) :: w).

(** A stand-in for [JSON.stringify]: ids and statuses, then the timestamp. *)
Definition JSON_stringify (cs : ContentSchedule) : string :=
  (String.concat ";" (map (fun post => id post ++ "=" ++ status post)%string (schedule cs))
   ++ "@" ++ updatedAt (metadata cs))%string.

Definition markPostAsPublished :=
  Content.markPostAsPublished World Date_toISOString_io writeFileSync_io JSON_stringify.

Definition post (i : string) (hour : string) : ScheduledPost :=
  {| id := i; date := "2025-05-20"; time := hour; type := "carousel";
     category := "myths"; status := "scheduled";
     content := {| title := "T"; slides := ["s1"; "s2"]; cta := "C"; caption := "cap" |} |}.

Definition week : ContentSchedule :=
  {| metadata := {| weekStartDate := "2025-05-19"; weekEndDate := "2025-05-25";
                    createdAt := "2025-05-18T00:00:00.000Z";
                    updatedAt := "2025-05-18T00:00:00.000Z"; totalPosts := 3 |};
     schedule := [post "p1" "14:00:00"; post "p2" "17:00:00"; post "p3" "00:00:00"] |}.

Definition service : ContentService :=
  {| schedulePath := "content-schedule.json"; contentSchedule := Some week |}.

End MockContent.

(** ** Reading traces of [createCarousel] *)
Module CarouselTrace.
Import JS Carousel.

(** The content slides from index [i] on, numbered from [i + 1]. *)
Fixpoint numbered (totalSlides i : nat) (slides : list string) : list slide :=
  match slides with
  | [] => []
  | content :: slides' =>
      Content content (i + 1) totalSlides :: numbered totalSlides (S i) slides'
  end.

(** What is drawn for a carousel: cover, content slides, call to action. *)
Definition deck (title : string) (slides : list string) (cta : string) : list slide :=
  Cover title :: numbered (length slides) 0 slides ++ [Cta cta (length slides)].

Section WithWorld.

Variable World : Type.
Variable ensureDirectoryExists_io : string -> World -> (unit + thrown) * World.
Variable cloudinary_upload_io : string -> World -> (string + thrown) * World.
Variable copyFileSync_io : string -> string -> World -> (unit + thrown) * World.
Variable path_join : string -> string -> string.
Variable path_basename : string -> string.
Variable dirname : string.
Variable env : Env.

(** [stored_all ss urls tr]: the trace [tr] is, slide after slide of [ss],
    the drawing of the slide into some file followed by an upload of that
    file which returned the URL at the same position of [urls]. *)
Inductive stored_all : list slide -> list string -> list event -> Prop :=
| stored_nil : stored_all [] [] []
| stored_cons (s : slide) (ss : list slide) (outputPath url : string)
    (urls : list string) (w w' : World) (t tr : list event) :
    uploadToCloudinaryOrLocal World ensureDirectoryExists_io cloudinary_upload_io
      copyFileSync_io path_join path_basename dirname env outputPath w
      = (inl url, w', t) ->
    stored_all ss urls tr ->
    stored_all (s :: ss) (url :: urls) (EvRender s outputPath (inl tt) :: t ++ tr).

End WithWorld.

End CarouselTrace.

(** ** A canvas, a disk and an image host, as test doubles *)
Module MockCarousel.
Import Carousel.

(** The world: the clock, in milliseconds. *)
Definition World := nat.

Definition ensureDirectoryExists_io (dirPath : string) (w : World)
  : (unit + thrown) * World := (inl tt, w).

Definition draw_io (s : slide) (outputPath : string) (w : World)
  : (unit + thrown) * World := (inl tt, w).

(** The host answers with a URL made from the path. *)
Definition cloudinary_upload_io (imagePath : string) (w : World)
  : (string + thrown) * World :=
  (inl ("https://res.cloudinary.com/demo/" ++ imagePath)%string, w).

Definition copyFileSync_io (src dest : string) (w : World)
  : (unit + thrown) * World := (inl tt, w).

Definition cleanupTempFiles_io (tempDir : string) (w : World) : World := w.

Definition Date_now_io (w : World) : nat * World := (w, S w).

Definition path_join (a b : string) : string := (a ++ "/" ++ b)%string.

Definition path_basename (p : string) : string := p.

Definition env : Env :=
  {| CLOUDINARY_CLOUD_NAME := Some "demo"; CLOUDINARY_API_KEY := Some "key";
     CLOUDINARY_API_SECRET := Some "secret"; APP_BASE_URL := None; PORT := None;
     NODE_ENV := Some "production" |}.

Definition createCarousel :=
  Carousel.createCarousel World ensureDirectoryExists_io draw_io cloudinary_upload_io
    copyFileSync_io cleanupTempFiles_io Date_now_io path_join path_basename "src" env.

(** A two-slide carousel made at time 0. *)
Definition demo_urls : list string :=
  ["https://res.cloudinary.com/demo/src/../../temp/carousel_0_cover.png";
   "https://res.cloudinary.com/demo/src/../../temp/carousel_1_slide_1.png";
   "https://res.cloudinary.com/demo/src/../../temp/carousel_2_slide_2.png";
   "https://res.cloudinary.com/demo/src/../../temp/carousel_3_cta.png"].

Definition demo_trace : list event :=
  snd (createCarousel "Title" ["s1"; "s2"] (Some "Go") 0).

End MockCarousel.

(** ** More scripts for the platform double *)
Module MockScripts.
Import Instagram Mock.

(** Three containers accepted, the carousel refused. *)
Definition script_carousel_refused : World :=
  [ok "id1"; ok "id2"; ok "id3"; rejects "The user is not an Instagram Business."].

Definition trace_carousel_refused : list event :=
  snd (postToInstagram env "Test" ["a"; "b"; "c"] None script_carousel_refused).

(** A carousel of eleven images: cover, nine slides, call to action. *)
Definition eleven : list string :=
  ["cover"; "s1"; "s2"; "s3"; "s4"; "s5"; "s6"; "s7"; "s8"; "s9"; "cta"].

Definition trace_eleven : list event :=
  snd (postToInstagram env "Test" eleven None script_ten).

(** One transient failure, then a failure that is not transient. *)
Definition script_two_failures : World :=
  [rejects "An unknown error has occurred."; rejects "Media ID is not available"].

Definition trace_two_failures : list event :=
  snd (attemptPublish "acct" "tok" "cid" 1 3 7500%float script_two_failures).

(** A failure that is not transient; a second call would succeed. *)
Definition script_not_transient : World :=
  [rejects "Media ID is not available"; ok "post1"].

Definition trace_not_transient : list event :=
  snd (attemptPublish "acct" "tok" "cid" 0 3 5000%float script_not_transient).

End MockScripts.

(** ** More readings of a trace of [createCarousel] *)
Module CarouselReadings.
Import JS Carousel.

(** The cleanup of the temporary directory did not run in this trace. *)
Definition no_cleanup (tr : list event) : Prop :=
  Forall (fun ev => match ev with EvCleanup _ => False | _ => True end) tr.

(** No call to the image host in this trace. *)
Definition no_cloud_call (tr : list event) : Prop :=
  Forall (fun ev => match ev with EvCloudinary _ _ => False | _ => True end) tr.

(** The outcome recorded by an event; the cleanup has none. *)
Definition failed (ev : event) : option thrown :=
  match ev with
  | EvEnsureDir _ (inr e) => Some e
  | EvRender _ _ (inr e) => Some e
  | EvCloudinary _ (inr e) => Some e
  | EvCopyFile _ _ (inr e) => Some e
  | _ => None
  end.

Section Paths.

Variable path_join : string -> string -> string.
Variable path_basename : string -> string.
Variable dirname : string.
Variable env : Env.

(** [useCloudinary] of [uploadToCloudinaryOrLocal]. *)
Definition useCloudinary : bool :=
  otruthy (CLOUDINARY_CLOUD_NAME env) && otruthy (CLOUDINARY_API_KEY env)
  && otruthy (CLOUDINARY_API_SECRET env).

Definition publicDir : string := path_join dirname "../../public/uploads".

Definition publicPath (imagePath : string) : string :=
  path_join publicDir (path_basename imagePath).

(** The URL under which a locally stored image is served. *)
Definition localUrl (imagePath : string) : string :=
  (or_else (APP_BASE_URL env) ("http://localhost:" ++ or_else (PORT env) "3000")
   ++ "/uploads/" ++ path_basename imagePath)%string.

End Paths.

(** The slides drawn in a trace, in order. *)
Definition drawn (tr : list event) : list slide :=
  flat_map (fun ev => match ev with
                      | EvRender s _ (inl _) => [s]
                      | _ => []
                      end) tr.

(** The text put before the cause when local storage fails. *)
Definition local_failure : string :=
  "Failed to store image locally after Cloudinary failure (if attempted): ".

(** The trace ends with an operation that threw. *)
Definition stops_failed (tr : list event) : Prop :=
  exists ev cause, last tr = Some ev /\ failed ev = Some cause.

Section Runs.

Variable World : Type.

(** A computation that never cleans up and, when it throws, stops right
    after an operation that threw. *)
Definition quiet {A} (m : Eff.M World thrown event A) : Prop :=
  forall w,
    no_cleanup (snd (m w)) /\
    (forall e, fst (fst (m w)) = inr e -> stops_failed (snd (m w))).

(** A computation that, when it throws, has not cleaned up, and when it
    returns has cleaned up [tempDir] as its very last step, unless in
    development. *)
Definition tidy (development : bool) (tempDir : string) {A}
    (m : Eff.M World thrown event A) : Prop :=
  forall w,
    match fst (fst (m w)) with
    | inr _ => no_cleanup (snd (m w)) /\ stops_failed (snd (m w))
    | inl _ =>
        if development
        then no_cleanup (snd (m w))
        else exists body,
               snd (m w) = body ++ [EvCleanup tempDir] /\ no_cleanup body
    end.

End Runs.

End CarouselReadings.

(** ** A host that is down and a disk that works *)
Module MockHostDown.
Import Carousel.

Definition World := nat.

Definition cloudinary_upload_io (imagePath : string) (w : World)
  : (string + thrown) * World := (inr "connect ETIMEDOUT"%string, w).

(** The carousel pipeline with the host down; everything else as in
    [MockCarousel]. *)
Definition uploadToCloudinaryOrLocal :=
  Carousel.uploadToCloudinaryOrLocal World MockCarousel.ensureDirectoryExists_io
    cloudinary_upload_io MockCarousel.copyFileSync_io MockCarousel.path_join
    MockCarousel.path_basename "src" MockCarousel.env.

(** A disk on which nothing can be copied. *)
Definition copyFileSync_io (src dest : string) (w : World)
  : (unit + thrown) * World := (inr "ENOSPC: no space left on device"%string, w).

Definition createCarousel_disk_full :=
  Carousel.createCarousel World MockCarousel.ensureDirectoryExists_io
    MockCarousel.draw_io cloudinary_upload_io copyFileSync_io
    MockCarousel.cleanupTempFiles_io MockCarousel.Date_now_io MockCarousel.path_join
    MockCarousel.path_basename "src" MockCarousel.env.

(** No image host configured. *)
Definition env_local : Env :=
  {| CLOUDINARY_CLOUD_NAME := Some "demo"; CLOUDINARY_API_KEY := Some "";
     CLOUDINARY_API_SECRET := Some "secret"; APP_BASE_URL := None;
     PORT := Some "8080"; NODE_ENV := Some "development" |}.

Definition uploadToCloudinaryOrLocal_local :=
  Carousel.uploadToCloudinaryOrLocal World MockCarousel.ensureDirectoryExists_io
    MockCarousel.cloudinary_upload_io MockCarousel.copyFileSync_io MockCarousel.path_join
    MockCarousel.path_basename "src" env_local.

End MockHostDown.

(** ** A disk whose archive directory cannot be made *)
Module MockAdmin.
Import Content ContentAdmin.

Definition existsSync_io (path : string) (w : MockContent.World)
  : bool * MockContent.World := (false, w).

Definition mkdirSync_ok (path : string) (w : MockContent.World)
  : bool * MockContent.World := (true, w).


Definition path_join (a b : string) : string := (a ++ "/" ++ b)%string.

Definition path_dirname (p : string) : string := "src/../content/archives".

Definition updateSchedule :=
  ContentAdmin.updateSchedule MockContent.World MockContent.Date_toISOString_io
    existsSync_io mkdirSync_ok MockContent.writeFileSync_io MockContent.JSON_stringify
    path_join path_dirname "src".



(** 20 May 2025, between 17:00 and 18:00 local time. *)
Definition five_pm : ContentQueries.DateNow :=
  ContentQueries.mkDate "2025-05-20T21:30:00.000Z" 17.

End MockAdmin.

(** ** cron.service.ts, with templates/nutrition-myths.ts *)
Module Cron.
Import JS Eff Content ContentQueries.

Definition hashtags : string :=
  "#nutrition #healthyeating #nutritionmyths #dietmyths #healthtips #weightloss #healthyliving #wellness #nutritioncoach #dietitian #nutritionist #healthyfood #healthylifestyle #nutritionfacts #foodfacts #healthyhabits #balanceddiet #eatinghealthy #nutritiontips #foodscience".

(** The fallback content; the caption is a template literal that ends in
    [${hashtags}]. *)
Definition getNutritionMythsContent : PostContent :=
  {| title := "🧠 10 Nutrition Myths You Still Believe";
     slides :=
      ["Myth 1: Carbs make you fat.";
       "Myth 2: Eating after 8 PM causes weight gain.";
       "Myth 3: Fat-free means healthy.";
       "Myth 4: Detox diets cleanse your body.";
       "Myth 5: High-protein diets harm your kidneys.";
       "Myth 6: Snacking leads to weight gain.";
       "Myth 7: All calories are equal."];
     cta := "Track your nutrition accurately with DailyNutritionTracker.com";
     caption := ("🧠 DEBUNKING 10 COMMON NUTRITION MYTHS 🧠

These nutrition myths might be sabotaging your health goals:

1️⃣ Carbs don't make you fat - excess calories do
2️⃣ Eating after 8 PM doesn't cause weight gain - total daily calories matter
3️⃣ Fat-free isn't healthy - many contain added sugars
4️⃣ Detox diets don't work - your liver and kidneys do that naturally
5️⃣ High-protein diets are safe for healthy people
6️⃣ Healthy snacking prevents overeating
7️⃣ Not all calories are equal - quality matters

Want to track your nutrition accurately? Visit DailyNutritionTracker.com

" ++ hashtags)%string |}.

(** What [scheduledPostJob] rethrows: the value thrown by [createCarousel]
    or by [postToInstagram]. *)
Inductive thrown :=
| CarouselFailure (error : Carousel.thrown)
| InstagramFailure (error : Instagram.Error).

(** Observable events, in chronological order: those of the two services,
    the writes of the content schedule, and the file-system calls of
    [logSuccessfulPost], with [true] when a call returned and [false] when
    it threw ([fs.existsSync] never throws and its flag is its result). *)
Inductive event :=
| EvCarousel (ev : Carousel.event)
| EvInstagram (ev : Instagram.event)
| EvSchedule (ev : Content.event)
| EvExistsSync (path : string) (res : bool)
| EvMkdirSync (path : string) (returned : bool)
| EvAppendFile (path data : string) (returned : bool).

(** The record returned by the job. *)
Record JobResult := mkJob {
  success : bool;
  postContent : PostContent;
  result : Instagram.PublishResult;
  scheduledPostId : option string
}.

Section WithWorld.

(** The outside world of the three services and of the log, and the
    [process.env] entries as each service reads them.  [Date_io] is
    [new Date()]; the three modules live in the same directory. *)
Variable World : Type.
Variable axios_post : Instagram.request -> World -> Instagram.outcome * World.
Variable setTimeout : float -> World -> World.
Variable ensureDirectoryExists_io : string -> World -> (unit + Carousel.thrown) * World.
Variable draw_io : Carousel.slide -> string -> World -> (unit + Carousel.thrown) * World.
Variable cloudinary_upload_io : string -> World -> (string + Carousel.thrown) * World.
Variable copyFileSync_io : string -> string -> World -> (unit + Carousel.thrown) * World.
Variable cleanupTempFiles_io : string -> World -> World.
Variable Date_now_io : World -> nat * World.
Variable Date_io : World -> DateNow * World.
Variable Date_toISOString_io : World -> string * World.
Variable writeFileSync_io : string -> string -> World -> bool * World.
Variable JSON_stringify : ContentSchedule -> string.
Variable existsSync_io : string -> World -> bool * World.
Variable mkdirSync_io : string -> World -> bool * World.
Variable appendFileSync_io : string -> string -> World -> bool * World.
Variable path_join : string -> string -> string.
Variable path_basename : string -> string.
Variable dirname : string.
Variable instagram_env : Instagram.Env.
Variable carousel_env : Carousel.Env.

(** The state: the [contentService] singleton and the outside world. *)
Definition M (A : Type) : Type := Eff.M (ContentService * World) thrown event A.

(** A call into a service that does not touch [contentService]. *)
Definition service {Err Ev A} (wrap : Err -> thrown) (log : Ev -> event)
    (m : Eff.M World Err Ev A) : M A :=
  fun s =>
    match m (snd s) with
    | (inl a, w1, t) => (inl a, (fst s, w1), map log t)
    | (inr e, w1, t) => (inr (wrap e), (fst s, w1), map log t)
    end.

(** The job always passes a [cta], so the default of the parameter is not
    used; the caption of the content is passed as [enhancedCaption]. *)
Definition createCarousel (title : string) (slides : list string) (cta : string)
    : M (list string) :=
  service CarouselFailure EvCarousel
    (Carousel.createCarousel World ensureDirectoryExists_io draw_io
       cloudinary_upload_io copyFileSync_io cleanupTempFiles_io Date_now_io
       path_join path_basename dirname carousel_env title slides (Some cta)).

Definition postToInstagram (caption : string) (mediaUrls : list string)
    (enhancedCaption : string) : M Instagram.PublishResult :=
  service InstagramFailure EvInstagram
    (Instagram.postToInstagram World axios_post setTimeout instagram_env
       caption mediaUrls (Some enhancedCaption)).

(** [contentService.getCurrentTimePost()], with its own [new Date()]. *)
Definition getCurrentTimePost : M (option ScheduledPost) :=
  fun s =>
    let '(now, w1) := Date_io (snd s) in
    (inl (ContentQueries.getCurrentTimePost now (fst s)), (fst s, w1), []).

(** [contentService.markPostAsPublished(postId)] *)
Definition markPostAsPublished (postId : string) : M bool :=
  fun s =>
    let '(ok, this', w', t) :=
      Content.markPostAsPublished World Date_toISOString_io writeFileSync_io
        JSON_stringify postId (fst s) (snd s) in
    (inl ok, (this', w'), map EvSchedule t).

Definition getPostContentForToday : M PostContent :=
  scheduledPost <- getCurrentTimePost ;;
  match scheduledPost with
  | Some post => ret (content post)
  | None => ret getNutritionMythsContent
  end.

(** [logSuccessfulPost(title)]: whatever throws is caught and logged. *)
Definition logSuccessfulPost (title : string) : M unit :=
  fun s =>
    let logsDir := path_join dirname "../../logs" in
    let '(present, w1) := existsSync_io logsDir (snd s) in
    let '(made, w2, t1) :=
      if negb present
      then let '(returned, w2) := mkdirSync_io logsDir w1 in
           (returned, w2, [EvExistsSync logsDir present; EvMkdirSync logsDir returned])
      else (true, w1, [EvExistsSync logsDir present]) in
    if made
    then
      let logFile := path_join logsDir "posts.log" in
      let '(timestamp, w3) := Date_toISOString_io w2 in
      let logEntry :=
        (timestamp ++ " - Posted: " ++ title ++ String "010"%char EmptyString)%string in
      let '(returned, w4) := appendFileSync_io logFile logEntry w3 in
      (inl tt, (fst s, w4), t1 ++ [EvAppendFile logFile logEntry returned])
    else (inl tt, (fst s, w2), t1).

(** [postId || null], also the test of [if (postId)]. *)
Definition or_null (postId : option string) : option string :=
  match postId with
  | Some i => if truthy i then Some i else None
  | None => None
  end.

Definition scheduledPostJob : M JobResult :=
  try_catch
    (postContent <- getPostContentForToday ;;
     currentPost <- getCurrentTimePost ;;
     let postId := id <$> currentPost in
     carouselUrls <-
       createCarousel (title postContent) (slides postContent) (cta postContent) ;;
     result <-
       postToInstagram (title postContent) carouselUrls (caption postContent) ;;
     (match or_null postId with
      | Some postId => markPostAsPublished postId ;;; ret tt
      | None => ret tt
      end) ;;;
     logSuccessfulPost (title postContent) ;;;
     ret {| success := true;
            postContent := postContent;
            result := result;
            scheduledPostId := or_null postId |})
    (fun error => throw error).

End WithWorld.

End Cron.

(** ** Reading traces of [scheduledPostJob] *)
Module CronTrace.
Import Cron.

(** The events of the two services. *)
Definition carousel_events (tr : list event) : list Carousel.event :=
  flat_map (fun ev => match ev with EvCarousel e => [e] | _ => [] end) tr.

Definition instagram_events (tr : list event) : list Instagram.event :=
  flat_map (fun ev => match ev with EvInstagram e => [e] | _ => [] end) tr.

(** Events of [logSuccessfulPost]. *)
Definition is_log (ev : event) : bool :=
  match ev with
  | EvExistsSync _ _ | EvMkdirSync _ _ | EvAppendFile _ _ _ => true
  | _ => false
  end.

(** The content chosen at a clock reading. *)
Definition chosen (now : ContentQueries.DateNow) (this : Content.ContentService)
    : Content.PostContent :=
  match ContentQueries.getCurrentTimePost now this with
  | Some post => Content.content post
  | None => getNutritionMythsContent
  end.

(** The id kept at a clock reading. *)
Definition due_id (now : ContentQueries.DateNow) (this : Content.ContentService)
    : option string :=
  or_null (Content.id <$> ContentQueries.getCurrentTimePost now this).

Section Marking.

Variable World : Type.
Variable Date_toISOString_io : World -> string * World.
Variable writeFileSync_io : string -> string -> World -> bool * World.
Variable JSON_stringify : Content.ContentSchedule -> string.

(** The bookkeeping after a publication. *)
Definition marking (postId : option string) (this : Content.ContentService) (w : World)
  : Content.ContentService * World * list Content.event :=
  match postId with
  | Some i =>
      let '(ok, this', w', t) :=
        Content.markPostAsPublished World Date_toISOString_io writeFileSync_io
          JSON_stringify i this w in
      (this', w', t)
  | None => (this, w, [])
  end.

End Marking.

End CronTrace.

(** ** A platform, a disk and a clock, as test doubles for the whole job *)
Module MockCron.
Import Content Cron.

(** The script of the platform, the millisecond clock, and the files
    written or appended to, most recent first. *)
Record World := mkWorld {
  platform : Mock.World;
  clock : nat;
  disk : list (string * string)
}.

Definition axios_post (req : Instagram.request) (w : World)
  : Instagram.outcome * World :=
  let '(o, p) := Mock.axios_post req (platform w) in (o, mkWorld p (clock w) (disk w)).

Definition setTimeout (ms : float) (w : World) : World := w.

Definition ensureDirectoryExists_io (dirPath : string) (w : World)
  : (unit + Carousel.thrown) * World := (inl tt, w).

Definition draw_io (s : Carousel.slide) (outputPath : string) (w : World)
  : (unit + Carousel.thrown) * World := (inl tt, w).

Definition cloudinary_upload_io (imagePath : string) (w : World)
  : (string + Carousel.thrown) * World :=
  (inl ("https://res.cloudinary.com/demo/" ++ imagePath)%string, w).

Definition copyFileSync_io (src dest : string) (w : World)
  : (unit + Carousel.thrown) * World := (inl tt, w).

Definition cleanupTempFiles_io (tempDir : string) (w : World) : World := w.

Definition Date_now_io (w : World) : nat * World :=
  (clock w, mkWorld (platform w) (S (clock w)) (disk w)).

(** It stays 20 May 2025, between 17:00 and 18:00 local time. *)
Definition Date_io (w : World) : ContentQueries.DateNow * World :=
  (MockAdmin.five_pm, w).

Definition Date_toISOString_io (w : World) : string * World :=
  ("2025-05-20T21:30:00.000Z", w).

Definition writeFileSync_io (path data : string) (w : World) : bool * World :=
  (true, mkWorld (platform w) (clock w) ((path, data) :: disk w)).

Definition existsSync_io (path : string) (w : World) : bool * World := (true, w).

Definition mkdirSync_io (path : string) (w : World) : bool * World := (true, w).

Definition appendFileSync_io (path data : string) (w : World) : bool * World :=
  (true, mkWorld (platform w) (clock w) ((path, data) :: disk w)).

Definition scheduledPostJob :=
  Cron.scheduledPostJob World axios_post setTimeout ensureDirectoryExists_io draw_io
    cloudinary_upload_io copyFileSync_io cleanupTempFiles_io Date_now_io Date_io
    Date_toISOString_io writeFileSync_io MockContent.JSON_stringify existsSync_io
    mkdirSync_io appendFileSync_io MockCarousel.path_join MockCarousel.path_basename
    "src" Mock.env MockCarousel.env.


(** A platform that refuses the second image. *)
Definition refusing : World := mkWorld Mock.script_second_refused 0 [].




Definition run_refused := scheduledPostJob (MockContent.service, refusing).




End MockCron.

(** ** Properties of [postToInstagram] *)
Module InstagramSpec.
Import JS Instagram InstagramTrace InstagramReadings.

(** [includes] finds exactly the occurrences of a non-empty substring. *)
Lemma includes_correct (s sub : string) :
  sub <> "" ->
  includes s sub = true <-> exists m, substring m (String.length sub) s = sub.
Proof.
  intros Hne. unfold includes.
  destruct (String.index 0 sub s) as [m|] eqn:E.
  - split; [intros _|reflexivity]. exists m. eapply index_correct1. exact E.
  - split; [discriminate|]. intros [m Hm]. exfalso.
    eapply (index_correct3 0 m); [exact E|exact Hne|lia|exact Hm].
Qed.

Lemma posts_app (t1 t2 : list event) : posts (t1 ++ t2) = posts t1 ++ posts t2.
Proof.
  induction t1 as [|[msg|ms|req res] t1 IH]; simpl; rewrite ?IH; reflexivity.
Qed.

Lemma warnings_app (t1 t2 : list event) :
  warnings (t1 ++ t2) = warnings t1 ++ warnings t2.
Proof.
  induction t1 as [|[msg|ms|req res] t1 IH]; simpl; rewrite ?IH; reflexivity.
Qed.

(** A response with a usable id is, as far as the model reads it, [{id}]. *)
Lemma response_id_Some (r : AxiosResponse) (i : string) :
  response_id r = Some i -> inl r = with_id i /\ truthy i = true.
Proof.
  destruct r as [[[[j|]]|]]; unfold response_id; simpl; try discriminate.
  destruct (truthy j) eqn:E; [|discriminate].
  intros [= ->]. split; [reflexivity|assumption].
Qed.

Section Proofs.

Variable World : Type.
Variable axios_post : request -> World -> outcome * World.
Variable setTimeout : float -> World -> World.

Local Abbreviation postToInstagram := (postToInstagram World axios_post setTimeout).
Local Abbreviation createContainer := (createContainer World axios_post setTimeout).
Local Abbreviation createContainers := (createContainers World axios_post setTimeout).
Local Abbreviation createCarouselContainer :=
  (createCarouselContainer World axios_post setTimeout).
Local Abbreviation attemptPublish_rec := (attemptPublish_rec World axios_post setTimeout).
Local Abbreviation attemptPublish := (attemptPublish World axios_post setTimeout).
Local Abbreviation publishCarousel := (publishCarousel World axios_post setTimeout).

(** *** Phase 1 *)

(** One iteration of the loop, in closed form. *)
Lemma createContainer_run (acct tok : string) (i : nat) (url : string) (w : World) :
  let w0 := if (0 <? i)%nat then setTimeout 1000%float w else w in
  let t0 := if (0 <? i)%nat then [EvDelay 1000%float] else [] in
  let res := fst (axios_post (MediaItem acct url tok) w0) in
  createContainer acct tok i url w =
    (match res with
     | inl r =>
         match response_id r with
         | Some cid => inl cid
         | None =>
             inr (new_Error ("Failed to create container " ++ Number_toString (i + 1)
                             ++ ": " ++ failure_text url res))
         end
     | inr e =>
         inr (new_Error ("Failed to create container " ++ Number_toString (i + 1)
                         ++ ": " ++ failure_text url res))
     end,
     snd (axios_post (MediaItem acct url tok) w0),
     t0 ++ [EvPost (MediaItem acct url tok) res]).
Proof.
  unfold Instagram.createContainer, Instagram.post, Instagram.delay,
    Eff.bind, Eff.try_catch, Eff.call, Eff.ret, Eff.throw.
  destruct (0 <? i)%nat; simpl;
    (destruct (axios_post _ _) as [[r|e] w1]; simpl;
     [destruct (response_id r); reflexivity | reflexivity]).
Qed.

(** The calls of a completed loop: one per URL, in order, each answered
    with the id that was pushed. *)
Lemma createContainers_ok (acct tok : string) (rest : list string) :
  forall (i : nat) (acc ids : list string) (w w' : World) (tr : list event),
    createContainers acct tok i rest acc w = (inl ids, w', tr) ->
    exists news,
      ids = acc ++ news /\ length news = length rest /\
      Forall (fun i => truthy i = true) news /\
      posts tr = accepted acct tok rest news /\ warnings tr = [].
Proof.
  unfold accepted.
  induction rest as [|url rest IH]; intros i acc ids w w' tr H.
  - injection H as <- <- <-. exists []. rewrite app_nil_r. auto.
  - simpl in H. unfold Eff.bind in H.
    pose proof (createContainer_run acct tok i url w) as Hrun. simpl in Hrun.
    rewrite Hrun in H. clear Hrun.
    destruct (fst (axios_post _ _)) as [r|e] eqn:Eres; [|discriminate].
    destruct (response_id r) as [cid|] eqn:Eid; [|discriminate].
    destruct (createContainers acct tok (S i) rest (acc ++ [cid]) _)
      as [[out w2] t2] eqn:Erest.
    injection H as -> <- <-.
    apply IH in Erest as (news & -> & Hlen & Hids & Hposts & Hwarn).
    apply response_id_Some in Eid as [-> Hcid].
    exists (cid :: news). rewrite <- app_assoc. split; [reflexivity|].
    split; [simpl; congruence|].
    split; [constructor; assumption|].
    rewrite !posts_app, !warnings_app, Hposts, Hwarn.
    destruct (0 <? i)%nat; split; reflexivity.
Qed.


(** The calls of a loop that throws: the images before the failing one
    were accepted in order, the failing call is the last one, and the error
    carries the 1-based number of the failing image. *)
Lemma createContainers_err (acct tok : string) (rest : list string) :
  forall (i : nat) (acc : list string) (e : Error) (w w' : World) (tr : list event),
    createContainers acct tok i rest acc w = (inr e, w', tr) ->
    exists (k : nat) (news : list string) (url : string) (res : outcome),
      rest !! k = Some url /\ length news = k /\
      Forall (fun i => truthy i = true) news /\
      posts tr = accepted acct tok (firstn k rest) news
                 ++ [(MediaItem acct url tok, res)] /\
      creation_failed res = true /\
      e = new_Error ("Failed to create container " ++ Number_toString (i + k + 1)
                     ++ ": " ++ failure_text url res) /\
      warnings tr = [].
Proof.
  unfold accepted.
  induction rest as [|url rest IH]; intros i acc e w w' tr H.
  - discriminate.
  - simpl in H. unfold Eff.bind in H.
    pose proof (createContainer_run acct tok i url w) as Hrun. simpl in Hrun.
    rewrite Hrun in H. clear Hrun.
    destruct (fst (axios_post _ _)) as [r|e0] eqn:Eres.
    + destruct (response_id r) as [cid|] eqn:Eid.
      * destruct (createContainers acct tok (S i) rest (acc ++ [cid]) _)
          as [[out w2] t2] eqn:Erest.
        injection H as -> <- <-.
        apply IH in Erest
          as (k & news & u & res & Hk & Hlen & Hids & Hposts & Hfail & -> & Hwarn).
        apply response_id_Some in Eid as [-> Hcid].
        exists (S k), (cid :: news), u, res.
        split; [exact Hk|]. split; [simpl; congruence|].
        split; [constructor; assumption|].
        split; [|split; [exact Hfail|split]].
        -- rewrite !posts_app, Hposts.
           destruct (0 <? i)%nat; reflexivity.
        -- replace (S i + k + 1) with (i + S k + 1) by lia. reflexivity.
        -- rewrite !warnings_app, Hwarn. destruct (0 <? i)%nat; reflexivity.
      * injection H as <- <- <-.
        exists 0, [], url, (inl r).
        split; [reflexivity|]. split; [reflexivity|]. split; [constructor|].
        split; [rewrite posts_app; destruct (0 <? i)%nat; reflexivity|].
        split; [simpl; rewrite Eid; reflexivity|].
        rewrite Nat.add_0_r. split; [reflexivity|].
        rewrite warnings_app. destruct (0 <? i)%nat; reflexivity.
    + injection H as <- <- <-.
      exists 0, [], url, (inr e0).
      split; [reflexivity|]. split; [reflexivity|]. split; [constructor|].
      split; [rewrite posts_app; destruct (0 <? i)%nat; reflexivity|].
      split; [reflexivity|].
      rewrite Nat.add_0_r. split; [reflexivity|].
      rewrite warnings_app. destruct (0 <? i)%nat; reflexivity.
Qed.

(** *** Phase 2 *)

Lemma createCarouselContainer_run (acct tok caption : string)
    (enhancedCaption : option string) (ids : list string) (w : World) :
  let req := MediaCarousel acct (join "," ids) (or_else enhancedCaption caption) tok in
  let res := fst (axios_post req w) in
  let w1 := snd (axios_post req w) in
  createCarouselContainer acct tok caption enhancedCaption ids w =
    match res with
    | inl r =>
        match response_id r with
        | Some cid => (inl cid, setTimeout 2000%float w1,
                       [EvPost req res; EvDelay 2000%float])
        | None =>
            (inr (new_Error ("Failed to create carousel container: "
                             ++ "Failed to create carousel container")),
             w1, [EvPost req res])
        end
    | inr e =>
        (inr (new_Error ("Failed to create carousel container: " ++ describe e)),
         w1, [EvPost req res])
    end.
Proof.
  unfold Instagram.createCarouselContainer, Instagram.post, Instagram.delay,
    Eff.bind, Eff.try_catch, Eff.call, Eff.ret, Eff.throw.
  simpl. destruct (axios_post _ _) as [[r|e] w1]; simpl;
    [destruct (response_id r); reflexivity | reflexivity].
Qed.

(** *** Phase 3 *)

(** One attempt, in closed form. *)
Lemma attemptPublish_rec_unfold (acct tok cid : string) (budget rc mr : nat)
    (d : float) (w : World) :
  let req := MediaPublish acct cid tok in
  let res := fst (axios_post req (setTimeout d w)) in
  let w1 := snd (axios_post req (setTimeout d w)) in
  attemptPublish_rec acct tok cid budget rc mr d w =
    match res with
    | inl r => (inl r, w1, [EvDelay d; EvPost req res])
    | inr e =>
        match budget with
        | S budget' =>
            if (rc <? mr)%nat && isUnknownError e
            then
              match attemptPublish_rec acct tok cid budget' (rc + 1) mr
                      (d * 1.5)%float w1 with
              | (out, w2, t2) => (out, w2, [EvDelay d; EvPost req res] ++ t2)
              end
            else (inr e, w1, [EvDelay d; EvPost req res])
        | O => (inr e, w1, [EvDelay d; EvPost req res])
        end
    end.
Proof.
  destruct budget; simpl;
    unfold Instagram.post, Instagram.delay, Eff.bind, Eff.try_catch, Eff.call, Eff.throw;
    simpl; destruct (axios_post _ _) as [[r|e] w1]; simpl; try reflexivity.
  destruct ((rc <? mr)%nat && isUnknownError e); [|reflexivity].
  destruct (Instagram.attemptPublish_rec _ _ _ _ _ _ _ _ _ _ _) as [[out w2] t2].
  reflexivity.
Qed.

(** The recursion of the source: with the budget [maxRetries - retryCount]
    the guard [retryCount < maxRetries] alone decides. *)
Lemma attemptPublish_unfold (acct tok cid : string) (rc mr : nat)
    (d : float) (w : World) :
  let req := MediaPublish acct cid tok in
  let res := fst (axios_post req (setTimeout d w)) in
  let w1 := snd (axios_post req (setTimeout d w)) in
  attemptPublish acct tok cid rc mr d w =
    match res with
    | inl r => (inl r, w1, [EvDelay d; EvPost req res])
    | inr e =>
        if (rc <? mr)%nat && isUnknownError e
        then
          match attemptPublish acct tok cid (rc + 1) mr (d * 1.5)%float w1 with
          | (out, w2, t2) => (out, w2, [EvDelay d; EvPost req res] ++ t2)
          end
        else (inr e, w1, [EvDelay d; EvPost req res])
    end.
Proof.
  unfold Instagram.attemptPublish.
  pose proof (attemptPublish_rec_unfold acct tok cid (mr - rc) rc mr d w) as H.
  simpl in H. rewrite H. clear H. simpl.
  destruct (fst (axios_post _ _)) as [r|e]; [reflexivity|].
  destruct (rc <? mr)%nat eqn:Elt.
  - apply Nat.ltb_lt in Elt.
    destruct (mr - rc) as [|b] eqn:Eb; [lia|].
    replace (mr - (rc + 1)) with b by lia. reflexivity.
  - simpl. destruct (mr - rc); reflexivity.
Qed.

(** Every run of [attemptPublish] is a sequence of attempts, each made of
    a delay and a call; all but the last failed with a transient error, and
    a final error is either not transient or met [retryCount = maxRetries]. *)
Lemma attemptPublish_spec (acct tok cid : string) :
  forall (n rc mr : nat) (d : float) (w w' : World) (out : outcome) (tr : list event),
    mr - rc = n ->
    attemptPublish acct tok cid rc mr d w = (out, w', tr) ->
    exists failures : list Error,
      tr = attempts (MediaPublish acct cid tok)
             (combine (backoff (S (length failures)) d) (map inr failures ++ [out])) /\
      length failures <= mr - rc /\
      Forall transient failures /\
      (forall e, out = inr e -> isUnknownError e = false \/ length failures = mr - rc).
Proof.
  induction n as [|n IH]; intros rc mr d w w' out tr Hn H;
    rewrite attemptPublish_unfold in H; simpl in H;
    destruct (fst (axios_post _ _)) as [r|e] eqn:Eres.
  - injection H as <- <- <-. exists []. simpl.
    repeat split; [lia|constructor|discriminate].
  - replace (rc <? mr)%nat with false in H by (symmetry; apply Nat.ltb_ge; lia).
    simpl in H. injection H as <- <- <-. exists []. simpl.
    repeat split; [lia|constructor|]. intros ? _. right. lia.
  - injection H as <- <- <-. exists []. simpl.
    repeat split; [lia|constructor|discriminate].
  - replace (rc <? mr)%nat with true in H by (symmetry; apply Nat.ltb_lt; lia).
    simpl in H. destruct (isUnknownError e) eqn:Ee.
    + destruct (Instagram.attemptPublish _ _ _ _ _ _ (rc + 1) _ _ _) as [[out2 w2] t2] eqn:E2.
      injection H as <- <- <-.
      apply IH in E2 as (failures & -> & Hlen & Htr & Hlast); [|lia].
      exists (e :: failures). simpl.
      repeat split; [lia|constructor; assumption|].
      intros e' He'. destruct (Hlast e' He') as [Hnt|Hfull]; [left; exact Hnt|right; lia].
    + injection H as <- <- <-. exists []. simpl.
      repeat split; [lia|constructor|]. intros e' [= <-]. left. exact Ee.
Qed.

Lemma publishCarousel_run (acct tok : string) (ids : list string) (cid : string)
    (w : World) :
  publishCarousel acct tok ids cid w =
    match attemptPublish acct tok cid 0 3 5000%float w with
    | (inl r, w', tr) =>
        (inl {| success := true; postId := optional_id r;
                containerIds := ids; carouselContainerId := cid |}, w', tr)
    | (inr e, w', tr) =>
        (inr (new_Error ("Failed to publish carousel after multiple attempts: "
                         ++ describe e)), w', tr)
    end.
Proof.
  unfold Instagram.publishCarousel, Eff.try_catch, Eff.bind, Eff.ret, Eff.throw.
  destruct (Instagram.attemptPublish _ _ _ _ _ _ _ _ _ _) as [[[r|e] w'] tr];
    rewrite app_nil_r; reflexivity.
Qed.

Lemma posts_attempts (req : request) (l : list (float * outcome)) :
  posts (attempts req l) = map (fun p => (req, snd p)) l.
Proof.
  induction l as [|[d res] l IH]; simpl; [reflexivity|]. rewrite <- IH. reflexivity.
Qed.

Lemma delays_attempts (req : request) (l : list (float * outcome)) :
  delays (attempts req l) = map fst l.
Proof.
  induction l as [|[d res] l IH]; simpl; [reflexivity|]. rewrite <- IH. reflexivity.
Qed.

Lemma used_nonempty (urls : list string) : urls <> [] -> used urls <> [].
Proof.
  unfold used, slice0. destruct urls as [|u urls]; [congruence|].
  intros _. destruct (10 <? _)%nat; discriminate.
Qed.

(** *** The whole run *)

Lemma try_catch_rethrow {A} (m : M World A) (w : World) :
  Eff.try_catch m (fun error => Eff.throw error) w = m w.
Proof.
  unfold Eff.try_catch, Eff.throw.
  destruct (m w) as [[[a|e] w1] t1]; rewrite ?app_nil_r; reflexivity.
Qed.

Lemma bind_ret_l {A B} (a : A) (k : A -> M World B) (w : World) :
  Eff.bind (Eff.ret a) k w = k a w.
Proof.
  unfold Eff.bind, Eff.ret. destruct (k a w) as [[r w2] t2]. reflexivity.
Qed.

Lemma bind_warn {A B} (msg : string) (a : A) (k : A -> M World B) (w : World) :
  Eff.bind (Eff.bind (console_warn World msg) (fun _ => Eff.ret a)) k w =
  (let '(r, w', tr) := k a w in (r, w', EvWarn msg :: tr)).
Proof.
  unfold Eff.bind, console_warn, Eff.ret. destruct (k a w) as [[r w2] t2]. reflexivity.
Qed.

Lemma warnings_attempts (req : request) (l : list (float * outcome)) :
  warnings (attempts req l) = [].
Proof. induction l as [|[d res] l IH]; simpl; [reflexivity|exact IH]. Qed.

Lemma posts_publish_attempts (acct tok cid : string) (results : list outcome)
    (d : float) :
  posts (attempts (MediaPublish acct cid tok)
           (combine (backoff (length results) d) results)) =
  published acct tok cid results.
Proof.
  rewrite posts_attempts. unfold published.
  revert d. induction results as [|res results IH]; intros d; simpl;
    [|rewrite IH]; reflexivity.
Qed.

(** The three phases over a non-empty list of URLs. *)
Lemma phases_ends (acct tok caption : string) (enhancedCaption : option string)
    (urls : list string) (w w' : World) (out : PublishResult + Error)
    (tr : list event) :
  urls <> [] ->
  (containerIds <- createContainers acct tok 0 urls [] ;;
   if (length containerIds =? 0)%nat
   then Eff.throw (new_Error "Failed to create any media containers")
   else
     carouselContainerId <-
       createCarouselContainer acct tok caption enhancedCaption containerIds ;;
     publishCarousel acct tok containerIds carouselContainerId) w = (out, w', tr) ->
  ends acct tok caption enhancedCaption urls out (posts tr) /\ warnings tr = [].
Proof.
  intros Hne H. unfold Eff.bind at 1 in H.
  destruct (Instagram.createContainers _ _ _ _ _ _ _ _ _) as [[[ids|e] w1] t1] eqn:E1.
  - apply createContainers_ok in E1 as (news & -> & Hlen & Hids & Hposts & Hwarn).
    change ([] ++ news) with news in H.
    replace (length news =? 0)%nat with false in H
      by (symmetry; apply Nat.eqb_neq; rewrite Hlen; destruct urls; [congruence|discriminate]).
    unfold Eff.bind in H.
    pose proof (createCarouselContainer_run acct tok caption enhancedCaption news w1)
      as Hrun. cbv zeta in Hrun. rewrite Hrun in H. clear Hrun.
    destruct (fst (axios_post _ w1)) as [r|e] eqn:Eres.
    + destruct (response_id r) as [cid|] eqn:Eid.
      * rewrite publishCarousel_run in H.
        destruct (Instagram.attemptPublish _ _ _ _ _ _ _ _ _ _) as [[res3 w3] t3] eqn:E3.
        apply (attemptPublish_spec _ _ _ 3) in E3
          as (failures & Ht3 & Hfl & Htrans & Hlast); [|reflexivity].
        apply response_id_Some in Eid as [Hr Hcid].
        replace (S (length failures)) with (length (map inr failures ++ [res3])) in Ht3
          by (rewrite length_app, length_map; simpl; lia).
        pose proof (f_equal posts Ht3) as Hp3. rewrite posts_publish_attempts in Hp3.
        pose proof (f_equal warnings Ht3) as Hw3. rewrite warnings_attempts in Hw3.
        clear Ht3.
        destruct res3 as [r3|e3]; injection H as <- <- <-;
          rewrite Hr, !posts_app, !warnings_app, Hposts, Hwarn;
          cbn [posts warnings app]; rewrite Hp3, Hw3; (split; [|reflexivity]).
        -- apply ends_published; assumption.
        -- apply ends_phase3; try assumption.
           destruct (Hlast e3 eq_refl) as [Hnt|Hfull]; [left|right]; assumption.
      * injection H as <- <- <-.
        rewrite !posts_app, !warnings_app, Hposts, Hwarn. simpl. split; [|reflexivity].
        apply (ends_phase2 acct tok caption enhancedCaption urls news (inl r));
          [assumption|assumption|simpl; rewrite Eid; reflexivity].
    + injection H as <- <- <-.
      rewrite !posts_app, !warnings_app, Hposts, Hwarn. simpl. split; [|reflexivity].
      apply (ends_phase2 acct tok caption enhancedCaption urls news (inr e));
        [assumption|assumption|reflexivity].
  - injection H as <- <- <-.
    apply createContainers_err in E1
      as (k & news & url & res & Hk & Hlen & Hids & -> & Hfail & -> & Hwarn).
    split; [|assumption].
    apply ends_phase1; assumption.
Qed.

(** With both credentials set and a non-empty list, the calls of a run and
    its result have one of the four shapes of [ends], over the URLs
    kept after truncation; the warning is logged exactly when the list is
    cut. *)
Lemma postToInstagram_ends (env : Env) (caption : string) (urls : list string)
    (enhancedCaption : option string) (acct tok : string)
    (w w' : World) (out : PublishResult + Error) (tr : list event) :
  FACEBOOK_ACCESS_TOKEN env = Some tok -> truthy tok = true ->
  INSTAGRAM_BUSINESS_ACCOUNT_ID env = Some acct -> truthy acct = true ->
  urls <> [] ->
  postToInstagram env caption urls enhancedCaption w = (out, w', tr) ->
  ends acct tok caption enhancedCaption (used urls) out (posts tr) /\
  warnings tr = truncation_warning urls.
Proof.
  intros Htok Htt Hacct Hta Hne H.
  pose proof (used_nonempty urls Hne) as Hused.
  unfold Instagram.postToInstagram in H. rewrite try_catch_rethrow in H.
  rewrite Htok, Hacct, Htt, Hta in H.
  change (negb true || negb true) with false in H. cbv iota in H.
  replace (length urls =? 0)%nat with false in H
    by (symmetry; apply Nat.eqb_neq; destruct urls; [congruence|discriminate]).
  unfold truncation_warning. unfold used in *.
  unfold Eff.bind at 1 in H.
  destruct (10 <? length urls)%nat.
  - unfold Eff.bind at 1 in H. unfold console_warn, Eff.ret in H.
    match type of H with
    | context [Eff.bind ?m ?k ?w0] => destruct (Eff.bind m k w0) as [[out1 w1] t1] eqn:E
    end.
    injection H as <- <- <-.
    apply phases_ends in E as [He Hw]; [|assumption].
    split; [exact He|]. simpl. rewrite Hw. reflexivity.
  - unfold Eff.ret in H.
    match type of H with
    | context [Eff.bind ?m ?k ?w0] => destruct (Eff.bind m k w0) as [[out1 w1] t1] eqn:E
    end.
    injection H as <- <- <-.
    apply phases_ends in E as [He Hw]; [|assumption].
    split; [exact He|]. exact Hw.
Qed.


Lemma used_short (urls : list string) : length urls <= 10 -> used urls = urls.
Proof.
  intros H. unfold used.
  replace (10 <? length urls)%nat with false by (symmetry; apply Nat.ltb_ge; lia).
  reflexivity.
Qed.

Lemma requests_accepted (acct tok : string) (urls : list string) :
  forall ids, length ids = length urls ->
    map fst (accepted acct tok urls ids) = map (fun u => MediaItem acct u tok) urls.
Proof.
  unfold accepted.
  induction urls as [|u urls IH]; intros [|i ids] Hlen; try discriminate; simpl;
    [reflexivity|].
  f_equal. apply IH. simpl in Hlen. lia.
Qed.

Lemma requests_published (acct tok cid : string) (results : list outcome) :
  map fst (published acct tok cid results) =
  repeat (MediaPublish acct cid tok) (length results).
Proof.
  unfold published. induction results as [|res results IH]; simpl;
    [|rewrite IH]; reflexivity.
Qed.

(** C1: with valid credentials and 1 to 10 URLs, a run that returns a result
    has made [n] phase-1 calls, one per URL in input order, then one phase-2
    call, then between 1 and [maxRetries + 1] phase-3 calls, and nothing
    else; the i-th phase-1 call was answered with the i-th collected id. *)
Theorem postToInstagram_phase_order
    (env : Env) (caption : string) (urls : list string)
    (enhancedCaption : option string) (acct tok : string)
    (w w' : World) (r : PublishResult) (tr : list event) :
  FACEBOOK_ACCESS_TOKEN env = Some tok -> truthy tok = true ->
  INSTAGRAM_BUSINESS_ACCOUNT_ID env = Some acct -> truthy acct = true ->
  1 <= length urls <= 10 ->
  postToInstagram env caption urls enhancedCaption w = (inl r, w', tr) ->
  exists (ids : list string) (cid : string) (results : list outcome),
    length ids = length urls /\
    1 <= length results <= 3 + 1 /\
    posts tr =
      accepted acct tok urls ids
      ++ [(carousel_request acct tok caption enhancedCaption ids, with_id cid)]
      ++ published acct tok cid results /\
    requests tr =
      map (fun u => MediaItem acct u tok) urls
      ++ [carousel_request acct tok caption enhancedCaption ids]
      ++ repeat (MediaPublish acct cid tok) (length results) /\
    containerIds r = ids.
Proof.
  intros Htok Htt Hacct Hta [Hlo Hhi] H.
  apply (postToInstagram_ends _ _ _ _ acct tok) in H as [He _]; try assumption;
    [|destruct urls; [simpl in Hlo; lia|discriminate]].
  rewrite used_short in He by assumption.
  inversion He as [| | |ids cid failures r3 Hlen Hids Hcid Hfl Htrans Hout Hposts].
  exists ids, cid, (map inr failures ++ [inl r3]).
  split; [assumption|].
  split; [rewrite length_app, length_map; simpl; lia|].
  split; [reflexivity|].
  split; [|reflexivity].
  unfold requests. rewrite <- Hposts, map_app.
  rewrite requests_accepted by assumption.
  cbn [app map fst]. rewrite requests_published. reflexivity.
Qed.

Lemma delays_publish_attempts (req : request) (results : list outcome) (d : float) :
  delays (attempts req (combine (backoff (length results) d) results)) =
  backoff (length results) d.
Proof.
  rewrite delays_attempts. revert d.
  induction results as [|res results IH]; intros d; simpl; [|rewrite IH]; reflexivity.
Qed.

(** The publish schedule: 5 s, then 1.5 times the previous delay. *)
Lemma publish_schedule :
  backoff 4 5000%float = [5000; 7500; 11250; 16875]%float.
Proof. reflexivity. Qed.

(** The code's test for a transient failure is the substring test: the
    platform's message when there is one, or else the error's message,
    contains 'unknown error'. *)
Lemma isUnknownError_iff (e : Error) :
  isUnknownError e = true <-> unknown_error_class e.
Proof.
  assert (Hinc : forall s, includes s "unknown error" = true <-> mentions_unknown_error s).
  { intros s. apply (includes_correct s "unknown error"). discriminate. }
  unfold isUnknownError, unknown_error_class. rewrite orb_true_iff, Hinc.
  destruct (response_error_message e) as [msg|].
  - rewrite Hinc. split; (intros [H|H]; [left|right; exact H]).
    + exists msg. split; [reflexivity|exact H].
    + destruct H as (msg' & [= <-] & H). exact H.
  - split; (intros [H|H]; [|right; exact H]); [discriminate|].
    destruct H as (msg' & Hmsg & _). discriminate.
Qed.

(** C3: phase 3 as called by [postToInstagram], [attemptPublish()].  Every
    attempt is a delay followed by the publish call, the first one included;
    an attempt is followed by another one only if it failed with a transient
    error, one whose message contains 'unknown error', at most 3 times, so
    at most 4 calls are made; each delay is 1.5 times the previous one and
    strictly larger; a first failure that is not transient ends the run
    after one call with that error; an error that ends the run is the error
    of the last call, and [postToInstagram] reports its text. *)
Theorem attemptPublish_retry_policy
    (acct tok cid : string) (ids : list string) (w w' : World)
    (out : outcome) (tr : list event) :
  attemptPublish acct tok cid 0 3 5000%float w = (out, w', tr) ->
  exists failures : list Error,
    tr = attempts (MediaPublish acct cid tok)
           (combine (backoff (S (length failures)) 5000%float)
                    (map inr failures ++ [out])) /\
    length failures <= 3 /\
    Forall unknown_error_class failures /\
    (forall e, out = inr e -> ~ unknown_error_class e \/ length failures = 3) /\
    (forall e, head (posts tr) = Some (MediaPublish acct cid tok, inr e) ->
               ~ unknown_error_class e ->
               out = inr e /\
               tr = [EvDelay 5000%float; EvPost (MediaPublish acct cid tok) (inr e)]) /\
    (forall e, isUnknownError e = true <-> unknown_error_class e) /\
    delays tr = firstn (S (length failures)) [5000; 7500; 11250; 16875]%float /\
    (forall i d1 d2, delays tr !! i = Some d1 -> delays tr !! S i = Some d2 ->
                     d2 = (d1 * 1.5)%float /\ PrimFloat.ltb d1 d2 = true) /\
    publishCarousel acct tok ids cid w =
      (match out with
       | inl r => inl {| success := true; postId := optional_id r;
                         containerIds := ids; carouselContainerId := cid |}
       | inr e => inr (new_Error ("Failed to publish carousel after multiple attempts: "
                                  ++ describe e))
       end, w', tr).
Proof.
  intros H.
  pose proof (publishCarousel_run acct tok ids cid w) as Hrun. rewrite H in Hrun.
  apply (attemptPublish_spec _ _ _ 3) in H
    as (failures & Htr & Hfl & Htrans & Hlast); [|reflexivity].
  change (3 - 0) with 3 in *.
  assert (Hd : delays tr = firstn (S (length failures)) [5000; 7500; 11250; 16875]%float).
  { rewrite Htr.
    replace (S (length failures)) with (length (map inr failures ++ [out])) at 1
      by (rewrite length_app, length_map; simpl; lia).
    rewrite delays_publish_attempts, length_app, length_map.
    destruct failures as [|e1 [|e2 [|e3 [|e4 ?]]]]; simpl in Hfl; try lia; reflexivity. }
  assert (Hclass : Forall unknown_error_class failures).
  { eapply Forall_impl; [exact Htrans|]. intros e He. apply isUnknownError_iff. exact He. }
  exists failures.
  split; [exact Htr|]. split; [exact Hfl|]. split; [exact Hclass|].
  split.
  { intros e He. destruct (Hlast e He) as [Hnt|Hfull]; [left|right; exact Hfull].
    intros Hc. apply isUnknownError_iff in Hc. congruence. }
  split; [|split; [exact isUnknownError_iff|split; [exact Hd|split]]].
  - intros e Hhead Hnt. rewrite Htr in Hhead |- *.
    destruct failures as [|e1 failures].
    + simpl in Hhead |- *. injection Hhead as ->. split; reflexivity.
    + simpl in Hhead. injection Hhead as ->.
      inversion Hclass as [|? ? He1 ?]. contradiction.
  - intros i d1 d2 H1 H2. rewrite Hd in H1, H2.
    destruct failures as [|e1 [|e2 [|e3 [|e4 ?]]]]; simpl in Hfl; try lia;
      destruct i as [|[|[|[|i]]]]; simpl in H1, H2; try discriminate;
      injection H1 as <-; injection H2 as <-; split; reflexivity.
  - destruct out; exact Hrun.
Qed.

Lemma length_accepted (acct tok : string) (urls ids : list string) :
  length (accepted acct tok urls ids) = Nat.min (length urls) (length ids).
Proof. unfold accepted. rewrite length_map. apply length_combine. Qed.

(** Accepted calls are phase-1 calls that did not fail. *)
Lemma accepted_elem (acct tok : string) (urls ids : list string)
    (req : request) (res : outcome) :
  Forall (fun i => truthy i = true) ids ->
  In (req, res) (accepted acct tok urls ids) ->
  phase req = 1 /\ creation_failed res = false /\
  exists u, In u urls /\ req = MediaItem acct u tok.
Proof.
  unfold accepted. intros Hids Hin.
  apply in_map_iff in Hin as ([u i] & [= <- <-] & Hin).
  pose proof (in_combine_r _ _ _ _ Hin) as Hi.
  pose proof (in_combine_l _ _ _ _ Hin) as Hu.
  rewrite Forall_forall in Hids.
  split; [reflexivity|]. split.
  - simpl. unfold response_id. simpl. rewrite (Hids i); [reflexivity|].
    apply list_elem_of_In. exact Hi.
  - exists u. split; [exact Hu|reflexivity].
Qed.

Lemma published_elem (acct tok cid : string) (results : list outcome)
    (req : request) (res : outcome) :
  In (req, res) (published acct tok cid results) -> req = MediaPublish acct cid tok.
Proof.
  unfold published. intros Hin.
  apply in_map_iff in Hin as (x & [= <- _] & _). reflexivity.
Qed.

Lemma postToInstagram_empty (env : Env) (caption : string)
    (enhancedCaption : option string) (acct tok : string) (w : World) :
  FACEBOOK_ACCESS_TOKEN env = Some tok -> truthy tok = true ->
  INSTAGRAM_BUSINESS_ACCOUNT_ID env = Some acct -> truthy acct = true ->
  postToInstagram env caption [] enhancedCaption w =
    (inr (new_Error "No media URLs provided for Instagram post"), w, []).
Proof.
  intros Htok Htt Hacct Hta.
  unfold Instagram.postToInstagram. rewrite try_catch_rethrow.
  rewrite Htok, Hacct, Htt, Hta. reflexivity.
Qed.

(** C4: if the phase-1 call for image [j + 1] fails (axios throws, or the
    response has no usable id), it is the last call of the run: no phase-2 or
    phase-3 request is made, and the run throws an error that names image
    [j + 1] and carries the platform's message when there is one. *)
Theorem container_failure_aborts
    (env : Env) (caption : string) (urls : list string)
    (enhancedCaption : option string) (acct tok : string)
    (w w' : World) (out : PublishResult + Error) (tr : list event)
    (j : nat) (req : request) (res : outcome) :
  FACEBOOK_ACCESS_TOKEN env = Some tok -> truthy tok = true ->
  INSTAGRAM_BUSINESS_ACCOUNT_ID env = Some acct -> truthy acct = true ->
  postToInstagram env caption urls enhancedCaption w = (out, w', tr) ->
  posts tr !! j = Some (req, res) ->
  phase req = 1 ->
  creation_failed res = true ->
  exists url,
    used urls !! j = Some url /\
    req = MediaItem acct url tok /\
    out = inr (new_Error ("Failed to create container " ++ Number_toString (j + 1)
                          ++ ": " ++ failure_text url res)) /\
    length (posts tr) = j + 1 /\
    Forall (fun q => phase q = 1) (requests tr) /\
    (forall e m, res = inr e -> response_error_message e = Some m -> truthy m = true ->
       out = inr (new_Error ("Failed to create container " ++ Number_toString (j + 1)
                             ++ ": " ++ m))).
Proof.
  intros Htok Htt Hacct Hta H Hj Hphase Hfail.
  destruct (decide (urls = [])) as [->|Hne].
  { rewrite (postToInstagram_empty _ _ _ acct tok) in H by assumption.
    injection H as <- <- <-. discriminate. }
  apply (postToInstagram_ends _ _ _ _ acct tok) in H as [He _]; try assumption.
  assert (Hacc : forall us ids, Forall (fun i => truthy i = true) ids ->
                   accepted acct tok us ids !! j = Some (req, res) -> False).
  { intros us ids Hids Hl.
    apply list_elem_of_lookup_2, list_elem_of_In in Hl.
    apply accepted_elem in Hl as (_ & Hok & _); [congruence|assumption]. }
  inversion He as
    [k ids url res1 Hk Hlen Hids Hfail1 Hout Hposts
    |ids res2 Hlen Hids Hfail2 Hout Hposts
    |ids cid failures e Hlen Hids Hcid Hfl Htrans Hlast Hout Hposts
    |ids cid failures r3 Hlen Hids Hcid Hfl Htrans Hout Hposts];
    rewrite <- Hposts in Hj; apply lookup_app_Some in Hj as [Hj|[Hge Hj]];
    try (exfalso; eapply Hacc; eassumption).
  - assert (Hk' : k < length (used urls)) by (eapply lookup_lt_Some; eassumption).
    rewrite length_accepted, length_firstn, Hlen in Hge, Hj.
    replace (Nat.min (Nat.min k (length (used urls))) k) with k in Hge, Hj by lia.
    destruct (j - k) as [|d] eqn:Ed; [|discriminate].
    assert (j = k) by lia. subst j. injection Hj as <- <-.
    exists url. split; [assumption|]. split; [reflexivity|]. split; [reflexivity|].
    split; [|split].
    + rewrite length_app, length_accepted, length_firstn, Hlen. simpl. lia.
    + unfold requests. rewrite <- Hposts, map_app. apply Forall_app. split.
      * apply Forall_forall. intros q Hq.
        apply list_elem_of_In, in_map_iff in Hq as ([q' o] & <- & Hin).
        apply accepted_elem in Hin as (Hp & _); assumption.
      * repeat constructor.
    + intros e m -> Hm Hmt. simpl. unfold describe, or_else. rewrite Hm, Hmt.
      reflexivity.
  - destruct (j - _) as [|d]; [|discriminate].
    injection Hj as <- <-. discriminate.
  - destruct (j - _) as [|d].
    + injection Hj as <- <-. discriminate.
    + simpl in Hj. apply list_elem_of_lookup_2, list_elem_of_In in Hj.
      apply published_elem in Hj. subst req. discriminate.
  - destruct (j - _) as [|d].
    + injection Hj as <- <-. discriminate.
    + simpl in Hj. apply list_elem_of_lookup_2, list_elem_of_In in Hj.
      apply published_elem in Hj. subst req. discriminate.
Qed.

(** Every image URL sent in a run is one of the URLs kept. *)
Lemma ends_image_urls (acct tok caption : string) (enhancedCaption : option string)
    (us : list string) (out : PublishResult + Error) (ps : list (request * outcome))
    (a u t : string) (res : outcome) :
  ends acct tok caption enhancedCaption us out ps ->
  In (MediaItem a u t, res) ps -> In u us.
Proof.
  intros He Hin.
  assert (Hacc : forall l ids, Forall (fun i => truthy i = true) ids ->
                   In (MediaItem a u t, res) (accepted acct tok l ids) -> In u l).
  { intros l ids Hids Hl. apply accepted_elem in Hl as (_ & _ & u' & Hu & [= _ -> _]);
      assumption. }
  inversion He as
    [k ids url res1 Hk Hlen Hids Hfail1 Hout Hposts
    |ids res2 Hlen Hids Hfail2 Hout Hposts
    |ids cid failures e Hlen Hids Hcid Hfl Htrans Hlast Hout Hposts
    |ids cid failures r3 Hlen Hids Hcid Hfl Htrans Hout Hposts];
    subst ps; apply in_app_or in Hin as [Hin|Hin].
  - apply Hacc in Hin; [|assumption].
    apply list_elem_of_In in Hin. apply list_elem_of_In.
    apply elem_of_take in Hin as (i & Hi & _).
    eapply list_elem_of_lookup_2; exact Hi.
  - destruct Hin as [[= _ <- _ _]|[]].
    apply list_elem_of_In. eapply list_elem_of_lookup_2; eassumption.
  - eapply Hacc; eassumption.
  - destruct Hin as [[=]|[]].
  - eapply Hacc; eassumption.
  - destruct Hin as [[=]|Hin]. apply published_elem in Hin. discriminate.
  - eapply Hacc; eassumption.
  - destruct Hin as [[=]|Hin]. apply published_elem in Hin. discriminate.
Qed.

(** C6: a list of more than 10 URLs is cut to its first 10, in order: the
    run is the run on [mediaUrls.slice(0, 10)] preceded by one warning, so
    the cut by itself never fails the run; every image URL sent sits at one
    of the first ten positions, and a URL that only occurs at position 11 or
    later is never sent. *)
Theorem postToInstagram_truncates
    (env : Env) (caption : string) (urls : list string)
    (enhancedCaption : option string) (acct tok : string) (w : World) :
  FACEBOOK_ACCESS_TOKEN env = Some tok -> truthy tok = true ->
  INSTAGRAM_BUSINESS_ACCOUNT_ID env = Some acct -> truthy acct = true ->
  10 < length urls ->
  postToInstagram env caption urls enhancedCaption w =
    (let '(out, w', tr) := postToInstagram env caption (slice0 10 urls) enhancedCaption w in
     (out, w',
      EvWarn ("Warning: Instagram only supports up to 10 images in a carousel. Truncating from "
              ++ Number_toString (length urls) ++ " to 10.") :: tr)) /\
  length (slice0 10 urls) = 10 /\
  forall out w' tr,
    postToInstagram env caption urls enhancedCaption w = (out, w', tr) ->
    warnings tr =
      [("Warning: Instagram only supports up to 10 images in a carousel. Truncating from "
        ++ Number_toString (length urls) ++ " to 10.")%string] /\
    (forall a u t res, In (MediaItem a u t, res) (posts tr) ->
       exists i, i < 10 /\ urls !! i = Some u) /\
    (NoDup urls ->
     forall j u, 10 <= j -> urls !! j = Some u ->
       forall a t res, ~ In (MediaItem a u t, res) (posts tr)).
Proof.
  intros Htok Htt Hacct Hta Hlen.
  assert (Hcut : length (slice0 10 urls) = 10)
    by (unfold slice0; rewrite length_firstn; lia).
  assert (Hne : urls <> []) by (destruct urls; [simpl in Hlen; lia|discriminate]).
  assert (Hitems : forall out w' tr,
            postToInstagram env caption urls enhancedCaption w = (out, w', tr) ->
            forall a u t res, In (MediaItem a u t, res) (posts tr) ->
              exists i, i < 10 /\ urls !! i = Some u).
  { intros out w' tr H a u t res Hin.
    apply (postToInstagram_ends _ _ _ _ acct tok) in H as [He _]; try assumption.
    eapply ends_image_urls in He; [|eassumption].
    unfold used, slice0 in He.
    replace (10 <? length urls)%nat with true in He by (symmetry; apply Nat.ltb_lt; lia).
    apply list_elem_of_In, list_elem_of_lookup in He as [i Hi].
    apply lookup_take_Some in Hi as [Hi Hlt]. exists i. split; assumption. }
  split; [|split; [exact Hcut|]].
  - unfold Instagram.postToInstagram. rewrite !try_catch_rethrow.
    rewrite Htok, Hacct, Htt, Hta.
    change (negb true || negb true) with false. cbv iota.
    rewrite Hcut.
    replace (length urls =? 0)%nat with false by (symmetry; apply Nat.eqb_neq; lia).
    replace (10 <? length urls)%nat with true by (symmetry; apply Nat.ltb_lt; lia).
    change (10 =? 0)%nat with false. change (10 <? 10)%nat with false. cbv iota.
    rewrite bind_warn, bind_ret_l. reflexivity.
  - intros out w' tr H. split; [|split].
    + apply (postToInstagram_ends _ _ _ _ acct tok) in H as [_ Hw]; try assumption.
      rewrite Hw. unfold truncation_warning.
      replace (10 <? length urls)%nat with true by (symmetry; apply Nat.ltb_lt; lia).
      reflexivity.
    + eapply Hitems; eassumption.
    + intros Hnd j u Hj Hu a t res Hin.
      destruct (Hitems _ _ _ H _ _ _ _ Hin) as (i & Hi & Hiu).
      pose proof (NoDup_lookup _ _ _ _ Hnd Hiu Hu). lia.
Qed.

(** C7: a phase-2 request of a run comes after the accepted phase-1 calls
    for all the URLs kept, and carries the comma-joined ids of their
    responses, in order, with the caption [enhancedCaption || caption]: the
    enhanced caption when one is provided, otherwise the plain caption
    (undefined and the empty string both count as not provided).  This is
    the claim as amended: read with an empty enhanced caption as provided,
    it fails. *)
Theorem carousel_request_contents
    (env : Env) (caption : string) (urls : list string)
    (enhancedCaption : option string) (acct tok : string)
    (w w' : World) (out : PublishResult + Error) (tr : list event)
    (req : request) (res : outcome) :
  FACEBOOK_ACCESS_TOKEN env = Some tok -> truthy tok = true ->
  INSTAGRAM_BUSINESS_ACCOUNT_ID env = Some acct -> truthy acct = true ->
  postToInstagram env caption urls enhancedCaption w = (out, w', tr) ->
  In (req, res) (posts tr) ->
  phase req = 2 ->
  exists (ids : list string) (effective : string),
    length ids = length (used urls) /\
    (exists rest, posts tr = accepted acct tok (used urls) ids ++ (req, res) :: rest) /\
    req = MediaCarousel acct (join "," ids) effective tok /\
    (forall e, enhancedCaption = Some e -> e <> "" -> effective = e) /\
    (enhancedCaption = None \/ enhancedCaption = Some "" -> effective = caption).
Proof.
  intros Htok Htt Hacct Hta H Hin Hphase.
  destruct (decide (urls = [])) as [->|Hne].
  { rewrite (postToInstagram_empty _ _ _ acct tok) in H by assumption.
    injection H as <- <- <-. destruct Hin. }
  apply (postToInstagram_ends _ _ _ _ acct tok) in H as [He _]; try assumption.
  assert (Hacc : forall us ids, Forall (fun i => truthy i = true) ids ->
                   In (req, res) (accepted acct tok us ids) -> False).
  { intros us ids Hids Hl.
    apply accepted_elem in Hl as (Hp & _); [congruence|assumption]. }
  assert (Hpub : forall cid results,
                   In (req, res) (published acct tok cid results) -> False).
  { intros cid results Hl. apply published_elem in Hl. subst req. discriminate. }
  assert (Hcap : (forall e, enhancedCaption = Some e -> e <> "" ->
                    or_else enhancedCaption caption = e) /\
                 (enhancedCaption = None \/ enhancedCaption = Some "" ->
                    or_else enhancedCaption caption = caption)).
  { split.
    - intros e -> Hnz. unfold or_else, truthy.
      destruct (String.eqb_spec e ""); [contradiction|reflexivity].
    - intros [->| ->]; reflexivity. }
  inversion He as
    [k ids url res1 Hk Hlen Hids Hfail1 Hout Hposts
    |ids res2 Hlen Hids Hfail2 Hout Hposts
    |ids cid failures e Hlen Hids Hcid Hfl Htrans Hlast Hout Hposts
    |ids cid failures r3 Hlen Hids Hcid Hfl Htrans Hout Hposts];
    rewrite <- Hposts in Hin; apply in_app_or in Hin as [Hin|Hin];
    try (exfalso; eapply Hacc; eassumption).
  - destruct Hin as [[= <- _]|[]]. discriminate.
  - destruct Hin as [[= <- <-]|[]].
    exists ids, (or_else enhancedCaption caption).
    split; [assumption|]. split; [exists []; reflexivity|].
    split; [reflexivity|exact Hcap].
  - destruct Hin as [[= <- <-]|Hin]; [|exfalso; eapply Hpub; eassumption].
    exists ids, (or_else enhancedCaption caption).
    split; [assumption|]. split; [eexists; reflexivity|].
    split; [reflexivity|exact Hcap].
  - destruct Hin as [[= <- <-]|Hin]; [|exfalso; eapply Hpub; eassumption].
    exists ids, (or_else enhancedCaption caption).
    split; [assumption|]. split; [eexists; reflexivity|].
    split; [reflexivity|exact Hcap].
Qed.

(** C8: over a non-empty list, a phase-1 loop that completes has collected
    as many container ids as there are URLs, at least one, so the guard
    [containerIds.length === 0] is false; and no run of [postToInstagram]
    whatsoever throws 'Failed to create any media containers'. *)
Theorem no_containers_branch_unreachable
    (acct tok : string) (urls : list string) (w w' : World)
    (ids : list string) (tr : list event) :
  (urls <> [] ->
   createContainers acct tok 0 urls [] w = (inl ids, w', tr) ->
   length ids = length urls /\ 1 <= length ids /\ (length ids =? 0)%nat = false)
  /\
  (forall env caption mediaUrls enhancedCaption w0,
     fst (fst (postToInstagram env caption mediaUrls enhancedCaption w0)) <>
     inr (new_Error "Failed to create any media containers")).
Proof.
  split.
  - intros Hne H.
    apply createContainers_ok in H as (news & -> & Hlen & _).
    simpl. assert (length urls <> 0) by (destruct urls; [congruence|discriminate]).
    split; [assumption|]. split; [lia|]. apply Nat.eqb_neq. lia.
  - intros env caption mediaUrls enhancedCaption w0.
    destruct (postToInstagram env caption mediaUrls enhancedCaption w0)
      as [[out w1] t1] eqn:H. simpl.
    destruct env as [[tok0|] [acct0|]];
      try (unfold Instagram.postToInstagram in H; rewrite try_catch_rethrow in H;
           simpl in H; injection H as <- _ _; discriminate).
    destruct (truthy tok0) eqn:Htt;
      [destruct (truthy acct0) eqn:Hta|];
      try (unfold Instagram.postToInstagram in H; rewrite try_catch_rethrow in H;
           cbn [FACEBOOK_ACCESS_TOKEN INSTAGRAM_BUSINESS_ACCOUNT_ID] in H;
           rewrite ?Htt, ?Hta in H; injection H as <- _ _; discriminate).
    destruct (decide (mediaUrls = [])) as [->|Hne].
    + rewrite (postToInstagram_empty _ _ _ acct0 tok0) in H by (assumption || reflexivity).
      injection H as <- _ _. discriminate.
    + apply (postToInstagram_ends _ _ _ _ acct0 tok0) in H as [He _];
        try (assumption || reflexivity).
      inversion He; discriminate.
Qed.

(** The record of a successful run, field by field: the ids are those of
    the phase-1 and phase-2 answers, and [postId] is whatever [id] the last
    publish answer carries, if any. *)
Lemma postToInstagram_result_fields
    (env : Env) (caption : string) (urls : list string)
    (enhancedCaption : option string) (acct tok : string)
    (w w' : World) (r : PublishResult) (tr : list event) :
  FACEBOOK_ACCESS_TOKEN env = Some tok -> truthy tok = true ->
  INSTAGRAM_BUSINESS_ACCOUNT_ID env = Some acct -> truthy acct = true ->
  postToInstagram env caption urls enhancedCaption w = (inl r, w', tr) ->
  exists (ids : list string) (cid : string) (failures : list Error)
         (final : AxiosResponse),
    posts tr =
      accepted acct tok (used urls) ids
      ++ [(carousel_request acct tok caption enhancedCaption ids, with_id cid)]
      ++ published acct tok cid (map inr failures ++ [inl final]) /\
    length ids = length (used urls) /\
    success r = true /\
    postId r = optional_id final /\
    containerIds r = ids /\
    carouselContainerId r = cid.
Proof.
  intros Htok Htt Hacct Hta H.
  destruct (decide (urls = [])) as [->|Hne].
  { rewrite (postToInstagram_empty _ _ _ acct tok) in H by assumption. discriminate. }
  apply (postToInstagram_ends _ _ _ _ acct tok) in H as [He _]; try assumption.
  inversion He as [| | |ids cid failures r3 Hlen Hids Hcid Hfl Htrans Hout Hposts].
  exists ids, cid, failures, r3. repeat split; assumption || reflexivity.
Qed.

(** C5: with a missing (undefined or empty) access token or account id the
    call throws the configuration error, and with both present and an empty
    URL list it throws the validation error; in both cases the trace is empty
    (no request, no delay) and the world is untouched. *)
Theorem postToInstagram_preconditions
    (env : Env) (caption : string) (mediaUrls : list string)
    (enhancedCaption : option string) (w : World) :
  (otruthy (FACEBOOK_ACCESS_TOKEN env) = false \/
   otruthy (INSTAGRAM_BUSINESS_ACCOUNT_ID env) = false ->
   postToInstagram env caption mediaUrls enhancedCaption w =
     (inr (new_Error "Missing Instagram credentials in environment variables"), w, []))
  /\
  (otruthy (FACEBOOK_ACCESS_TOKEN env) = true ->
   otruthy (INSTAGRAM_BUSINESS_ACCOUNT_ID env) = true ->
   mediaUrls = [] ->
   postToInstagram env caption mediaUrls enhancedCaption w =
     (inr (new_Error "No media URLs provided for Instagram post"), w, [])).
Proof.
  unfold Instagram.postToInstagram, Eff.try_catch, Eff.throw.
  destruct env as [[tok|] [acct|]]; simpl; split;
    try (intros [H|H]; try discriminate);
    try (intros H1 H2 ->; try discriminate);
    try reflexivity.
  - rewrite H; reflexivity.
  - rewrite H, orb_true_r; reflexivity.
  - rewrite H1, H2; reflexivity.
Qed.

End Proofs.

(** *** The properties on scripted runs *)

Local Abbreviation acct0 := "17841400000000000".

(** Three URLs, every call accepted: 3 + 1 + 1 requests. *)
Lemma postToInstagram_phase_order_witness :
  exists (ids : list string) (cid : string) (results : list outcome),
    length ids = length ["a"; "b"; "c"] /\
    1 <= length results <= 3 + 1 /\
    posts Mock.trace_roundtrip =
      accepted acct0 "token" ["a"; "b"; "c"] ids
      ++ [(carousel_request acct0 "token" "Test" (Some "Enhanced") ids, with_id cid)]
      ++ published acct0 "token" cid results /\
    requests Mock.trace_roundtrip =
      map (fun u => MediaItem acct0 u "token") ["a"; "b"; "c"]
      ++ [carousel_request acct0 "token" "Test" (Some "Enhanced") ids]
      ++ repeat (MediaPublish acct0 cid "token") (length results) /\
    containerIds (mkResult true (Some "post1") ["id1"; "id2"; "id3"] "cid") = ids.
Proof.
  apply (postToInstagram_phase_order Mock.World Mock.axios_post Mock.setTimeout
           Mock.env "Test" ["a"; "b"; "c"] (Some "Enhanced") acct0 "token"
           Mock.script_roundtrip []);
    try reflexivity.
  simpl. lia.
Defined.

(** C2 at a publish response without id: the three phases succeed and the
    record has [success = true] with [postId] undefined. *)
Theorem postToInstagram_success_without_postId :
  fst (fst (Mock.postToInstagram Mock.env "Test" ["a"; "b"; "c"] None Mock.script_no_id)) =
    inl {| success := true;
           postId := None;
           containerIds := ["id1"; "id2"; "id3"];
           carouselContainerId := "cid" |}
  /\
  posts (snd (Mock.postToInstagram Mock.env "Test" ["a"; "b"; "c"] None Mock.script_no_id)) =
    [(MediaItem acct0 "a" "token", with_id "id1");
     (MediaItem acct0 "b" "token", with_id "id2");
     (MediaItem acct0 "c" "token", with_id "id3");
     (MediaCarousel acct0 "id1,id2,id3" "Test" "token", with_id "cid");
     (MediaPublish acct0 "cid" "token", inl (mkResponse (Some (mkData None))))].
Proof. split; reflexivity. Qed.

(** Three transient failures, then success: four calls, after 5 s, 7.5 s,
    11.25 s and 16.875 s.  And a failure that is not transient: one call,
    although the next one would have succeeded. *)
Lemma attemptPublish_retry_policy_witness :
  (exists failures : list Error,
     length failures = 3 /\
     Forall unknown_error_class failures /\
     Mock.trace_retry =
       attempts (MediaPublish "acct" "cid" "tok")
         (combine [5000; 7500; 11250; 16875]%float
                  (map inr failures ++ [Mock.ok "post1"])) /\
     Instagram.publishCarousel Mock.World Mock.axios_post Mock.setTimeout
         "acct" "tok" ["id1"] "cid" Mock.script_retry =
       (inl {| success := true; postId := Some "post1";
               containerIds := ["id1"]; carouselContainerId := "cid" |},
        [], Mock.trace_retry)) /\
  ~ unknown_error_class
      (mkError "Request failed with status code 400" (Some "Media ID is not available")) /\
  MockScripts.trace_not_transient =
    [EvDelay 5000%float;
     EvPost (MediaPublish "acct" "cid" "tok") (Mock.rejects "Media ID is not available")].
Proof.
  split.
  - destruct (attemptPublish_retry_policy Mock.World Mock.axios_post Mock.setTimeout
                "acct" "tok" "cid" ["id1"] Mock.script_retry [] (Mock.ok "post1")
                Mock.trace_retry eq_refl)
      as (failures & Htr & Hfl & Hclass & _ & _ & _ & Hd & _ & Hpub).
    exists failures.
    assert (Hlen : length failures = 3).
    { apply (f_equal (@length float)) in Hd. rewrite length_firstn in Hd.
      simpl in Hd. lia. }
    split; [exact Hlen|]. split; [exact Hclass|]. split; [|exact Hpub].
    rewrite Hlen in Htr. exact Htr.
  - destruct (attemptPublish_retry_policy Mock.World Mock.axios_post Mock.setTimeout
                "acct" "tok" "cid" ["id1"] MockScripts.script_not_transient
                [Mock.ok "post1"] (Mock.rejects "Media ID is not available")
                MockScripts.trace_not_transient eq_refl)
      as (failures & _ & _ & _ & _ & Hfirst & Hiff & _).
    assert (Hnot : ~ unknown_error_class
                     (mkError "Request failed with status code 400"
                        (Some "Media ID is not available"))).
    { intros Hc. apply Hiff in Hc. discriminate. }
    split; [exact Hnot|].
    exact (proj2 (Hfirst _ eq_refl Hnot)).
Defined.

(** The second of three images is refused with a platform message. *)
Lemma container_failure_aborts_witness :
  exists url,
    used ["a"; "b"; "c"] !! 1 = Some url /\
    MediaItem acct0 "b" "token" = MediaItem acct0 url "token" /\
    @inr PublishResult Error
      (new_Error "Failed to create container 2: Only photo or video can be accepted as media type.") =
      inr (new_Error ("Failed to create container " ++ Number_toString (1 + 1) ++ ": "
                      ++ failure_text url
                           (Mock.rejects "Only photo or video can be accepted as media type."))) /\
    length (posts Mock.trace_second_refused) = 1 + 1 /\
    Forall (fun q => phase q = 1) (requests Mock.trace_second_refused) /\
    (forall e m,
       Mock.rejects "Only photo or video can be accepted as media type." = inr e ->
       response_error_message e = Some m -> truthy m = true ->
       @inr PublishResult Error
         (new_Error "Failed to create container 2: Only photo or video can be accepted as media type.") =
       inr (new_Error ("Failed to create container " ++ Number_toString (1 + 1) ++ ": " ++ m))).
Proof.
  apply (container_failure_aborts Mock.World Mock.axios_post Mock.setTimeout
           Mock.env "Test" ["a"; "b"; "c"] None acct0 "token"
           Mock.script_second_refused []
           (inr (new_Error "Failed to create container 2: Only photo or video can be accepted as media type."))
           Mock.trace_second_refused 1 (MediaItem acct0 "b" "token")
           (Mock.rejects "Only photo or video can be accepted as media type."));
    reflexivity.
Defined.

(** Twelve distinct URLs: "u11" and "u12" are never sent. *)
Lemma postToInstagram_truncates_witness :
  length (slice0 10 Mock.twelve) = 10 /\
  warnings Mock.trace_twelve =
    ["Warning: Instagram only supports up to 10 images in a carousel. Truncating from 12 to 10."] /\
  (forall a t res, ~ In (MediaItem a "u11" t, res) (posts Mock.trace_twelve)) /\
  (forall a t res, ~ In (MediaItem a "u12" t, res) (posts Mock.trace_twelve)).
Proof.
  pose proof (postToInstagram_truncates Mock.World Mock.axios_post Mock.setTimeout
                Mock.env "Test" Mock.twelve None acct0 "token" Mock.script_ten
                eq_refl eq_refl eq_refl eq_refl) as H.
  destruct H as (_ & Hcut & H); [simpl; lia|].
  destruct (H _ _ _ eq_refl) as (Hwarn & _ & Hnot).
  assert (Hnd : NoDup Mock.twelve) by (apply (bool_decide_unpack _); reflexivity).
  split; [exact Hcut|]. split; [exact Hwarn|].
  split; intros a t res.
  - apply (Hnot Hnd 10 "u11"); [lia|reflexivity].
  - apply (Hnot Hnd 11 "u12"); [lia|reflexivity].
Defined.

(** The scripted round trip with an enhanced caption. *)
Lemma carousel_request_contents_witness :
  exists (ids : list string) (effective : string),
    length ids = length (used ["a"; "b"; "c"]) /\
    (exists rest,
       posts Mock.trace_roundtrip =
         accepted acct0 "token" (used ["a"; "b"; "c"]) ids
         ++ (MediaCarousel acct0 "id1,id2,id3" "Enhanced" "token", with_id "cid") :: rest) /\
    MediaCarousel acct0 "id1,id2,id3" "Enhanced" "token" =
      MediaCarousel acct0 (join "," ids) effective "token" /\
    (forall e, Some "Enhanced" = Some e -> e <> "" -> effective = e) /\
    (Some "Enhanced" = None \/ Some "Enhanced" = Some "" -> effective = "Test").
Proof.
  apply (carousel_request_contents Mock.World Mock.axios_post Mock.setTimeout
           Mock.env "Test" ["a"; "b"; "c"] (Some "Enhanced") acct0 "token"
           Mock.script_roundtrip []
           (inl (mkResult true (Some "post1") ["id1"; "id2"; "id3"] "cid"))
           Mock.trace_roundtrip
           (MediaCarousel acct0 "id1,id2,id3" "Enhanced" "token") (with_id "cid"));
    try reflexivity.
  simpl. tauto.
Defined.

(** C7 as worded, with the enhanced caption attached whenever one is
    provided, fails for an enhanced caption that is the empty string: the
    scripted round trip called with caption 'Test' and enhanced caption ''
    sends 'Test'. *)
Lemma carousel_request_contents_counterexample :
  ~ (forall (caption e : string) (urls : list string) (w : Mock.World)
       (acct children effective tok : string) (res : outcome),
       In (MediaCarousel acct children effective tok, res)
          (posts (snd (Mock.postToInstagram Mock.env caption urls (Some e) w))) ->
       effective = e).
Proof.
  intros H.
  assert (Habs : "Test" = "").
  { apply (H "Test" "" ["a"; "b"; "c"] Mock.script_roundtrip
             acct0 "id1,id2,id3" "Test" "token" (with_id "cid")).
    simpl. tauto. }
  discriminate Habs.
Qed.

(** A completed loop over three URLs. *)
Lemma no_containers_branch_unreachable_witness :
  length ["id1"; "id2"; "id3"] = length ["a"; "b"; "c"] /\
  1 <= length ["id1"; "id2"; "id3"] /\
  (length ["id1"; "id2"; "id3"] =? 0)%nat = false.
Proof.
  apply (proj1 (no_containers_branch_unreachable Mock.World Mock.axios_post
                  Mock.setTimeout "acct" "tok" ["a"; "b"; "c"]
                  Mock.script_roundtrip [Mock.ok "cid"; Mock.ok "post1"]
                  ["id1"; "id2"; "id3"]
                  (snd (Mock.createContainers "acct" "tok" 0 ["a"; "b"; "c"] []
                          Mock.script_roundtrip)))).
  - discriminate.
  - reflexivity.
Defined.

(** Missing token, then an empty list, against the scripted platform. *)
Lemma postToInstagram_preconditions_witness :
  Mock.postToInstagram (mkEnv None (Some "1784")) "Test" ["a"] None [Mock.ok "id1"] =
    (inr (new_Error "Missing Instagram credentials in environment variables"),
     [Mock.ok "id1"], [])
  /\
  Mock.postToInstagram Mock.env "Test" [] None [Mock.ok "id1"] =
    (inr (new_Error "No media URLs provided for Instagram post"), [Mock.ok "id1"], []).
Proof.
  split.
  - apply (proj1 (postToInstagram_preconditions Mock.World Mock.axios_post Mock.setTimeout
                    (mkEnv None (Some "1784")) "Test" ["a"] None [Mock.ok "id1"])).
    left; reflexivity.
  - apply (proj2 (postToInstagram_preconditions Mock.World Mock.axios_post Mock.setTimeout
                    Mock.env "Test" [] None [Mock.ok "id1"])); reflexivity.
Defined.

End InstagramSpec.

(** ** Properties of [ContentService.markPostAsPublished] *)
Module ContentSpec.
Import Content.

Section Proofs.

Variable World : Type.
Variable Date_toISOString_io : World -> string * World.
Variable writeFileSync_io : string -> string -> World -> bool * World.
Variable JSON_stringify : ContentSchedule -> string.

Local Abbreviation markPostAsPublished :=
  (markPostAsPublished World Date_toISOString_io writeFileSync_io JSON_stringify).

Lemma findIndex_None (postId : string) (l : list ScheduledPost) :
  Forall (fun post => id post <> postId) l -> findIndex postId l = None.
Proof.
  intros H. unfold findIndex.
  rewrite (proj2 (list_find_None (fun post => id post = postId) l) H). reflexivity.
Qed.

Lemma findIndex_Some (postId : string) (l : list ScheduledPost) (i : nat)
    (post : ScheduledPost) :
  l !! i = Some post -> id post = postId ->
  (forall j p, l !! j = Some p -> j < i -> id p <> postId) ->
  findIndex postId l = Some i.
Proof.
  intros Hi Hid Hfirst. unfold findIndex.
  rewrite (proj2 (list_find_Some (fun post => id post = postId) l i post));
    [reflexivity|].
  split; [assumption|]. split; assumption.
Qed.

(** C10: on a loaded schedule, an id that matches no post gives [false],
    leaves the service and the disk as they were and writes nothing; an id
    that matches gives [true] and sets the status of the first matching post
    to 'published', every other field of that post and every other post
    staying as they were. *)
Theorem markPostAsPublished_effect
    (path : string) (cs : ContentSchedule) (postId : string) (w : World) :
  (Forall (fun post => id post <> postId) (schedule cs) ->
   markPostAsPublished postId (mkService path (Some cs)) w =
     (false, mkService path (Some cs), w, []))
  /\
  (forall i post,
     schedule cs !! i = Some post -> id post = postId ->
     (forall j p, schedule cs !! j = Some p -> j < i -> id p <> postId) ->
     exists cs' w' t,
       markPostAsPublished postId (mkService path (Some cs)) w =
         (true, mkService path (Some cs'), w', t) /\
       length (schedule cs') = length (schedule cs) /\
       (exists post',
          schedule cs' !! i = Some post' /\
          status post' = "published" /\
          id post' = id post /\ date post' = date post /\ time post' = time post /\
          type post' = type post /\ category post' = category post /\
          content post' = content post) /\
       (forall j, j <> i -> schedule cs' !! j = schedule cs !! j)).
Proof.
  split.
  - intros Hnone. unfold Content.markPostAsPublished. simpl.
    rewrite findIndex_None by assumption. reflexivity.
  - intros i post Hi Hid Hfirst.
    unfold Content.markPostAsPublished, saveContentSchedule. simpl.
    rewrite (findIndex_Some postId _ i post) by assumption.
    destruct (Date_toISOString_io w) as [now w1].
    destruct (writeFileSync_io _ _ w1) as [returned w2].
    eexists _, _, _. split; [reflexivity|]. simpl.
    split; [apply length_alter|]. split.
    + exists (set_status "published" post).
      rewrite list_lookup_alter_eq, Hi. simpl. repeat split; reflexivity.
    + intros j Hj. apply list_lookup_alter_ne. congruence.
Qed.

End Proofs.

(** An unknown id, then "p2", on a three-post week. *)
Lemma markPostAsPublished_effect_witness :
  MockContent.markPostAsPublished "p9" MockContent.service [] =
    (false, MockContent.service, [], [])
  /\
  exists cs' w' t,
    MockContent.markPostAsPublished "p2" MockContent.service [] =
      (true, mkService "content-schedule.json" (Some cs'), w', t) /\
    length (schedule cs') = length (schedule MockContent.week) /\
    (exists post',
       schedule cs' !! 1 = Some post' /\
       status post' = "published" /\
       id post' = "p2" /\ date post' = "2025-05-20" /\ time post' = "17:00:00" /\
       type post' = "carousel" /\ category post' = "myths" /\
       content post' = content (MockContent.post "p2" "17:00:00")) /\
    (forall j, j <> 1 -> schedule cs' !! j = schedule MockContent.week !! j).
Proof.
  split.
  - apply (proj1 (markPostAsPublished_effect MockContent.World
                    MockContent.Date_toISOString_io MockContent.writeFileSync_io
                    MockContent.JSON_stringify "content-schedule.json"
                    MockContent.week "p9" [])).
    repeat constructor; discriminate.
  - apply (proj2 (markPostAsPublished_effect MockContent.World
                    MockContent.Date_toISOString_io MockContent.writeFileSync_io
                    MockContent.JSON_stringify "content-schedule.json"
                    MockContent.week "p2" []) 1 (MockContent.post "p2" "17:00:00"));
      [reflexivity|reflexivity|].
    intros [|[|j]] p Hp Hj; [|lia|lia].
    injection Hp as <-. discriminate.
Defined.

End ContentSpec.

(** ** Properties of [createCarousel] *)
Module CarouselSpec.
Import JS Carousel CarouselTrace.

(** *** Inversion of successful computations *)
Section EffFacts.

Context {World Err Ev : Type}.

Lemma bind_inl {A B} (m : Eff.M World Err Ev A) (k : A -> Eff.M World Err Ev B)
    (w w' : World) (b : B) (tr : list Ev) :
  Eff.bind m k w = (inl b, w', tr) ->
  exists a w1 t1 t2,
    m w = (inl a, w1, t1) /\ k a w1 = (inl b, w', t2) /\ tr = t1 ++ t2.
Proof.
  unfold Eff.bind. destruct (m w) as [[[a|e] w1] t1]; [|discriminate].
  destruct (k a w1) as [[r w2] t2] eqn:Ek. intros [= -> <- <-].
  exists a, w1, t1, t2. auto.
Qed.

Lemma try_catch_throw_inl {A} (m : Eff.M World Err Ev A) (f : Err -> Err)
    (w w' : World) (a : A) (tr : list Ev) :
  Eff.try_catch m (fun e => Eff.throw (f e)) w = (inl a, w', tr) ->
  m w = (inl a, w', tr).
Proof.
  unfold Eff.try_catch, Eff.throw. destruct (m w) as [[[a0|e] w1] t1]; [auto|discriminate].
Qed.

Lemma call_inl {A} (op : World -> (A + Err) * World) (log : A + Err -> Ev)
    (w w' : World) (a : A) (tr : list Ev) :
  Eff.call op log w = (inl a, w', tr) -> op w = (inl a, w') /\ tr = [log (inl a)].
Proof.
  unfold Eff.call. destruct (op w) as [r w1]. intros [= -> <- <-]. auto.
Qed.

Lemma peek_inl {A} (op : World -> A * World) (w w' : World) (a : A) (tr : list Ev) :
  @Eff.peek World Err Ev A op w = (inl a, w', tr) -> tr = [].
Proof.
  unfold Eff.peek. destruct (op w) as [a0 w1]. intros [= _ _ <-]. reflexivity.
Qed.

End EffFacts.

Lemma length_numbered (total : nat) (slides : list string) :
  forall i, length (numbered total i slides) = length slides.
Proof. induction slides as [|c slides IH]; intros i; simpl; [|rewrite IH]; reflexivity. Qed.

Section Proofs.

Variable World : Type.
Variable ensureDirectoryExists_io : string -> World -> (unit + thrown) * World.
Variable draw_io : slide -> string -> World -> (unit + thrown) * World.
Variable cloudinary_upload_io : string -> World -> (string + thrown) * World.
Variable copyFileSync_io : string -> string -> World -> (unit + thrown) * World.
Variable cleanupTempFiles_io : string -> World -> World.
Variable Date_now_io : World -> nat * World.
Variable path_join : string -> string -> string.
Variable path_basename : string -> string.
Variable dirname : string.
Variable env : Env.

Local Abbreviation createCarousel :=
  (createCarousel World ensureDirectoryExists_io draw_io cloudinary_upload_io
     copyFileSync_io cleanupTempFiles_io Date_now_io path_join path_basename dirname env).
Local Abbreviation contentSlides :=
  (contentSlides World ensureDirectoryExists_io draw_io cloudinary_upload_io
     copyFileSync_io Date_now_io path_join path_basename dirname env).
Local Abbreviation stored_all :=
  (stored_all World ensureDirectoryExists_io cloudinary_upload_io copyFileSync_io
     path_join path_basename dirname env).

Lemma stored_all_length (ss : list slide) (urls : list string) (tr : list event) :
  stored_all ss urls tr -> length urls = length ss.
Proof. induction 1; simpl; [|rewrite IHstored_all]; reflexivity. Qed.

Lemma stored_all_app (ss1 ss2 : list slide) (us1 us2 : list string)
    (t1 t2 : list event) :
  stored_all ss1 us1 t1 -> stored_all ss2 us2 t2 ->
  stored_all (ss1 ++ ss2) (us1 ++ us2) (t1 ++ t2).
Proof.
  induction 1 as [|s ss outputPath url urls w w' t tr Hup Hrest IH]; intros H2;
    [exact H2|].
  simpl. rewrite <- app_assoc. econstructor; [exact Hup|]. apply IH, H2.
Qed.

(** A slide that was drawn and whose upload returned. *)
Lemma stored_one (s : slide) (outputPath url : string) (w0 w1 w2 w3 : World)
    (t1 t2 : list event) :
  Eff.call (draw_io s outputPath) (EvRender s outputPath) w0 = (inl tt, w1, t1) ->
  uploadToCloudinaryOrLocal World ensureDirectoryExists_io cloudinary_upload_io
    copyFileSync_io path_join path_basename dirname env outputPath w2
    = (inl url, w3, t2) ->
  stored_all [s] [url] (t1 ++ t2).
Proof.
  intros Hdraw Hup. apply call_inl in Hdraw as [_ ->].
  simpl. rewrite <- (app_nil_r t2). econstructor; [exact Hup|constructor].
Qed.

(** The loop over the content slides pushes one URL per slide, in order. *)
Lemma contentSlides_stored (tempDir : string) (total : nat) (rest : list string) :
  forall (i : nat) (acc urls : list string) (w w' : World) (tr : list event),
    contentSlides tempDir total i rest acc w = (inl urls, w', tr) ->
    exists news, urls = acc ++ news /\ stored_all (numbered total i rest) news tr.
Proof.
  induction rest as [|content rest IH]; intros i acc urls w w' tr H.
  - injection H as <- <- <-. exists []. rewrite app_nil_r. split; [reflexivity|constructor].
  - simpl in H.
    apply bind_inl in H as (now & w1 & t1 & t2 & Hnow & H & ->).
    apply peek_inl in Hnow as ->.
    apply bind_inl in H as ([] & w2 & t3 & t4 & Hdraw & H & ->).
    apply bind_inl in H as (url & w3 & t5 & t6 & Hup & H & ->).
    apply IH in H as (news & -> & Hrest).
    exists (url :: news). rewrite <- app_assoc. split; [reflexivity|].
    simpl. rewrite app_assoc.
    apply (stored_all_app [_] _ [_] _); [|exact Hrest].
    eapply stored_one; eassumption.
Qed.

(** C9: a run of [createCarousel] that returns has drawn and uploaded, in
    this order, the cover, every content slide in input order (numbered
    from 1) and the call to action, and returns the URLs of these uploads in
    the same order: [slides.length + 2] URLs, the cover's first and the call
    to action's last. *)
Theorem createCarousel_order
    (title : string) (slides : list string) (cta : option string)
    (w w' : World) (urls : list string) (tr : list event) :
  createCarousel title slides cta w = (inl urls, w', tr) ->
  length urls = length slides + 2 /\
  (exists cover inner last,
     urls = cover :: inner ++ [last] /\ length inner = length slides) /\
  (exists body tail,
     tr = EvEnsureDir (path_join dirname "../../temp") (inl tt) :: body ++ tail /\
     stored_all
       (deck title slides (match cta with Some c => c | None => default_cta end))
       urls body /\
     (tail = [] \/ tail = [EvCleanup (path_join dirname "../../temp")])).
Proof.
  intros H. unfold Carousel.createCarousel in H.
  apply try_catch_throw_inl in H.
  apply bind_inl in H as ([] & w1 & t1 & t2 & Hdir & H & ->).
  apply call_inl in Hdir as [_ ->].
  apply bind_inl in H as (now0 & w2 & t3 & t4 & Hnow0 & H & ->).
  apply peek_inl in Hnow0 as ->.
  apply bind_inl in H as ([] & w3 & t5 & t6 & Hcover & H & ->).
  apply bind_inl in H as (cover & w4 & t7 & t8 & Hupc & H & ->).
  apply bind_inl in H as (urls1 & w5 & t9 & t10 & Hloop & H & ->).
  apply contentSlides_stored in Hloop as (inner & -> & Hinner).
  apply bind_inl in H as (now1 & w6 & t11 & t12 & Hnow1 & H & ->).
  apply peek_inl in Hnow1 as ->.
  apply bind_inl in H as ([] & w7 & t13 & t14 & Hcta & H & ->).
  apply bind_inl in H as (last & w8 & t15 & t16 & Hupl & H & ->).
  apply bind_inl in H as ([] & w9 & t17 & t18 & Hclean & H & ->).
  injection H as <- <- <-.
  pose proof (stored_all_length _ _ _ Hinner) as Hlen.
  rewrite length_numbered in Hlen.
  split; [|split].
  - simpl. rewrite length_app. simpl. lia.
  - exists cover, inner, last. split; [reflexivity|exact Hlen].
  - exists ((t5 ++ t7) ++ t9 ++ (t13 ++ t15)), t17.
    split; [|split].
    + simpl. rewrite app_nil_r, <- !app_assoc. reflexivity.
    + unfold deck.
      apply (stored_all_app [_] _ [_] _); [eapply stored_one; eassumption|].
      apply stored_all_app; [exact Hinner|].
      eapply stored_one; eassumption.
    + destruct (strict_eq (NODE_ENV env) "development").
      * unfold Eff.ret in Hclean. inversion Hclean. left. reflexivity.
      * unfold cleanupTempFiles in Hclean. inversion Hclean. right. reflexivity.
Qed.

End Proofs.

(** A two-slide carousel on the test doubles: four URLs, cover first. *)
Lemma createCarousel_order_witness :
  length MockCarousel.demo_urls = length ["s1"; "s2"] + 2 /\
  (exists cover inner last,
     MockCarousel.demo_urls = cover :: inner ++ [last] /\
     length inner = length ["s1"; "s2"]) /\
  (exists body tail,
     MockCarousel.demo_trace =
       EvEnsureDir (MockCarousel.path_join "src" "../../temp") (inl tt) :: body ++ tail /\
     stored_all MockCarousel.World MockCarousel.ensureDirectoryExists_io
       MockCarousel.cloudinary_upload_io MockCarousel.copyFileSync_io
       MockCarousel.path_join MockCarousel.path_basename "src" MockCarousel.env
       (deck "Title" ["s1"; "s2"] "Go") MockCarousel.demo_urls body /\
     (tail = [] \/ tail = [EvCleanup (MockCarousel.path_join "src" "../../temp")])).
Proof.
  apply (createCarousel_order MockCarousel.World MockCarousel.ensureDirectoryExists_io
           MockCarousel.draw_io MockCarousel.cloudinary_upload_io
           MockCarousel.copyFileSync_io MockCarousel.cleanupTempFiles_io
           MockCarousel.Date_now_io MockCarousel.path_join MockCarousel.path_basename
           "src" MockCarousel.env "Title" ["s1"; "s2"] (Some "Go") 0 4).
  reflexivity.
Defined.

End CarouselSpec.

(** ** Further properties of [postToInstagram] *)
Module InstagramExtras.
Import JS Instagram InstagramTrace InstagramRequests InstagramReadings InstagramSpec.

Lemma image_urls_app (l1 l2 : list request) :
  image_urls (l1 ++ l2) = image_urls l1 ++ image_urls l2.
Proof. unfold image_urls. apply flat_map_app. Qed.

Lemma image_urls_items (acct tok : string) (us : list string) :
  image_urls (map (fun u => MediaItem acct u tok) us) = us.
Proof. induction us as [|u us IH]; simpl; [|rewrite IH]; reflexivity. Qed.

Lemma image_urls_published (acct tok cid : string) (results : list outcome) :
  image_urls (map fst (published acct tok cid results)) = [].
Proof. induction results as [|r results IH]; simpl; [reflexivity|exact IH]. Qed.

Lemma length_used (urls : list string) : length (used urls) <= 10.
Proof.
  unfold used, slice0. destruct (10 <? length urls)%nat eqn:E.
  - rewrite length_firstn. lia.
  - apply Nat.ltb_ge in E. exact E.
Qed.

Lemma used_prefix (urls : list string) : used urls `prefix_of` urls.
Proof.
  unfold used, slice0. destruct (10 <? length urls)%nat.
  - apply prefix_take.
  - reflexivity.
Qed.

Lemma phase_accepted (acct tok : string) (us ids : list string) :
  length ids = length us ->
  map phase (map fst (accepted acct tok us ids)) = repeat 1 (length us).
Proof.
  intros H. rewrite requests_accepted by assumption. rewrite map_map. simpl.
  clear H. induction us as [|u us IH]; simpl; [|rewrite IH]; reflexivity.
Qed.

Lemma phase_published (acct tok cid : string) (results : list outcome) :
  map phase (map fst (published acct tok cid results)) = repeat 3 (length results).
Proof. rewrite requests_published. induction (length results); simpl; congruence. Qed.

Lemma delays_app_more (t1 t2 : list event) :
  delays (t1 ++ t2) = delays t1 ++ delays t2.
Proof.
  induction t1 as [|[msg|ms|req res] t1 IH]; simpl; rewrite ?IH; reflexivity.
Qed.

Lemma credentials_accepted (acct tok : string) (us ids : list string) :
  Forall (fun req => account req = acct /\ token req = tok)
         (map fst (accepted acct tok us ids)).
Proof.
  unfold accepted. rewrite map_map. simpl. apply Forall_forall. intros req Hin.
  apply list_elem_of_In, in_map_iff in Hin as (p & <- & _). split; reflexivity.
Qed.

Lemma credentials_published (acct tok cid : string) (results : list outcome) :
  Forall (fun req => account req = acct /\ token req = tok)
         (map fst (published acct tok cid results)).
Proof.
  rewrite requests_published. apply Forall_forall. intros req Hin.
  apply list_elem_of_In, repeat_spec in Hin. subst req. split; reflexivity.
Qed.

(** The phases of a run never interleave, and their sizes are bounded. *)
Lemma ends_discipline (acct tok caption : string) (enhancedCaption : option string)
    (us : list string) (out : PublishResult + Error) (ps : list (request * outcome)) :
  ends acct tok caption enhancedCaption us out ps ->
  exists a b c,
    map phase (map fst ps) = repeat 1 a ++ repeat 2 b ++ repeat 3 c /\
    a <= length us /\ b <= 1 /\ c <= 3 + 1 /\
    (b = 0 -> c = 0) /\ (b = 1 -> a = length us) /\
    length ps = a + b + c /\
    Forall (fun req => account req = acct /\ token req = tok) (map fst ps).
Proof.
  intros He.
  inversion He as
    [k ids url res1 Hk Hlen Hids Hfail1 Hout Hposts
    |ids res2 Hlen Hids Hfail2 Hout Hposts
    |ids cid failures e Hlen Hids Hcid Hfl Htrans Hlast Hout Hposts
    |ids cid failures r3 Hlen Hids Hcid Hfl Htrans Hout Hposts].
  - assert (Hk' : k < length us) by (eapply lookup_lt_Some; eassumption).
    assert (Hlen' : length ids = length (firstn k us)) by (rewrite length_firstn; lia).
    exists (k + 1), 0, 0.
    rewrite !map_app, phase_accepted, length_firstn by assumption.
    replace (Nat.min k (length us)) with k by lia.
    rewrite repeat_app. simpl. rewrite app_nil_r.
    repeat split; try lia.
    + rewrite length_app, length_accepted, length_firstn. simpl. lia.
    + apply Forall_app. split; [apply credentials_accepted|].
      repeat constructor.
  - exists (length us), 1, 0.
    rewrite !map_app, phase_accepted by assumption. simpl.
    repeat split; try lia.
    + rewrite length_app, length_accepted. simpl. lia.
    + apply Forall_app. split; [apply credentials_accepted|].
      repeat constructor.
  - exists (length us), 1, (length failures + 1).
    rewrite !map_app, phase_accepted by assumption.
    cbn [map app fst phase]. rewrite phase_published.
    rewrite length_app, length_map. simpl.
    repeat split; try lia.
    + rewrite !length_app, length_accepted. simpl.
      unfold published. rewrite length_map, length_app, length_map. simpl. lia.
    + apply Forall_app. split; [apply credentials_accepted|].
      constructor; [split; reflexivity|apply credentials_published].
  - exists (length us), 1, (length failures + 1).
    rewrite !map_app, phase_accepted by assumption.
    cbn [map app fst phase]. rewrite phase_published.
    rewrite length_app, length_map. simpl.
    repeat split; try lia.
    + rewrite !length_app, length_accepted. simpl.
      unfold published. rewrite length_map, length_app, length_map. simpl. lia.
    + apply Forall_app. split; [apply credentials_accepted|].
      constructor; [split; reflexivity|apply credentials_published].
Qed.

(** The images sent are an initial segment of the URLs kept. *)
Lemma ends_image_prefix (acct tok caption : string) (enhancedCaption : option string)
    (us : list string) (out : PublishResult + Error) (ps : list (request * outcome)) :
  ends acct tok caption enhancedCaption us out ps ->
  image_urls (map fst ps) `prefix_of` us.
Proof.
  intros He.
  inversion He as
    [k ids url res1 Hk Hlen Hids Hfail1 Hout Hposts
    |ids res2 Hlen Hids Hfail2 Hout Hposts
    |ids cid failures e Hlen Hids Hcid Hfl Htrans Hlast Hout Hposts
    |ids cid failures r3 Hlen Hids Hcid Hfl Htrans Hout Hposts].
  - assert (Hk' : k < length us) by (eapply lookup_lt_Some; eassumption).
    rewrite map_app, image_urls_app, requests_accepted, image_urls_items
      by (rewrite length_firstn; lia).
    simpl. rewrite <- (take_S_r us k url) by assumption. apply prefix_take.
  - rewrite map_app, image_urls_app, requests_accepted, image_urls_items by assumption.
    simpl. rewrite app_nil_r. reflexivity.
  - rewrite map_app, image_urls_app, requests_accepted, image_urls_items by assumption.
    cbn [map app fst image_urls flat_map]. rewrite image_urls_published, app_nil_r.
    reflexivity.
  - rewrite map_app, image_urls_app, requests_accepted, image_urls_items by assumption.
    cbn [map app fst image_urls flat_map]. rewrite image_urls_published, app_nil_r.
    reflexivity.
Qed.

Section Proofs.

Variable World : Type.
Variable axios_post : request -> World -> outcome * World.
Variable setTimeout : float -> World -> World.

Local Abbreviation postToInstagram := (postToInstagram World axios_post setTimeout).
Local Abbreviation createContainers := (createContainers World axios_post setTimeout).
Local Abbreviation attemptPublish := (attemptPublish World axios_post setTimeout).

(** With a missing credential nothing happens at all. *)
Lemma postToInstagram_unconfigured (env : Env) (caption : string)
    (urls : list string) (enhancedCaption : option string) (w : World) :
  otruthy (FACEBOOK_ACCESS_TOKEN env) = false \/
  otruthy (INSTAGRAM_BUSINESS_ACCOUNT_ID env) = false ->
  postToInstagram env caption urls enhancedCaption w =
    (inr (new_Error "Missing Instagram credentials in environment variables"), w, []).
Proof.
  unfold Instagram.postToInstagram. rewrite try_catch_rethrow.
  destruct env as [[tok|] [acct|]]; simpl; intros [H|H]; try discriminate;
    try reflexivity.
  - rewrite H. reflexivity.
  - rewrite H, orb_true_r. reflexivity.
Qed.

(** The cases of a call: nothing sent, or a run of one of the four shapes. *)
Lemma postToInstagram_cases (env : Env) (caption : string) (urls : list string)
    (enhancedCaption : option string) (w w' : World)
    (out : PublishResult + Error) (tr : list event) :
  postToInstagram env caption urls enhancedCaption w = (out, w', tr) ->
  (tr = [] /\ exists e, out = inr e) \/
  exists acct tok,
    FACEBOOK_ACCESS_TOKEN env = Some tok /\ truthy tok = true /\
    INSTAGRAM_BUSINESS_ACCOUNT_ID env = Some acct /\ truthy acct = true /\
    urls <> [] /\
    ends acct tok caption enhancedCaption (used urls) out (posts tr).
Proof.
  intros H.
  destruct (otruthy (FACEBOOK_ACCESS_TOKEN env)) eqn:Et;
    [|rewrite postToInstagram_unconfigured in H by (left; exact Et);
      injection H as <- _ <-; left; split; [reflexivity|eexists; reflexivity]].
  destruct (otruthy (INSTAGRAM_BUSINESS_ACCOUNT_ID env)) eqn:Ea;
    [|rewrite postToInstagram_unconfigured in H by (right; exact Ea);
      injection H as <- _ <-; left; split; [reflexivity|eexists; reflexivity]].
  destruct (FACEBOOK_ACCESS_TOKEN env) as [tok|] eqn:Htok; [|discriminate].
  destruct (INSTAGRAM_BUSINESS_ACCOUNT_ID env) as [acct|] eqn:Hacct; [|discriminate].
  simpl in Et, Ea.
  destruct (decide (urls = [])) as [->|Hne].
  - rewrite (postToInstagram_empty _ _ _ _ _ _ acct tok) in H by assumption.
    injection H as <- _ <-. left. split; [reflexivity|eexists; reflexivity].
  - right. exists acct, tok.
    pose proof (postToInstagram_ends _ _ _ _ _ _ _ acct tok _ _ _ _
                  Htok Et Hacct Ea Hne H) as [He _].
    repeat split; assumption || reflexivity.
Qed.

(** X1: if the phase-2 call fails (axios throws, or the response has no
    usable id), it is the last call of the run: every kept URL had been
    accepted before it, no publish call follows, and the run throws
    'Failed to create carousel container: ' followed by the platform's
    message, or by error.message, or by the generic text when the response
    merely lacked an id. *)
Theorem carousel_failure_aborts
    (env : Env) (caption : string) (urls : list string)
    (enhancedCaption : option string) (w w' : World)
    (out : PublishResult + Error) (tr : list event)
    (req : request) (res : outcome) :
  postToInstagram env caption urls enhancedCaption w = (out, w', tr) ->
  In (req, res) (posts tr) ->
  phase req = 2 ->
  creation_failed res = true ->
  exists acct tok ids,
    length ids = length (used urls) /\
    posts tr = accepted acct tok (used urls) ids ++ [(req, res)] /\
    req = carousel_request acct tok caption enhancedCaption ids /\
    out = inr (new_Error ("Failed to create carousel container: "
                          ++ carousel_failure_text res)).
Proof.
  intros H Hin Hphase Hfail.
  apply postToInstagram_cases in H as [[-> _]|(acct & tok & _ & _ & _ & _ & _ & He)];
    [destruct Hin|].
  exists acct, tok.
  assert (Hacc : forall us ids, Forall (fun i => truthy i = true) ids ->
                   In (req, res) (accepted acct tok us ids) -> False).
  { intros us ids Hids Hl.
    apply accepted_elem in Hl as (Hp & _); [congruence|assumption]. }
  assert (Hpub : forall cid results,
                   In (req, res) (published acct tok cid results) -> False).
  { intros cid results Hl. apply published_elem in Hl. subst req. discriminate. }
  assert (Hok : forall cid, truthy cid = true -> res = with_id cid -> False).
  { intros cid Hcid ->. simpl in Hfail. unfold response_id in Hfail. simpl in Hfail.
    rewrite Hcid in Hfail. discriminate. }
  inversion He as
    [k ids url res1 Hk Hlen Hids Hfail1 Hout Hposts
    |ids res2 Hlen Hids Hfail2 Hout Hposts
    |ids cid failures e Hlen Hids Hcid Hfl Htrans Hlast Hout Hposts
    |ids cid failures r3 Hlen Hids Hcid Hfl Htrans Hout Hposts];
    rewrite <- Hposts in Hin; apply in_app_or in Hin as [Hin|Hin];
    try (exfalso; eapply Hacc; eassumption).
  - destruct Hin as [[= <- _]|[]]. discriminate.
  - destruct Hin as [[= <- <-]|[]].
    exists ids. repeat split; assumption || reflexivity.
  - exfalso. destruct Hin as [[= _ Hres]|Hin];
      [eapply Hok; [exact Hcid|symmetry; exact Hres]|eapply Hpub; eassumption].
  - exfalso. destruct Hin as [[= _ Hres]|Hin];
      [eapply Hok; [exact Hcid|symmetry; exact Hres]|eapply Hpub; eassumption].
Qed.

(** The delays of a completed phase-1 loop: one second before every call
    but the first of the whole loop. *)
Lemma createContainers_delays (acct tok : string) (rest : list string) :
  forall (i : nat) (acc ids : list string) (w w' : World) (tr : list event),
    createContainers acct tok i rest acc w = (inl ids, w', tr) ->
    delays tr =
      repeat 1000%float (if (0 <? i)%nat then length rest else length rest - 1).
Proof.
  induction rest as [|url rest IH]; intros i acc ids w w' tr H.
  - injection H as <- <- <-. destruct (0 <? i)%nat; reflexivity.
  - simpl in H. unfold Eff.bind in H.
    pose proof (createContainer_run _ axios_post setTimeout acct tok i url w) as Hrun.
    simpl in Hrun. rewrite Hrun in H. clear Hrun.
    destruct (fst (axios_post _ _)) as [r|e] eqn:Eres; [|discriminate].
    destruct (response_id r) as [cid|] eqn:Eid; [|discriminate].
    destruct (createContainers acct tok (S i) rest (acc ++ [cid]) _)
      as [[out w2] t2] eqn:Erest.
    injection H as -> <- <-.
    apply IH in Erest. change (0 <? S i)%nat with true in Erest.
    rewrite !delays_app_more, Erest.
    destruct (0 <? i)%nat; simpl; [reflexivity|].
    rewrite Nat.sub_0_r. reflexivity.
Qed.

(** A call past its two guards is the three phases over the URLs kept,
    after the warning if the list was cut. *)
Lemma postToInstagram_run (env : Env) (caption : string) (urls : list string)
    (enhancedCaption : option string) (acct tok : string) (w : World) :
  FACEBOOK_ACCESS_TOKEN env = Some tok -> truthy tok = true ->
  INSTAGRAM_BUSINESS_ACCOUNT_ID env = Some acct -> truthy acct = true ->
  urls <> [] ->
  postToInstagram env caption urls enhancedCaption w =
    (let '(out, w', tr) :=
       (containerIds <- createContainers acct tok 0 (used urls) [] ;;
        if (length containerIds =? 0)%nat
        then Eff.throw (new_Error "Failed to create any media containers")
        else
          carouselContainerId <-
            createCarouselContainer World axios_post setTimeout
              acct tok caption enhancedCaption containerIds ;;
          publishCarousel World axios_post setTimeout
            acct tok containerIds carouselContainerId) w in
     (out, w', map EvWarn (truncation_warning urls) ++ tr)).
Proof.
  intros Htok Htt Hacct Hta Hne.
  unfold Instagram.postToInstagram. rewrite try_catch_rethrow.
  rewrite Htok, Hacct, Htt, Hta.
  change (negb true || negb true) with false. cbv iota.
  replace (length urls =? 0)%nat with false
    by (symmetry; apply Nat.eqb_neq; destruct urls; [congruence|discriminate]).
  unfold used, truncation_warning.
  destruct (10 <? length urls)%nat.
  - rewrite bind_warn. reflexivity.
  - rewrite bind_ret_l.
    match goal with
    | |- ?m w = _ => destruct (m w) as [[out w'] tr]
    end.
    reflexivity.
Qed.

(** The events of a completed phase-1 loop, in order. *)
Lemma createContainers_trace (acct tok : string) (rest : list string) :
  forall (i : nat) (acc ids : list string) (w w' : World) (tr : list event),
    createContainers acct tok i rest acc w = (inl ids, w', tr) ->
    exists news,
      ids = acc ++ news /\ length news = length rest /\
      tr = container_events acct tok i rest news.
Proof.
  induction rest as [|url rest IH]; intros i acc ids w w' tr H.
  - injection H as <- <- <-. exists []. rewrite app_nil_r. auto.
  - simpl in H. unfold Eff.bind in H.
    pose proof (createContainer_run _ axios_post setTimeout acct tok i url w) as Hrun.
    simpl in Hrun. rewrite Hrun in H. clear Hrun.
    destruct (fst (axios_post _ _)) as [r|e] eqn:Eres; [|discriminate].
    destruct (response_id r) as [cid|] eqn:Eid; [|discriminate].
    destruct (createContainers acct tok (S i) rest (acc ++ [cid]) _)
      as [[out w2] t2] eqn:Erest.
    injection H as -> <- <-.
    apply IH in Erest as (news & -> & Hlen & ->).
    apply response_id_Some in Eid as [-> _].
    exists (cid :: news). rewrite <- app_assoc. split; [reflexivity|].
    split; [simpl; congruence|].
    simpl. rewrite <- app_assoc. reflexivity.
Qed.

(** X5: the trace of a call that returns a result, event by event: the
    truncation warning if the list was cut; then the container calls, each
    but the first preceded by a wait of one second; then the carousel call,
    followed by a wait of two seconds; then the publish attempts, each
    preceded by its wait, of 5 s, 7.5 s, 11.25 s and 16.875 s, as many as
    were made. *)
Theorem successful_run_delays
    (env : Env) (caption : string) (urls : list string)
    (enhancedCaption : option string) (w w' : World)
    (r : PublishResult) (tr : list event) :
  postToInstagram env caption urls enhancedCaption w = (inl r, w', tr) ->
  exists (acct tok : string) (failures : list Error) (r3 : AxiosResponse),
    length (containerIds r) = length (used urls) /\
    length failures <= 3 /\
    tr = map EvWarn (truncation_warning urls)
         ++ container_events acct tok 0 (used urls) (containerIds r)
         ++ [EvPost (carousel_request acct tok caption enhancedCaption (containerIds r))
               (with_id (carouselContainerId r));
             EvDelay 2000%float]
         ++ attempts (MediaPublish acct (carouselContainerId r) tok)
              (combine (take (S (length failures)) [5000; 7500; 11250; 16875]%float)
                       (map inr failures ++ [inl r3])) /\
    length (posts tr) = length (used urls) + 1 + S (length failures) /\
    delays tr =
      repeat 1000%float (length (used urls) - 1)
      ++ 2000%float :: take (S (length failures)) [5000; 7500; 11250; 16875]%float.
Proof.
  intros H.
  pose proof H as Hc.
  apply postToInstagram_cases in Hc
    as [[_ [e He]]|(acct & tok & Htok & Htt & Hacct & Hta & Hne & _)];
    [discriminate|].
  rewrite (postToInstagram_run _ _ _ _ acct tok) in H by assumption.
  pose proof (used_nonempty urls Hne) as Hused.
  unfold Eff.bind at 1 in H.
  destruct (createContainers acct tok 0 (used urls) [] w) as [[[ids|e] w1] t1] eqn:E1;
    [|discriminate].
  pose proof (createContainers_delays _ _ _ _ _ _ _ _ _ E1) as Hd1.
  change (0 <? 0)%nat with false in Hd1. cbv iota in Hd1.
  pose proof (createContainers_trace _ _ _ _ _ _ _ _ _ E1) as (news0 & Hnews0 & _ & Ht1).
  apply createContainers_ok in E1 as (news & -> & Hlen & Hids & Hposts & Hwarn).
  change ([] ++ news) with news in H. simpl in Hnews0. subst news0.
  replace (length news =? 0)%nat with false in H
    by (symmetry; apply Nat.eqb_neq; rewrite Hlen;
        destruct (used urls); [congruence|discriminate]).
  unfold Eff.bind in H.
  pose proof (createCarouselContainer_run _ axios_post setTimeout
                acct tok caption enhancedCaption news w1) as Hrun.
  cbv zeta in Hrun. rewrite Hrun in H. clear Hrun.
  destruct (fst (axios_post _ w1)) as [r2|e2] eqn:Eres; [|discriminate].
  destruct (response_id r2) as [cid|] eqn:Eid; [|discriminate].
  apply response_id_Some in Eid as [Hr2 _].
  rewrite publishCarousel_run in H.
  destruct (Instagram.attemptPublish _ _ _ _ _ _ _ _ _ _) as [[res3 w3] t3] eqn:E3.
  apply (attemptPublish_spec _ _ _ _ _ _ 3) in E3
    as (failures & Ht3 & Hfl & Htrans & Hlast); [|reflexivity].
  change (3 - 0) with 3 in Hfl.
  assert (Hb : backoff (S (length failures)) 5000%float =
               take (S (length failures)) [5000; 7500; 11250; 16875]%float)
    by (destruct failures as [|f1 [|f2 [|f3 [|f4 ?]]]]; simpl in Hfl; try lia;
        reflexivity).
  pose proof Ht3 as Ht3'.
  replace (S (length failures)) with (length (map inr failures ++ [res3])) in Ht3
    by (rewrite length_app, length_map; simpl; lia).
  pose proof (f_equal posts Ht3) as Hp3. rewrite posts_publish_attempts in Hp3.
  pose proof (f_equal delays Ht3) as Hd3. rewrite delays_publish_attempts in Hd3.
  rewrite length_app, length_map in Hd3. simpl length in Hd3.
  clear Ht3.
  destruct res3 as [r3|e3]; [|discriminate].
  injection H as <- _ <-. cbn [containerIds carouselContainerId].
  exists acct, tok, failures, r3.
  split; [exact Hlen|]. split; [exact Hfl|].
  assert (Hw : forall l, posts (map EvWarn l) = [] /\ delays (map EvWarn l) = []).
  { induction l as [|x l [IH1 IH2]]; simpl; auto. }
  split; [|split].
  - rewrite Ht1, Ht3', Hb, Hr2. reflexivity.
  - rewrite !posts_app, Hposts.
    destruct (Hw (truncation_warning urls)) as [-> _].
    cbn [posts app]. rewrite Hp3.
    rewrite length_app, length_accepted, Hlen. simpl.
    unfold published. rewrite length_map, length_app, length_map. simpl. lia.
  - rewrite !delays_app_more, Hd1.
    destruct (Hw (truncation_warning urls)) as [_ ->].
    cbn [delays app]. rewrite Hd3. f_equal. f_equal.
    replace (length failures + 1) with (S (length failures)) by lia. exact Hb.
Qed.

(** X6: [attemptPublish] from any retry count.  The trace is a sequence of
    attempts, each one a wait immediately followed by the publish call for
    the same container; the waits start at [delayMs] and grow by the factor
    1.5; every attempt but the last failed; there are between 1 and
    [maxRetries - retryCount + 1] attempts, and exactly one, whatever the
    error, once [retryCount] has reached [maxRetries]. *)
Theorem attemptPublish_bounded
    (acct tok cid : string) (retryCount maxRetries : nat) (delayMs : float)
    (w w' : World) (out : outcome) (tr : list event) :
  attemptPublish acct tok cid retryCount maxRetries delayMs w = (out, w', tr) ->
  exists failures : list Error,
    S (length failures) <= maxRetries - retryCount + 1 /\
    (maxRetries <= retryCount -> failures = []) /\
    tr = attempts (MediaPublish acct cid tok)
           (combine (backoff (S (length failures)) delayMs)
                    (map inr failures ++ [out])) /\
    requests tr = repeat (MediaPublish acct cid tok) (S (length failures)) /\
    delays tr = backoff (S (length failures)) delayMs.
Proof.
  intros H.
  apply (attemptPublish_spec _ _ _ _ _ _ (maxRetries - retryCount)) in H
    as (failures & Ht & Hfl & Htrans & Hlast); [|reflexivity].
  exists failures.
  split; [lia|].
  split; [intros Hle; destruct failures; [reflexivity|simpl in Hfl; lia]|].
  split; [exact Ht|].
  replace (S (length failures)) with (length (map inr failures ++ [out])) in Ht
    by (rewrite length_app, length_map; simpl; lia).
  pose proof (f_equal posts Ht) as Hp. rewrite posts_publish_attempts in Hp.
  pose proof (f_equal delays Ht) as Hd. rewrite delays_publish_attempts in Hd.
  rewrite length_app, length_map in Hd. simpl length in Hd.
  replace (length failures + 1) with (S (length failures)) in Hd by lia.
  split; [|exact Hd].
  unfold requests. rewrite Hp, requests_published, length_app, length_map.
  simpl. replace (length failures + 1) with (S (length failures)) by lia. reflexivity.
Qed.

(** X2: in every call, whatever the environment and the answers of the
    platform, the requests come in phase order (phase-1 calls, then at most
    one phase-2 call, then phase-3 calls), with at most 10, 1 and 4 calls per
    phase, so at most 15 in all; a phase-2 call is made only after a call
    for every kept URL, a phase-3 call only after the phase-2 call; and
    every request is addressed to the configured account with the
    configured token. *)
Theorem request_discipline
    (env : Env) (caption : string) (urls : list string)
    (enhancedCaption : option string) (w : World) :
  let tr := snd (postToInstagram env caption urls enhancedCaption w) in
  (exists a b c,
     map phase (requests tr) = repeat 1 a ++ repeat 2 b ++ repeat 3 c /\
     a <= 10 /\ a <= length urls /\ b <= 1 /\ c <= 3 + 1 /\
     (b = 0 -> c = 0) /\ (b = 1 -> a = length (used urls))) /\
  length (posts tr) <= 15 /\
  Forall (fun req =>
            INSTAGRAM_BUSINESS_ACCOUNT_ID env = Some (account req) /\
            FACEBOOK_ACCESS_TOKEN env = Some (token req))
         (requests tr).
Proof.
  destruct (postToInstagram env caption urls enhancedCaption w) as [[out w'] tr] eqn:H.
  simpl.
  apply postToInstagram_cases in H
    as [[-> _]|(acct & tok & Htok & _ & Hacct & _ & _ & He)].
  - split; [|split; [simpl; lia|constructor]].
    exists 0, 0, 0. simpl. repeat split; lia.
  - apply ends_discipline in He
      as (a & b & c & Hph & Ha & Hb & Hc & Hbc & Hba & Hlen & Hcred).
    pose proof (length_used urls) as Hu.
    pose proof (prefix_length _ _ (used_prefix urls)) as Hp.
    split; [|split].
    + exists a, b, c. repeat split; try assumption; lia.
    + lia.
    + unfold requests. eapply Forall_impl; [exact Hcred|].
      intros req [-> ->]. split; assumption.
Qed.

(** X3: the images sent in a call are an initial segment of the first ten
    input URLs: sent in input order, none skipped, none sent twice by the
    loop, and none from position 11 on. *)
Theorem images_sent_in_order
    (env : Env) (caption : string) (urls : list string)
    (enhancedCaption : option string) (w : World) :
  image_urls (requests (snd (postToInstagram env caption urls enhancedCaption w)))
    `prefix_of` take 10 urls.
Proof.
  destruct (postToInstagram env caption urls enhancedCaption w) as [[out w'] tr] eqn:H.
  simpl.
  apply postToInstagram_cases in H as [[-> _]|(acct & tok & _ & _ & _ & _ & _ & He)].
  - apply prefix_nil.
  - apply ends_image_prefix in He. unfold requests.
    replace (take 10 urls) with (used urls); [exact He|].
    unfold used, slice0. destruct (10 <? length urls)%nat eqn:E; [reflexivity|].
    apply Nat.ltb_ge in E. symmetry. apply take_ge. exact E.
Qed.

(** X4: a carousel of cover, more than 8 content slides and call to action
    has more than 10 images, and the call-to-action image, the last one, is
    cut: the images sent are an initial segment of cover and content
    slides. *)
Theorem call_to_action_cut
    (env : Env) (caption : string) (cover : string) (inner : list string)
    (last : string) (enhancedCaption : option string) (w : World) :
  8 < length inner ->
  image_urls (requests (snd (postToInstagram env caption (cover :: inner ++ [last])
                               enhancedCaption w)))
    `prefix_of` (cover :: inner).
Proof.
  intros Hlen.
  destruct (postToInstagram env caption (cover :: inner ++ [last]) enhancedCaption w)
    as [[out w'] tr] eqn:H.
  simpl.
  apply postToInstagram_cases in H as [[-> _]|(acct & tok & _ & _ & _ & _ & _ & He)].
  - apply prefix_nil.
  - apply ends_image_prefix in He. unfold requests.
    etransitivity; [exact He|].
    unfold used, slice0.
    replace (10 <? length (cover :: inner ++ [last]))%nat with true
      by (symmetry; apply Nat.ltb_lt; simpl; rewrite length_app; simpl; lia).
    change (cover :: inner ++ [last]) with ((cover :: inner) ++ [last]).
    rewrite firstn_app.
    replace (10 - length (cover :: inner)) with 0 by (simpl; lia).
    simpl firstn at 2. rewrite app_nil_r. apply prefix_take.
Qed.

End Proofs.

(** Twelve URLs, all accepted, one publish call: the warning, ten calls
    with nine waits between them, the carousel call and its wait, one wait
    and the publish call. *)
Lemma successful_run_delays_witness :
  exists (acct tok : string) (failures : list Error) (r3 : AxiosResponse),
    length ["c1"; "c2"; "c3"; "c4"; "c5"; "c6"; "c7"; "c8"; "c9"; "c10"]
      = length (used Mock.twelve) /\
    length failures <= 3 /\
    Mock.trace_twelve =
      map EvWarn (truncation_warning Mock.twelve)
      ++ container_events acct tok 0 (used Mock.twelve)
           ["c1"; "c2"; "c3"; "c4"; "c5"; "c6"; "c7"; "c8"; "c9"; "c10"]
      ++ [EvPost (carousel_request acct tok "Test" None
                    ["c1"; "c2"; "c3"; "c4"; "c5"; "c6"; "c7"; "c8"; "c9"; "c10"])
            (with_id "cid");
          EvDelay 2000%float]
      ++ attempts (MediaPublish acct "cid" tok)
           (combine (take (S (length failures)) [5000; 7500; 11250; 16875]%float)
                    (map inr failures ++ [inl r3])) /\
    length (posts Mock.trace_twelve)
      = length (used Mock.twelve) + 1 + S (length failures) /\
    delays Mock.trace_twelve =
      repeat 1000%float (length (used Mock.twelve) - 1)
      ++ 2000%float :: take (S (length failures)) [5000; 7500; 11250; 16875]%float.
Proof.
  apply (successful_run_delays Mock.World Mock.axios_post Mock.setTimeout
           Mock.env "Test" Mock.twelve None Mock.script_ten []
           (mkResult true (Some "post1")
              ["c1"; "c2"; "c3"; "c4"; "c5"; "c6"; "c7"; "c8"; "c9"; "c10"] "cid")).
  reflexivity.
Defined.

(** A second attempt (retryCount 1) that fails twice: wait, call, wait,
    call. *)
Lemma attemptPublish_bounded_witness :
  exists failures : list Error,
    S (length failures) <= 3 - 1 + 1 /\
    (3 <= 1 -> failures = []) /\
    MockScripts.trace_two_failures =
      attempts (MediaPublish "acct" "cid" "tok")
        (combine (backoff (S (length failures)) 7500%float)
                 (map inr failures ++ [Mock.rejects "Media ID is not available"])) /\
    requests MockScripts.trace_two_failures =
      repeat (MediaPublish "acct" "cid" "tok") (S (length failures)) /\
    delays MockScripts.trace_two_failures = backoff (S (length failures)) 7500%float.
Proof.
  apply (attemptPublish_bounded Mock.World Mock.axios_post Mock.setTimeout
           "acct" "tok" "cid" 1 3 7500%float MockScripts.script_two_failures []).
  reflexivity.
Defined.

(** Eleven images: "cta" is never sent. *)
Lemma call_to_action_cut_witness :
  image_urls (requests MockScripts.trace_eleven)
    `prefix_of` ["cover"; "s1"; "s2"; "s3"; "s4"; "s5"; "s6"; "s7"; "s8"; "s9"].
Proof.
  apply (call_to_action_cut Mock.World Mock.axios_post Mock.setTimeout Mock.env "Test"
           "cover" ["s1"; "s2"; "s3"; "s4"; "s5"; "s6"; "s7"; "s8"; "s9"] "cta" None
           Mock.script_ten).
  simpl. lia.
Defined.

(** Three containers accepted, then the carousel refused. *)
Lemma carousel_failure_aborts_witness :
  exists acct tok ids,
    length ids = length (used ["a"; "b"; "c"]) /\
    posts MockScripts.trace_carousel_refused =
      accepted acct tok (used ["a"; "b"; "c"]) ids
      ++ [(MediaCarousel "17841400000000000" "id1,id2,id3" "Test" "token",
           Mock.rejects "The user is not an Instagram Business.")] /\
    MediaCarousel "17841400000000000" "id1,id2,id3" "Test" "token" =
      carousel_request acct tok "Test" None ids /\
    @inr PublishResult Error
      (new_Error "Failed to create carousel container: The user is not an Instagram Business.") =
    inr (new_Error ("Failed to create carousel container: "
                    ++ carousel_failure_text
                         (Mock.rejects "The user is not an Instagram Business."))).
Proof.
  apply (carousel_failure_aborts Mock.World Mock.axios_post Mock.setTimeout
           Mock.env "Test" ["a"; "b"; "c"] None MockScripts.script_carousel_refused []
           (inr (new_Error "Failed to create carousel container: The user is not an Instagram Business."))
           MockScripts.trace_carousel_refused
           (MediaCarousel "17841400000000000" "id1,id2,id3" "Test" "token")
           (Mock.rejects "The user is not an Instagram Business."));
    try reflexivity.
  simpl. tauto.
Defined.

End InstagramExtras.

(** ** Further properties of [createCarousel] and of the upload *)
Module CarouselExtras.
Import JS Carousel CarouselTrace CarouselReadings CarouselSpec.

Section Proofs.

Variable World : Type.
Variable ensureDirectoryExists_io : string -> World -> (unit + thrown) * World.
Variable draw_io : slide -> string -> World -> (unit + thrown) * World.
Variable cloudinary_upload_io : string -> World -> (string + thrown) * World.
Variable copyFileSync_io : string -> string -> World -> (unit + thrown) * World.
Variable cleanupTempFiles_io : string -> World -> World.
Variable Date_now_io : World -> nat * World.
Variable path_join : string -> string -> string.
Variable path_basename : string -> string.
Variable dirname : string.
Variable env : Env.

Local Abbreviation createCarousel :=
  (createCarousel World ensureDirectoryExists_io draw_io cloudinary_upload_io
     copyFileSync_io cleanupTempFiles_io Date_now_io path_join path_basename dirname env).
Local Abbreviation contentSlides :=
  (contentSlides World ensureDirectoryExists_io draw_io cloudinary_upload_io
     copyFileSync_io Date_now_io path_join path_basename dirname env).
Local Abbreviation uploadToCloudinaryOrLocal :=
  (uploadToCloudinaryOrLocal World ensureDirectoryExists_io cloudinary_upload_io
     copyFileSync_io path_join path_basename dirname env).
Local Abbreviation storeLocally :=
  (storeLocally World ensureDirectoryExists_io copyFileSync_io
     path_join path_basename dirname env).
Local Abbreviation publicDir := (publicDir path_join dirname).
Local Abbreviation publicPath := (publicPath path_join path_basename dirname).
Local Abbreviation localUrl := (localUrl path_basename env).

(** The local fallback, in closed form. *)
Lemma storeLocally_run (imagePath : string) (w : World) :
  storeLocally imagePath w =
    match ensureDirectoryExists_io publicDir w with
    | (inr cause, w1) =>
        (inr (local_failure ++ cause)%string, w1, [EvEnsureDir publicDir (inr cause)])
    | (inl u, w1) =>
        match copyFileSync_io imagePath (publicPath imagePath) w1 with
        | (inr cause, w2) =>
            (inr (local_failure ++ cause)%string, w2,
             [EvEnsureDir publicDir (inl u);
              EvCopyFile imagePath (publicPath imagePath) (inr cause)])
        | (inl u', w2) =>
            (inl (localUrl imagePath), w2,
             [EvEnsureDir publicDir (inl u);
              EvCopyFile imagePath (publicPath imagePath) (inl u')])
        end
    end.
Proof.
  unfold Carousel.storeLocally, Carousel.ensureDirectoryExists, Eff.try_catch,
    Eff.bind, Eff.call, Eff.ret, Eff.throw.
  unfold CarouselReadings.publicDir, CarouselReadings.publicPath,
    CarouselReadings.localUrl, CarouselReadings.publicDir.
  destruct (ensureDirectoryExists_io _ w) as [[u|cause] w1]; [|reflexivity].
  destruct (copyFileSync_io _ _ w1) as [[u'|cause] w2]; reflexivity.
Qed.

(** The upload, in closed form. *)
Lemma uploadToCloudinaryOrLocal_run (imagePath : string) (w : World) :
  uploadToCloudinaryOrLocal imagePath w =
    if useCloudinary env
    then
      match cloudinary_upload_io imagePath w with
      | (inl secure_url, w1) =>
          (inl secure_url, w1, [EvCloudinary imagePath (inl secure_url)])
      | (inr cause, w1) =>
          match storeLocally imagePath w1 with
          | (r, w2, t2) => (r, w2, EvCloudinary imagePath (inr cause) :: t2)
          end
      end
    else storeLocally imagePath w.
Proof.
  unfold Carousel.uploadToCloudinaryOrLocal, useCloudinary.
  destruct (otruthy _ && otruthy _ && otruthy _); [|reflexivity].
  unfold Eff.try_catch, Eff.call.
  destruct (cloudinary_upload_io imagePath w) as [[url|cause] w1]; reflexivity.
Qed.

(** X7: what [uploadToCloudinaryOrLocal] can do.  It returns the host's URL
    after one successful cloud call and no local write; or, when the host is
    not configured or its call threw, the local URL
    [(APP_BASE_URL || 'http://localhost:' + (PORT || 3000)) + '/uploads/' +
    basename] after copying the file into the public directory; it throws
    only when making that directory or copying the file threw, with that
    cause after a fixed prefix.  The host is called exactly when all three
    Cloudinary variables are set and non-empty, and at most once. *)
Theorem upload_outcomes (imagePath : string) (w w' : World)
    (out : string + thrown) (tr : list event) :
  uploadToCloudinaryOrLocal imagePath w = (out, w', tr) ->
  (exists secure_url,
     useCloudinary env = true /\ out = inl secure_url /\
     tr = [EvCloudinary imagePath (inl secure_url)])
  \/
  exists cloud local,
    tr = cloud ++ local /\
    (if useCloudinary env
     then exists cause, cloud = [EvCloudinary imagePath (inr cause)]
     else cloud = []) /\
    ((out = inl (localUrl imagePath) /\
      local = [EvEnsureDir publicDir (inl tt);
               EvCopyFile imagePath (publicPath imagePath) (inl tt)])
     \/
     (exists cause,
        out = inr (local_failure ++ cause)%string /\
        (local = [EvEnsureDir publicDir (inr cause)] \/
         local = [EvEnsureDir publicDir (inl tt);
                  EvCopyFile imagePath (publicPath imagePath) (inr cause)]))).
Proof.
  intros H. rewrite uploadToCloudinaryOrLocal_run in H.
  assert (Hlocal : forall w0 out0 w1 local,
            storeLocally imagePath w0 = (out0, w1, local) ->
            (out0 = inl (localUrl imagePath) /\
             local = [EvEnsureDir publicDir (inl tt);
                      EvCopyFile imagePath (publicPath imagePath) (inl tt)])
            \/
            (exists cause,
               out0 = inr (local_failure ++ cause)%string /\
               (local = [EvEnsureDir publicDir (inr cause)] \/
                local = [EvEnsureDir publicDir (inl tt);
                         EvCopyFile imagePath (publicPath imagePath) (inr cause)]))).
  { intros w0 out0 w1 local Hs. rewrite storeLocally_run in Hs.
    destruct (ensureDirectoryExists_io _ w0) as [[[]|cause] w2].
    - destruct (copyFileSync_io _ _ w2) as [[[]|cause] w3]; injection Hs as <- _ <-.
      + left. split; reflexivity.
      + right. exists cause. split; [reflexivity|right; reflexivity].
    - injection Hs as <- _ <-. right. exists cause. split; [reflexivity|left; reflexivity]. }
  destruct (useCloudinary env).
  - destruct (cloudinary_upload_io imagePath w) as [[url|cause] w1].
    + injection H as <- _ <-. left. exists url. repeat split.
    + destruct (storeLocally imagePath w1) as [[out0 w2] local] eqn:Hs.
      injection H as <- _ <-. right.
      exists [EvCloudinary imagePath (inr cause)], local.
      split; [reflexivity|]. split; [exists cause; reflexivity|].
      eapply Hlocal; exact Hs.
  - right. exists [], tr. split; [reflexivity|]. split; [reflexivity|].
    eapply Hlocal; exact H.
Qed.

(** X8: the upload cannot fail while the local disk works: if making the
    public directory and copying a file never throw, every upload returns a
    URL, whether the image host is configured, reachable, or neither. *)
Theorem upload_succeeds_with_working_disk (imagePath : string) (w : World) :
  (forall d w0, fst (ensureDirectoryExists_io d w0) = inl tt) ->
  (forall a b w0, fst (copyFileSync_io a b w0) = inl tt) ->
  exists url, fst (fst (uploadToCloudinaryOrLocal imagePath w)) = inl url.
Proof.
  intros Hdir Hcopy.
  assert (Hlocal : forall w0, fst (fst (storeLocally imagePath w0)) = inl (localUrl imagePath)).
  { intros w0. rewrite storeLocally_run.
    specialize (Hdir publicDir w0).
    destruct (ensureDirectoryExists_io _ w0) as [[[]|cause] w1]; [|discriminate].
    specialize (Hcopy imagePath (publicPath imagePath) w1).
    destruct (copyFileSync_io _ _ w1) as [[[]|cause] w2]; [reflexivity|discriminate]. }
  rewrite uploadToCloudinaryOrLocal_run.
  destruct (useCloudinary env); [|eexists; apply Hlocal].
  destruct (cloudinary_upload_io imagePath w) as [[url|cause] w1];
    [exists url; reflexivity|].
  specialize (Hlocal w1).
  destruct (storeLocally imagePath w1) as [[out0 w2] local]. simpl in *.
  eexists; exact Hlocal.
Qed.

(** *** Failure and cleanup *)

Lemma stops_failed_app (t1 t2 : list event) :
  stops_failed t2 -> stops_failed (t1 ++ t2).
Proof.
  intros (ev & cause & Hlast & Hf). exists ev, cause. split; [|exact Hf].
  rewrite last_app, Hlast. reflexivity.
Qed.

Lemma quiet_bind {A B} (m : M World A) (k : A -> M World B) :
  quiet World m -> (forall a, quiet World (k a)) -> quiet World (Eff.bind m k).
Proof.
  intros Hm Hk w. specialize (Hm w). unfold Eff.bind.
  destruct (m w) as [[[a|e] w1] t1]; simpl in *;
    [|destruct Hm as [Hm1 Hm2]; split; [exact Hm1|];
      intros e0 _; eapply Hm2; reflexivity].
  destruct Hm as [Hm _]. specialize (Hk a w1).
  destruct (k a w1) as [[r w2] t2]. simpl in *. destruct Hk as [Hk1 Hk2].
  split; [apply Forall_app; split; assumption|].
  intros e He. apply stops_failed_app. eapply Hk2. exact He.
Qed.

Lemma quiet_ret {A} (a : A) : quiet World (Eff.ret a).
Proof. intros w. split; [constructor|discriminate]. Qed.

Lemma quiet_peek {A} (op : World -> A * World) : quiet World (Eff.peek op).
Proof.
  intros w. unfold Eff.peek. destruct (op w) as [a w1]. simpl.
  split; [constructor|discriminate].
Qed.

Lemma quiet_ensureDirectoryExists (d : string) :
  quiet World (ensureDirectoryExists World ensureDirectoryExists_io d).
Proof.
  intros w. unfold ensureDirectoryExists, Eff.call.
  destruct (ensureDirectoryExists_io d w) as [[u|c] w1]; simpl;
    (split; [repeat constructor|]); [discriminate|].
  intros e _. exists (EvEnsureDir d (inr c)), c. split; reflexivity.
Qed.

Lemma quiet_draw (s : slide) (outputPath : string) :
  quiet World (Eff.call (draw_io s outputPath) (EvRender s outputPath)).
Proof.
  intros w. unfold Eff.call.
  destruct (draw_io s outputPath w) as [[u|c] w1]; simpl;
    (split; [repeat constructor|]); [discriminate|].
  intros e _. exists (EvRender s outputPath (inr c)), c. split; reflexivity.
Qed.

Lemma quiet_storeLocally (imagePath : string) : quiet World (storeLocally imagePath).
Proof.
  intros w. rewrite storeLocally_run.
  destruct (ensureDirectoryExists_io _ w) as [[u|c] w1]; simpl.
  - destruct (copyFileSync_io _ _ w1) as [[u'|c] w2]; simpl;
      (split; [repeat constructor|]); [discriminate|].
    intros e _. eexists _, c. split; reflexivity.
  - split; [repeat constructor|].
    intros e _. eexists _, c. split; reflexivity.
Qed.

Lemma quiet_upload (imagePath : string) :
  quiet World (uploadToCloudinaryOrLocal imagePath).
Proof.
  intros w. rewrite uploadToCloudinaryOrLocal_run.
  destruct (useCloudinary env); [|apply quiet_storeLocally].
  destruct (cloudinary_upload_io imagePath w) as [[url|c] w1]; simpl.
  - split; [repeat constructor|discriminate].
  - pose proof (quiet_storeLocally imagePath w1) as [H1 H2].
    destruct (storeLocally imagePath w1) as [[r w2] t2]. simpl in *.
    split; [constructor; [exact I|exact H1]|].
    intros e He. apply (stops_failed_app [_]). eapply H2. exact He.
Qed.

Lemma quiet_contentSlides (tempDir : string) (total : nat) (rest : list string) :
  forall i acc, quiet World (contentSlides tempDir total i rest acc).
Proof.
  induction rest as [|content rest IH]; intros i acc; simpl.
  - apply quiet_ret.
  - apply quiet_bind; [apply quiet_peek|]. intros now.
    apply quiet_bind; [apply quiet_draw|]. intros _.
    apply quiet_bind; [apply quiet_upload|]. intros url.
    apply IH.
Qed.

Lemma tidy_bind {A B} (dev : bool) (tempDir : string)
    (m : M World A) (k : A -> M World B) :
  quiet World m -> (forall a, tidy World dev tempDir (k a)) ->
  tidy World dev tempDir (Eff.bind m k).
Proof.
  intros Hm Hk w. specialize (Hm w). unfold Eff.bind.
  destruct (m w) as [[[a|e] w1] t1]; simpl in *.
  - destruct Hm as [Hm _]. specialize (Hk a w1).
    destruct (k a w1) as [[[b|e] w2] t2]; simpl in *.
    + destruct dev.
      * apply Forall_app. split; assumption.
      * destruct Hk as (body & -> & Hb). exists (t1 ++ body).
        split; [apply app_assoc|]. apply Forall_app. split; assumption.
    + destruct Hk as [Hk1 Hk2].
      split; [apply Forall_app; split; assumption|].
      apply stops_failed_app. exact Hk2.
  - destruct Hm as [Hm1 Hm2]. split; [exact Hm1|]. eapply Hm2. reflexivity.
Qed.

(** X9: a run of [createCarousel] that throws wraps the cause after
    'Failed to create carousel: ', stopped right after the operation that
    threw, and never cleaned the temporary directory: the images drawn so
    far are left behind.  A run that returns cleaned it as its very last
    step, except with NODE_ENV = 'development', where it never cleans. *)
Theorem createCarousel_failure_and_cleanup
    (title : string) (slides : list string) (cta : option string)
    (w w' : World) (out : list string + thrown) (tr : list event) :
  createCarousel title slides cta w = (out, w', tr) ->
  match out with
  | inr e =>
      (exists cause, e = ("Failed to create carousel: " ++ cause)%string) /\
      no_cleanup tr /\ stops_failed tr
  | inl _ =>
      if strict_eq (NODE_ENV env) "development"
      then no_cleanup tr
      else exists body,
             tr = body ++ [EvCleanup (path_join dirname "../../temp")] /\
             no_cleanup body
  end.
Proof.
  intros H. unfold Carousel.createCarousel in H.
  match type of H with
  | Eff.try_catch ?m _ _ = _ =>
      assert (Ht : tidy World (strict_eq (NODE_ENV env) "development")
                     (path_join dirname "../../temp") m)
  end.
  { apply tidy_bind; [apply quiet_ensureDirectoryExists|]. intros _.
    apply tidy_bind; [apply quiet_peek|]. intros now0.
    apply tidy_bind; [apply quiet_draw|]. intros _.
    apply tidy_bind; [apply quiet_upload|]. intros cover.
    apply tidy_bind; [apply quiet_contentSlides|]. intros urls.
    apply tidy_bind; [apply quiet_peek|]. intros now1.
    apply tidy_bind; [apply quiet_draw|]. intros _.
    apply tidy_bind; [apply quiet_upload|]. intros last.
    intros w0. unfold Eff.bind, Eff.ret, cleanupTempFiles.
    destruct (strict_eq (NODE_ENV env) "development"); simpl.
    - constructor.
    - exists []. split; [reflexivity|constructor]. }
  unfold Eff.try_catch, Eff.throw in H.
  match type of H with
  | context [?m w] => specialize (Ht w); destruct (m w) as [[[urls|e] w1] t1]
  end; simpl in Ht; injection H as <- _ <-.
  - exact Ht.
  - rewrite app_nil_r. split; [eexists; reflexivity|exact Ht].
Qed.

End Proofs.

(** The host is down and the disk is full: the cover cannot be stored. *)
Lemma createCarousel_failure_and_cleanup_witness :
  (exists cause,
     ("Failed to create carousel: " ++ local_failure ++ "ENOSPC: no space left on device")%string
     = ("Failed to create carousel: " ++ cause)%string) /\
  no_cleanup (snd (MockHostDown.createCarousel_disk_full "Title" ["s1"] None 0)) /\
  stops_failed (snd (MockHostDown.createCarousel_disk_full "Title" ["s1"] None 0)).
Proof.
  apply (createCarousel_failure_and_cleanup MockHostDown.World
           MockCarousel.ensureDirectoryExists_io MockCarousel.draw_io
           MockHostDown.cloudinary_upload_io MockHostDown.copyFileSync_io
           MockCarousel.cleanupTempFiles_io MockCarousel.Date_now_io
           MockCarousel.path_join MockCarousel.path_basename "src" MockCarousel.env
           "Title" ["s1"] None 0 1
           (inr ("Failed to create carousel: " ++ local_failure
                 ++ "ENOSPC: no space left on device")%string)).
  reflexivity.
Defined.

(** The host is down and the disk works: the local URL comes back. *)
Lemma upload_outcomes_witness :
  (exists secure_url,
     useCloudinary MockCarousel.env = true /\
     @inl string thrown "http://localhost:3000/uploads/temp/cover.png" = inl secure_url /\
     snd (MockHostDown.uploadToCloudinaryOrLocal "temp/cover.png" 0) =
       [EvCloudinary "temp/cover.png" (inl secure_url)])
  \/
  exists cloud local,
    snd (MockHostDown.uploadToCloudinaryOrLocal "temp/cover.png" 0) = cloud ++ local /\
    (if useCloudinary MockCarousel.env
     then exists cause, cloud = [EvCloudinary "temp/cover.png" (inr cause)]
     else cloud = []) /\
    ((@inl string thrown "http://localhost:3000/uploads/temp/cover.png" =
        inl (localUrl MockCarousel.path_basename MockCarousel.env "temp/cover.png") /\
      local = [EvEnsureDir (publicDir MockCarousel.path_join "src") (inl tt);
               EvCopyFile "temp/cover.png"
                 (publicPath MockCarousel.path_join MockCarousel.path_basename "src"
                    "temp/cover.png") (inl tt)])
     \/
     (exists cause,
        @inl string thrown "http://localhost:3000/uploads/temp/cover.png" =
          inr (local_failure ++ cause)%string /\
        (local = [EvEnsureDir (publicDir MockCarousel.path_join "src") (inr cause)] \/
         local = [EvEnsureDir (publicDir MockCarousel.path_join "src") (inl tt);
                  EvCopyFile "temp/cover.png"
                    (publicPath MockCarousel.path_join MockCarousel.path_basename "src"
                       "temp/cover.png") (inr cause)]))).
Proof.
  apply (upload_outcomes MockHostDown.World MockCarousel.ensureDirectoryExists_io
           MockHostDown.cloudinary_upload_io MockCarousel.copyFileSync_io
           MockCarousel.path_join MockCarousel.path_basename "src" MockCarousel.env
           "temp/cover.png" 0 0).
  reflexivity.
Defined.

(** The host is down and the disk works. *)
Lemma upload_succeeds_with_working_disk_witness :
  exists url,
    fst (fst (MockHostDown.uploadToCloudinaryOrLocal "temp/cover.png" 0)) = inl url.
Proof.
  apply (upload_succeeds_with_working_disk MockHostDown.World
           MockCarousel.ensureDirectoryExists_io MockHostDown.cloudinary_upload_io
           MockCarousel.copyFileSync_io MockCarousel.path_join
           MockCarousel.path_basename "src" MockCarousel.env "temp/cover.png" 0);
    reflexivity.
Defined.

End CarouselExtras.

(** ** Properties of [wrapText] *)
Module CarouselTextSpec.
Import JS CarouselText.

Lemma split_nonempty (sep : ascii) (s : string) : split sep s <> [].
Proof.
  destruct s as [|c s]; simpl; [discriminate|].
  destruct (Ascii.eqb c sep); [discriminate|].
  destruct (split sep s); discriminate.
Qed.

Lemma concat_cons (sep x : string) (l : list string) :
  l <> [] -> String.concat sep (x :: l) = (x ++ sep ++ String.concat sep l)%string.
Proof. destruct l; [congruence|reflexivity]. Qed.

Lemma append_cons (x : ascii) (a b : string) :
  (String x a ++ b = String x (a ++ b))%string.
Proof. reflexivity. Qed.

Lemma append_nil (b : string) : ("" ++ b = b)%string.
Proof. reflexivity. Qed.

Lemma append_assoc (a b c : string) : ((a ++ b) ++ c = a ++ (b ++ c))%string.
Proof.
  induction a as [|x a IH]; [reflexivity|].
  rewrite !append_cons, IH. reflexivity.
Qed.

(** Joining what [split] returns gives the string back. *)
Lemma concat_split (s : string) : String.concat " " (split " "%char s) = s.
Proof.
  induction s as [|c s IH]; simpl; [reflexivity|].
  destruct (Ascii.eqb_spec c " "%char) as [->|Hc].
  - rewrite concat_cons by apply split_nonempty.
    rewrite append_nil, append_cons, append_nil, IH. reflexivity.
  - pose proof (split_nonempty " "%char s) as Hne.
    destruct (split " "%char s) as [|w ws]; [congruence|].
    destruct ws as [|w' ws]; simpl in *; rewrite <- IH; reflexivity.
Qed.

(** A line and the next word, joined by a space or kept apart, read the
    same once the lines are joined. *)
Lemma concat_merge (acc : list string) (a b : string) (r : list string) :
  String.concat " " (acc ++ (a ++ " " ++ b)%string :: r) =
  String.concat " " (acc ++ a :: b :: r).
Proof.
  induction acc as [|x acc IH].
  - simpl app. rewrite (concat_cons " " a (b :: r)) by discriminate.
    destruct r as [|y r]; [reflexivity|].
    rewrite !(concat_cons " " _ (y :: r)) by discriminate.
    rewrite !append_assoc. reflexivity.
  - simpl app.
    rewrite !concat_cons by (destruct acc; discriminate).
    rewrite IH. reflexivity.
Qed.

Section Proofs.

Variable measureText_width : string -> float.
Variable fontHeight : nat.

Local Abbreviation wrapLoop := (wrapLoop measureText_width).
Local Abbreviation wrapText := (wrapText measureText_width fontHeight).

Lemma wrapLoop_concat (maxWidth : float) (rest : list string) :
  forall i cur acc,
    String.concat " " (snd (wrapLoop maxWidth i rest cur acc)
                       ++ [fst (wrapLoop maxWidth i rest cur acc)]) =
    String.concat " " (acc ++ cur :: rest).
Proof.
  induction rest as [|word rest IH]; intros i cur acc; simpl; [reflexivity|].
  destruct (PrimFloat.ltb maxWidth _ && (0 <? i)%nat).
  - rewrite IH, <- app_assoc. reflexivity.
  - rewrite IH. apply concat_merge.
Qed.

Lemma wrapLoop_lines (maxWidth : float) (ok : string -> Prop) (rest : list string) :
  (forall l, PrimFloat.ltb maxWidth (measureText_width l) = false -> ok l) ->
  Forall ok rest ->
  forall i cur acc,
    0 < i -> ok cur -> Forall ok acc ->
    Forall ok (snd (wrapLoop maxWidth i rest cur acc)
               ++ [fst (wrapLoop maxWidth i rest cur acc)]).
Proof.
  intros Hfit. induction rest as [|word rest IH]; intros Hrest i cur acc Hi Hcur Hacc; simpl.
  - apply Forall_app. split; [assumption|]. constructor; [assumption|constructor].
  - inversion Hrest as [|? ? Hword Hrest']. subst.
    replace (0 <? i)%nat with true by (symmetry; apply Nat.ltb_lt; exact Hi).
    rewrite andb_true_r.
    destruct (PrimFloat.ltb maxWidth _) eqn:Ew.
    + apply IH; try assumption; [lia|].
      apply Forall_app. split; [assumption|]. constructor; [assumption|constructor].
    + apply IH; try assumption; [lia|]. apply Hfit. exact Ew.
Qed.

(** X10: [wrapText] neither loses nor reorders text: its lines joined by
    single spaces are the text itself.  There is at least one line, every
    line either measures no more than [maxWidth] or is a single word of the
    text (a word too wide to fit is never broken), and the total height is
    the number of lines times twice the font size. *)
Theorem wrapText_lines (text : string) (maxWidth : float) :
  let r := wrapText text maxWidth in
  String.concat " " (lines r) = text /\
  lines r <> [] /\
  Forall (fun l => PrimFloat.ltb maxWidth (measureText_width l) = false \/
                   In l (split " "%char text)) (lines r) /\
  lineHeight r = fontHeight * 2 /\
  totalHeight r = length (lines r) * (fontHeight * 2).
Proof.
  unfold CarouselText.wrapText.
  pose proof (split_nonempty " "%char text) as Hne.
  pose proof (concat_split text) as Hcat.
  destruct (split " "%char text) as [|w0 ws] eqn:Hs; [congruence|].
  assert (Hcur : or_else (head (w0 :: ws)) "" = w0).
  { simpl. unfold truthy. destruct (String.eqb_spec w0 ""); [subst|]; reflexivity. }
  rewrite Hcur. simpl tail.
  pose proof (wrapLoop_concat maxWidth ws 1 w0 []) as Hc.
  assert (Hl : Forall (fun l => PrimFloat.ltb maxWidth (measureText_width l) = false \/
                               In l (w0 :: ws))
                      (snd (wrapLoop maxWidth 1 ws w0 [])
                       ++ [fst (wrapLoop maxWidth 1 ws w0 [])])).
  { apply wrapLoop_lines; try lia.
    - intros l Hfit. left. exact Hfit.
    - apply Forall_forall. intros l Hin. right. right. apply list_elem_of_In. exact Hin.
    - right. left. reflexivity.
    - constructor. }
  destruct (CarouselText.wrapLoop _ maxWidth 1 ws w0 []) as [cur ls]. simpl in *.
  split; [rewrite Hc; exact Hcat|].
  split; [destruct ls; discriminate|].
  split; [exact Hl|split; reflexivity].
Qed.


End Proofs.

End CarouselTextSpec.

(** ** Properties of [cleanupTempFiles] *)
Module CarouselCleanupSpec.
Import JS CarouselCleanup.

Lemma unlinked_app (t1 t2 : list event) : unlinked (t1 ++ t2) = unlinked t1 ++ unlinked t2.
Proof.
  induction t1 as [|[p b|d r|p r|p r] t1 IH]; simpl; rewrite ?IH; reflexivity.
Qed.

Section Proofs.

Variable World : Type.
Variable existsSync_io : string -> World -> bool * World.
Variable readdirSync_io : string -> World -> (list string + thrown) * World.
Variable statSync_isFile_io : string -> World -> (bool + thrown) * World.
Variable unlinkSync_io : string -> World -> (unit + thrown) * World.
Variable path_join : string -> string -> string.

Local Abbreviation cleanupTempFiles :=
  (cleanupTempFiles World existsSync_io readdirSync_io statSync_isFile_io
     unlinkSync_io path_join).
Local Abbreviation forEach :=
  (forEach World statSync_isFile_io unlinkSync_io path_join).
Local Abbreviation cleanupFile :=
  (cleanupFile World statSync_isFile_io unlinkSync_io path_join).
Local Abbreviation visited := (visited path_join).

Lemma visited_quiet (tempDir : string) (l : list (string * bool)) :
  Forall (fun ev => threw ev = false) (flat_map (visited tempDir) l).
Proof.
  induction l as [|[f b] l IH]; simpl; [constructor|].
  constructor; [reflexivity|].
  destruct (b && String.prefix "carousel_" f); simpl; [constructor; [reflexivity|]|];
    exact IH.
Qed.

Lemma visited_unlinked (tempDir : string) (l : list (string * bool)) (p : string) :
  In p (unlinked (flat_map (visited tempDir) l)) ->
  exists file,
    In file (map fst l) /\ p = path_join tempDir file /\
    String.prefix "carousel_" file = true /\
    In (EvStat p (inl true)) (flat_map (visited tempDir) l).
Proof.
  induction l as [|[f b] l IH]; simpl; [intros []|].
  destruct b; simpl.
  - destruct (String.prefix "carousel_" f) eqn:Ef; simpl.
    + intros [<-|Hin].
      * exists f. repeat split; auto.
      * destruct (IH Hin) as (file & H1 & H2 & H3 & H4).
        exists file. repeat split; auto.
    + intros Hin. destruct (IH Hin) as (file & H1 & H2 & H3 & H4).
      exists file. repeat split; auto.
  - intros Hin. destruct (IH Hin) as (file & H1 & H2 & H3 & H4).
    exists file. repeat split; auto.
Qed.

(** The callback, in closed form. *)
Lemma cleanupFile_run (tempDir file : string) (w : World) :
  cleanupFile tempDir file w =
    match statSync_isFile_io (path_join tempDir file) w with
    | (inr e, w1) => (inr e, w1, [EvStat (path_join tempDir file) (inr e)])
    | (inl b, w1) =>
        if b && String.prefix "carousel_" file
        then
          match unlinkSync_io (path_join tempDir file) w1 with
          | (r, w2) =>
              (r, w2, [EvStat (path_join tempDir file) (inl b);
                       EvUnlink (path_join tempDir file) r])
          end
        else (inl tt, w1, [EvStat (path_join tempDir file) (inl b)])
    end.
Proof.
  unfold CarouselCleanup.cleanupFile, Eff.bind, Eff.call, Eff.ret.
  destruct (statSync_isFile_io _ w) as [[b|e] w1]; [|reflexivity].
  destruct (b && String.prefix "carousel_" file); [|reflexivity].
  destruct (unlinkSync_io _ w1) as [r w2]. reflexivity.
Qed.

(** The loop either visits every file, or stops at the first throw. *)
Lemma forEach_trace (tempDir : string) (files : list string) :
  forall (w w' : World) (out : unit + thrown) (tr : list event),
    forEach tempDir files w = (out, w', tr) ->
    (out = inl tt /\
     exists stats, length stats = length files /\
                   tr = flat_map (visited tempDir) (combine files stats))
    \/
    (exists e k file stats,
       out = inr e /\ files !! k = Some file /\ length stats = k /\
       (tr = flat_map (visited tempDir) (combine (take k files) stats)
             ++ [EvStat (path_join tempDir file) (inr e)]
        \/
        (String.prefix "carousel_" file = true /\
         tr = flat_map (visited tempDir) (combine (take k files) stats)
              ++ [EvStat (path_join tempDir file) (inl true);
                  EvUnlink (path_join tempDir file) (inr e)]))).
Proof.
  induction files as [|file files IH]; intros w w' out tr H.
  - injection H as <- _ <-. left. split; [reflexivity|]. exists []. auto.
  - simpl in H. unfold Eff.bind in H. rewrite cleanupFile_run in H.
    destruct (statSync_isFile_io _ w) as [[b|e] w1].
    + destruct (b && String.prefix "carousel_" file) eqn:Eb.
      * destruct (unlinkSync_io _ w1) as [[[]|e] w2].
        -- destruct (forEach tempDir files w2) as [[out2 w3] t2] eqn:E2.
           injection H as <- _ <-.
           apply IH in E2 as [[-> (stats & Hlen & ->)]
                             |(e & k & f & stats & -> & Hk & Hlen & Htr)].
           ++ left. split; [reflexivity|]. exists (b :: stats).
              split; [simpl; congruence|]. simpl. rewrite Eb. reflexivity.
           ++ right. exists e, (S k), f, (b :: stats).
              split; [reflexivity|]. split; [exact Hk|]. split; [simpl; congruence|].
              simpl. rewrite Eb.
              destruct Htr as [->|[Hp ->]]; [left|right; split; [exact Hp|]];
                reflexivity.
        -- injection H as <- _ <-. right. exists e, 0, file, [].
           split; [reflexivity|]. split; [reflexivity|]. split; [reflexivity|].
           apply andb_prop in Eb as [-> Hp]. right. split; [exact Hp|reflexivity].
      * destruct (forEach tempDir files w1) as [[out2 w3] t2] eqn:E2.
        injection H as <- _ <-.
        apply IH in E2 as [[-> (stats & Hlen & ->)]
                          |(e & k & f & stats & -> & Hk & Hlen & Htr)].
        -- left. split; [reflexivity|]. exists (b :: stats).
           split; [simpl; congruence|]. simpl. rewrite Eb. reflexivity.
        -- right. exists e, (S k), f, (b :: stats).
           split; [reflexivity|]. split; [exact Hk|]. split; [simpl; congruence|].
           simpl. rewrite Eb.
           destruct Htr as [->|[Hp ->]]; [left|right; split; [exact Hp|]];
             reflexivity.
    + injection H as <- _ <-. right. exists e, 0, file, [].
      split; [reflexivity|]. split; [reflexivity|]. split; [reflexivity|].
      left. reflexivity.
Qed.

Lemma visited_files (files : list string) (stats : list bool)
    (k : nat) (file : string) :
  In file (map fst (combine (take k files) stats)) -> In file files.
Proof.
  intros Hin. apply in_map_iff in Hin as ([f b] & <- & Hin).
  apply in_combine_l in Hin. simpl.
  apply list_elem_of_In, elem_of_take in Hin as (i & Hi & _).
  apply list_elem_of_In. eapply list_elem_of_lookup_2. exact Hi.
Qed.

(** X11: [cleanupTempFiles] never throws, and does nothing more when the
    directory does not exist.  It only ever unlinks entries of the directory
    whose name starts with 'carousel_' and that [statSync] just reported as
    regular files.  A call that throws ends the cleanup at once, the files
    after it staying in place; when nothing throws, every entry is examined
    in listing order and exactly the regular 'carousel_' files are
    unlinked. *)
Theorem cleanupTempFiles_safe (tempDir : string) (w : World) :
  let r := cleanupTempFiles tempDir w in
  let tr := snd r in
  fst (fst r) = inl tt /\
  (fst (existsSync_io tempDir w) = false -> tr = [EvExists tempDir false]) /\
  (forall p, In p (unlinked tr) ->
     exists files file,
       In (EvReaddir tempDir (inl files)) tr /\ In file files /\
       p = path_join tempDir file /\ String.prefix "carousel_" file = true /\
       In (EvStat p (inl true)) tr) /\
  (forall ev, In ev tr -> threw ev = true -> last tr = Some ev) /\
  (Forall (fun ev => threw ev = false) tr ->
   fst (existsSync_io tempDir w) = true ->
   exists files stats,
     length stats = length files /\
     tr = EvExists tempDir true :: EvReaddir tempDir (inl files)
          :: flat_map (visited tempDir) (combine files stats)).
Proof.
  unfold CarouselCleanup.cleanupTempFiles, Eff.try_catch, Eff.bind,
    CarouselCleanup.existsSync, Eff.call, Eff.ret.
  destruct (existsSync_io tempDir w) as [present w1].
  destruct present; simpl.
  2:{ split; [reflexivity|]. split; [reflexivity|].
      split; [intros p []|]. split; [|discriminate].
      intros ev [<-|[]]; discriminate. }
  destruct (readdirSync_io tempDir w1) as [[files|e] w2].
  2:{ simpl. split; [reflexivity|]. split; [discriminate|].
      split; [intros p []|]. split.
      - intros ev [<-|[<-|[]]]; [discriminate|reflexivity].
      - intros Hq. inversion Hq as [|? ? _ Hq']. inversion Hq' as [|? ? Hth _].
        discriminate. }
  destruct (forEach tempDir files w2) as [[out w3] t] eqn:E.
  apply forEach_trace in E
    as [[-> (stats & Hlen & ->)]|(e & k & file & stats & -> & Hk & Hlen & Htr)].
  - simpl. split; [reflexivity|]. split; [discriminate|].
    split; [|split].
    + intros p Hin. apply visited_unlinked in Hin as (file & H1 & H2 & H3 & H4).
      exists files, file. split; [right; left; reflexivity|].
      split; [|split; [exact H2|split; [exact H3|right; right; exact H4]]].
      rewrite <- (firstn_all files) in H1. eapply visited_files. exact H1.
    + intros ev [<-|[<-|Hin]]; try discriminate.
      pose proof (visited_quiet tempDir (combine files stats)) as Hq.
      rewrite Forall_forall in Hq. apply list_elem_of_In, Hq in Hin. congruence.
    + intros _ _. exists files, stats. split; [exact Hlen|reflexivity].
  - assert (Hfile : In file files)
      by (apply list_elem_of_In; eapply list_elem_of_lookup_2; exact Hk).
    pose proof (visited_quiet tempDir (combine (take k files) stats)) as Hq.
    simpl. rewrite app_nil_r. split; [reflexivity|]. split; [discriminate|].
    split; [|split].
    + intros p Hin.
      destruct Htr as [->|[Hp ->]]; rewrite unlinked_app in Hin;
        apply in_app_or in Hin as [Hin|Hin].
      * apply visited_unlinked in Hin as (f & H1 & H2 & H3 & H4).
        exists files, f. split; [right; left; reflexivity|].
        split; [eapply visited_files; exact H1|].
        split; [exact H2|]. split; [exact H3|].
        right. right. apply in_or_app. left. exact H4.
      * destruct Hin.
      * apply visited_unlinked in Hin as (f & H1 & H2 & H3 & H4).
        exists files, f. split; [right; left; reflexivity|].
        split; [eapply visited_files; exact H1|].
        split; [exact H2|]. split; [exact H3|].
        right. right. apply in_or_app. left. exact H4.
      * destruct Hin as [<-|[]].
        exists files, file. split; [right; left; reflexivity|].
        split; [exact Hfile|]. split; [reflexivity|]. split; [exact Hp|].
        right. right. apply in_or_app. right. left. reflexivity.
    + intros ev Hin Hth. rewrite Forall_forall in Hq.
      destruct Htr as [->|[Hp ->]];
        (destruct Hin as [<-|[<-|Hin]]; try discriminate);
        apply in_app_or in Hin as [Hin|Hin];
        try (apply list_elem_of_In, Hq in Hin; congruence).
      * destruct Hin as [<-|[]].
        rewrite ?last_cons, last_app. reflexivity.
      * destruct Hin as [<-|[<-|[]]]; [discriminate|].
        rewrite ?last_cons, last_app. reflexivity.
    + intros Hall _. exfalso. rewrite Forall_forall in Hall.
      destruct Htr as [->|[Hp ->]].
      * specialize (Hall (EvStat (path_join tempDir file) (inr e))).
        assert (threw (EvStat (path_join tempDir file) (inr e)) = false); [|discriminate].
        apply Hall. apply list_elem_of_In. right. right. apply in_or_app. right.
        left. reflexivity.
      * specialize (Hall (EvUnlink (path_join tempDir file) (inr e))).
        assert (threw (EvUnlink (path_join tempDir file) (inr e)) = false); [|discriminate].
        apply Hall. apply list_elem_of_In. right. right. apply in_or_app. right.
        right. left. reflexivity.
Qed.

End Proofs.

(** A directory with two generated images, a note and a sub-directory. *)
Lemma cleanupTempFiles_safe_witness :
  let tr := snd (MockTemp.cleanupTempFiles "temp" MockTemp.temp) in
  fst (fst (MockTemp.cleanupTempFiles "temp" MockTemp.temp)) = inl tt /\
  (fst (MockTemp.existsSync_io "temp" MockTemp.temp) = false ->
   tr = [EvExists "temp" false]) /\
  (forall p, In p (unlinked tr) ->
     exists files file,
       In (EvReaddir "temp" (inl files)) tr /\ In file files /\
       p = MockTemp.path_join "temp" file /\ String.prefix "carousel_" file = true /\
       In (EvStat p (inl true)) tr) /\
  (forall ev, In ev tr -> threw ev = true -> last tr = Some ev) /\
  (Forall (fun ev => threw ev = false) tr ->
   fst (MockTemp.existsSync_io "temp" MockTemp.temp) = true ->
   exists files stats,
     length stats = length files /\
     tr = EvExists "temp" true :: EvReaddir "temp" (inl files)
          :: flat_map (visited MockTemp.path_join "temp") (combine files stats)).
Proof.
  exact (cleanupTempFiles_safe MockTemp.World MockTemp.existsSync_io
           MockTemp.readdirSync_io MockTemp.statSync_isFile_io MockTemp.unlinkSync_io
           MockTemp.path_join "temp" MockTemp.temp).
Defined.

End CarouselCleanupSpec.

(** ** Further properties of the content schedule *)
Module ContentExtras.
Import JS Content ContentQueries ContentAdmin ContentSpec.

Lemma set_status_id (s : string) (q : ScheduledPost) : id (set_status s q) = id q.
Proof. reflexivity. Qed.

Lemma findIndex_cons (postId : string) (a : ScheduledPost) (l : list ScheduledPost) :
  findIndex postId (a :: l) =
  if decide (id a = postId) then Some 0 else S <$> findIndex postId l.
Proof.
  unfold findIndex. simpl. destruct (decide (id a = postId)); [reflexivity|].
  destruct (list_find _ l) as [[j x]|]; reflexivity.
Qed.

Lemma findIndex_alter (postId s : string) (l : list ScheduledPost) :
  forall i, findIndex postId (alter (set_status s) i l) = findIndex postId l.
Proof.
  induction l as [|a l IH]; intros i; [reflexivity|].
  destruct i as [|i].
  - change (alter (set_status s) 0 (a :: l)) with (set_status s a :: l).
    rewrite !findIndex_cons. reflexivity.
  - change (alter (set_status s) (S i) (a :: l)) with (a :: alter (set_status s) i l).
    rewrite !findIndex_cons, IH. reflexivity.
Qed.

Lemma filter_others (P : ScheduledPost -> bool) (postId : string)
    (l : list ScheduledPost) :
  (forall q, In q l -> id q <> postId) ->
  List.filter (fun q => P q && negb (String.eqb (id q) postId)) l = List.filter P l.
Proof.
  induction l as [|a l IH]; intros H; [reflexivity|]. simpl.
  assert (Ha : String.eqb (id a) postId = false)
    by (apply String.eqb_neq, H; left; reflexivity).
  rewrite Ha, andb_true_r, IH; [reflexivity|].
  intros q Hq. apply H. right. exact Hq.
Qed.

(** With distinct ids, publishing a post removes it from what a filter on
    scheduled posts selects, and nothing else. *)
Lemma filter_alter_published (P : ScheduledPost -> bool) (postId : string)
    (l : list ScheduledPost) :
  (forall q, P (set_status "published" q) = false) ->
  NoDup (map id l) ->
  forall i p,
    l !! i = Some p -> id p = postId ->
    List.filter P (alter (set_status "published") i l) =
    List.filter (fun q => P q && negb (String.eqb (id q) postId)) l.
Proof.
  intros HP. induction l as [|a l IH]; intros Hnd i p Hi Hid; [discriminate|].
  change (map id (a :: l)) with (id a :: map id l) in Hnd.
  apply NoDup_cons in Hnd as [Ha Hnd].
  destruct i as [|i].
  - change (alter (set_status "published") 0 (a :: l))
      with (set_status "published" a :: l).
    injection Hi as ->. cbn [List.filter].
    rewrite HP, Hid, String.eqb_refl, andb_false_r.
    rewrite filter_others; [reflexivity|].
    intros q Hq Heq. apply Ha. rewrite Hid, <- Heq.
    apply list_elem_of_In, in_map, Hq.
  - change (alter (set_status "published") (S i) (a :: l))
      with (a :: alter (set_status "published") i l).
    change ((a :: l) !! S i) with (l !! i) in Hi.
    assert (Hne : String.eqb (id a) postId = false).
    { apply String.eqb_neq. intros Heq. apply Ha. rewrite Heq, <- Hid.
      apply list_elem_of_In, in_map. apply list_elem_of_In.
      eapply list_elem_of_lookup_2. exact Hi. }
    cbn [List.filter]. rewrite Hne, andb_true_r, (IH Hnd i p Hi Hid). reflexivity.
Qed.

Lemma filter_and (P Q : ScheduledPost -> bool) (l : list ScheduledPost) :
  List.filter (fun q => P q && Q q) l = List.filter Q (List.filter P l).
Proof.
  induction l as [|a l IH]; [reflexivity|]. simpl.
  destruct (P a); simpl; [destruct (Q a)|]; rewrite IH; reflexivity.
Qed.

Lemma filter_comm (P Q : ScheduledPost -> bool) (l : list ScheduledPost) :
  List.filter P (List.filter Q l) = List.filter Q (List.filter P l).
Proof.
  rewrite <- !filter_and. apply filter_ext. intros a. apply andb_comm.
Qed.

Lemma dueAt_published (d h : string) (q : ScheduledPost) :
  dueAt d h (set_status "published" q) = false.
Proof. reflexivity. Qed.

Lemma scheduledOn_published (d : string) (q : ScheduledPost) :
  scheduledOn d (set_status "published" q) = false.
Proof. unfold scheduledOn. simpl. apply andb_false_r. Qed.

Section Proofs.

Variable World : Type.
Variable Date_toISOString_io : World -> string * World.
Variable writeFileSync_io : string -> string -> World -> bool * World.
Variable JSON_stringify : ContentSchedule -> string.

Local Abbreviation markPostAsPublished :=
  (markPostAsPublished World Date_toISOString_io writeFileSync_io JSON_stringify).

(** What a successful call did to the list of posts. *)
Lemma markPostAsPublished_true (postId : string) (this this' : ContentService)
    (w w' : World) (t : list Content.event) :
  markPostAsPublished postId this w = (true, this', w', t) ->
  exists i p,
    posts_of this !! i = Some p /\ id p = postId /\
    posts_of this' = alter (set_status "published") i (posts_of this) /\
    findIndex postId (posts_of this) = Some i /\
    contentSchedule this' <> None.
Proof.
  unfold Content.markPostAsPublished, saveContentSchedule, posts_of.
  destruct (contentSchedule this) as [cs|]; [|discriminate].
  unfold findIndex.
  destruct (list_find _ (schedule cs)) as [[i p]|] eqn:Ef; [|discriminate].
  apply list_find_Some in Ef as (Hi & Hid & _). simpl.
  destruct (Date_toISOString_io w) as [now w1].
  destruct (writeFileSync_io _ _ w1) as [returned w2].
  intros [= <- _ _]. simpl. exists i, p. repeat split; auto.
Qed.

(** X12: with distinct post ids, a post marked as published is never
    selected again, and the selection among the other posts is untouched:
    whatever the time, [getCurrentTimePost] afterwards returns the first of
    the posts that were due before other than the marked one, and
    [getScheduledPosts] returns what it returned before without that post. *)
Theorem published_post_leaves_queries
    (postId : string) (this this' : ContentService) (w w' : World)
    (t : list Content.event) :
  NoDup (map id (posts_of this)) ->
  markPostAsPublished postId this w = (true, this', w', t) ->
  (forall now,
     getCurrentTimePost now this' =
       head (List.filter (fun q => negb (String.eqb (id q) postId))
               (match contentSchedule this with
                | Some cs => currentPosts now cs
                | None => []
                end))) /\
  (forall now q, getCurrentTimePost now this' = Some q -> id q <> postId) /\
  (forall d tm,
     getScheduledPosts d tm this' =
       List.filter (fun q => negb (String.eqb (id q) postId))
         (getScheduledPosts d tm this)).
Proof.
  intros Hnd H.
  apply markPostAsPublished_true in H as (i & p & Hi & Hid & Hposts & _ & Hsome).
  unfold posts_of in *.
  destruct (contentSchedule this) as [cs|] eqn:Ecs; [|discriminate].
  destruct (contentSchedule this') as [cs'|] eqn:Ecs'; [|congruence].
  assert (Hcur : forall now,
            currentPosts now cs' =
            List.filter (fun q => negb (String.eqb (id q) postId)) (currentPosts now cs)).
  { intros now. unfold currentPosts. rewrite Hposts.
    rewrite (filter_alter_published _ postId _ (dueAt_published _ _) Hnd i p Hi Hid).
    apply filter_and. }
  split; [|split].
  - intros now. unfold getCurrentTimePost. rewrite Ecs', Hcur. reflexivity.
  - intros now q. unfold getCurrentTimePost. rewrite Ecs', Hcur. intros Hq.
    apply head_Some_elem_of, list_elem_of_In, filter_In in Hq as [_ Hq].
    apply negb_true_iff, String.eqb_neq in Hq. exact Hq.
  - intros d tm. unfold getScheduledPosts. rewrite Ecs, Ecs', Hposts.
    rewrite (filter_alter_published _ postId _ (scheduledOn_published d) Hnd i p Hi Hid).
    rewrite filter_and.
    destruct tm as [t'|]; [|reflexivity].
    destruct (truthy t'); [|reflexivity]. apply filter_comm.
Qed.

(** X13: marking is idempotent on the posts: a second call with the same
    id again returns [true], finds the same post, and leaves every post as
    the first call left it. *)
Theorem markPostAsPublished_again
    (postId : string) (this this1 : ContentService) (w w1 : World)
    (t1 : list Content.event) :
  markPostAsPublished postId this w = (true, this1, w1, t1) ->
  exists this2 w2 t2,
    markPostAsPublished postId this1 w1 = (true, this2, w2, t2) /\
    posts_of this2 = posts_of this1 /\
    schedulePath this2 = schedulePath this1.
Proof.
  intros H.
  apply markPostAsPublished_true in H as (i & p & Hi & Hid & Hposts & Hfirst & Hsome).
  unfold posts_of in *.
  destruct (contentSchedule this1) as [cs1|] eqn:E1; [|congruence].
  assert (Hfind : findIndex postId (schedule cs1) = Some i)
    by (rewrite Hposts, findIndex_alter; exact Hfirst).
  unfold Content.markPostAsPublished, saveContentSchedule. rewrite E1, Hfind.
  destruct this1 as [path1 c1]. simpl in *. subst c1.
  destruct (Date_toISOString_io w1) as [now w2].
  destruct (writeFileSync_io _ _ w2) as [returned w3].
  eexists _, _, _. split; [reflexivity|]. simpl. split; [|reflexivity].
  rewrite Hposts, list_alter_alter_eq. apply list_alter_ext; [|reflexivity].
  intros q _. reflexivity.
Qed.

End Proofs.

Section Admin.

Variable World : Type.
Variable Date_toISOString_io : World -> string * World.
Variable existsSync_io : string -> World -> bool * World.
Variable mkdirSync_io : string -> World -> bool * World.
Variable writeFileSync_io : string -> string -> World -> bool * World.
Variable JSON_stringify : ContentSchedule -> string.
Variable path_join : string -> string -> string.
Variable path_dirname : string -> string.
Variable dirname : string.

Local Abbreviation updateSchedule :=
  (updateSchedule World Date_toISOString_io existsSync_io mkdirSync_io
     writeFileSync_io JSON_stringify path_join path_dirname dirname).
Local Abbreviation archive :=
  (archive World existsSync_io mkdirSync_io writeFileSync_io JSON_stringify
     path_join path_dirname dirname).
Local Abbreviation archivePath := (archivePath path_join dirname).




End Admin.

(** "p2" is due at five, and is marked. *)
Lemma published_post_leaves_queries_witness :
  (forall now,
     getCurrentTimePost now
       (snd (fst (fst (MockContent.markPostAsPublished "p2" MockContent.service [])))) =
       head (List.filter (fun q => negb (String.eqb (id q) "p2"))
               (currentPosts now MockContent.week))) /\
  (forall now q,
     getCurrentTimePost now
       (snd (fst (fst (MockContent.markPostAsPublished "p2" MockContent.service [])))) =
       Some q -> id q <> "p2") /\
  (forall d tm,
     getScheduledPosts d tm
       (snd (fst (fst (MockContent.markPostAsPublished "p2" MockContent.service [])))) =
       List.filter (fun q => negb (String.eqb (id q) "p2"))
         (getScheduledPosts d tm MockContent.service)).
Proof.
  apply (published_post_leaves_queries MockContent.World
           MockContent.Date_toISOString_io MockContent.writeFileSync_io
           MockContent.JSON_stringify "p2" MockContent.service _ []
           (snd (fst (MockContent.markPostAsPublished "p2" MockContent.service [])))
           (snd (MockContent.markPostAsPublished "p2" MockContent.service []))).
  - apply (bool_decide_unpack _). reflexivity.
  - reflexivity.
Defined.

(** "p2" is marked twice. *)
Lemma markPostAsPublished_again_witness :
  exists this2 w2 t2,
    MockContent.markPostAsPublished "p2"
      (snd (fst (fst (MockContent.markPostAsPublished "p2" MockContent.service []))))
      (snd (fst (MockContent.markPostAsPublished "p2" MockContent.service [])))
      = (true, this2, w2, t2) /\
    posts_of this2 =
      posts_of (snd (fst (fst (MockContent.markPostAsPublished "p2"
                                 MockContent.service [])))) /\
    schedulePath this2 =
      schedulePath (snd (fst (fst (MockContent.markPostAsPublished "p2"
                                     MockContent.service [])))).
Proof.
  apply (markPostAsPublished_again MockContent.World
           MockContent.Date_toISOString_io MockContent.writeFileSync_io
           MockContent.JSON_stringify "p2" MockContent.service _ [] _
           (snd (MockContent.markPostAsPublished "p2" MockContent.service []))).
  reflexivity.
Defined.


End ContentExtras.

(** ** What [createCarousel] draws *)
Module CarouselDrawn.
Import JS Carousel CarouselTrace CarouselReadings CarouselSpec.

Lemma drawn_app (t1 t2 : list event) : drawn (t1 ++ t2) = drawn t1 ++ drawn t2.
Proof. unfold drawn. apply flat_map_app. Qed.

Section Proofs.

Variable World : Type.
Variable ensureDirectoryExists_io : string -> World -> (unit + thrown) * World.
Variable draw_io : slide -> string -> World -> (unit + thrown) * World.
Variable cloudinary_upload_io : string -> World -> (string + thrown) * World.
Variable copyFileSync_io : string -> string -> World -> (unit + thrown) * World.
Variable cleanupTempFiles_io : string -> World -> World.
Variable Date_now_io : World -> nat * World.
Variable path_join : string -> string -> string.
Variable path_basename : string -> string.
Variable dirname : string.
Variable env : Env.

Local Abbreviation createCarousel :=
  (createCarousel World ensureDirectoryExists_io draw_io cloudinary_upload_io
     copyFileSync_io cleanupTempFiles_io Date_now_io path_join path_basename dirname env).
Local Abbreviation uploadToCloudinaryOrLocal :=
  (uploadToCloudinaryOrLocal World ensureDirectoryExists_io cloudinary_upload_io
     copyFileSync_io path_join path_basename dirname env).
Local Abbreviation stored_all :=
  (stored_all World ensureDirectoryExists_io cloudinary_upload_io copyFileSync_io
     path_join path_basename dirname env).

Lemma upload_draws_nothing (imagePath : string) (w : World) :
  drawn (snd (uploadToCloudinaryOrLocal imagePath w)) = [].
Proof.
  rewrite CarouselExtras.uploadToCloudinaryOrLocal_run.
  assert (Hlocal : forall w0,
            drawn (snd (storeLocally World ensureDirectoryExists_io copyFileSync_io
                          path_join path_basename dirname env imagePath w0)) = []).
  { intros w0. rewrite CarouselExtras.storeLocally_run.
    destruct (ensureDirectoryExists_io _ w0) as [[u|cause] w1]; [|reflexivity].
    destruct (copyFileSync_io _ _ w1) as [[u'|cause] w2]; reflexivity. }
  destruct (useCloudinary env); [|apply Hlocal].
  destruct (cloudinary_upload_io imagePath w) as [[url|cause] w1]; [reflexivity|].
  specialize (Hlocal w1).
  destruct (storeLocally _ _ _ _ _ _ _ imagePath w1) as [[r w2] t2]. exact Hlocal.
Qed.

Lemma stored_all_drawn (ss : list slide) (urls : list string) (tr : list event) :
  stored_all ss urls tr -> drawn tr = ss.
Proof.
  induction 1 as [|s ss outputPath url urls w w' t tr Hup Hrest IH]; [reflexivity|].
  change (drawn (EvRender s outputPath (inl tt) :: t ++ tr))
    with (s :: drawn (t ++ tr)).
  rewrite drawn_app, IH.
  pose proof (upload_draws_nothing outputPath w) as Hd. rewrite Hup in Hd.
  simpl in Hd. rewrite Hd. reflexivity.
Qed.

(** A run that returns drew the whole deck, in order, and nothing else, and
    returns one URL per slide of the deck. *)
Lemma createCarousel_drawn (title : string) (slides : list string)
    (cta : option string) (w w' : World) (urls : list string) (tr : list event) :
  createCarousel title slides cta w = (inl urls, w', tr) ->
  length urls = length slides + 2 /\
  drawn tr = deck title slides (match cta with Some c => c | None => default_cta end).
Proof.
  intros H. unfold Carousel.createCarousel in H.
  apply try_catch_throw_inl in H.
  apply bind_inl in H as ([] & w1 & t1 & t2 & Hdir & H & ->).
  apply call_inl in Hdir as [_ ->].
  apply bind_inl in H as (now0 & w2 & t3 & t4 & Hnow0 & H & ->).
  apply peek_inl in Hnow0 as ->.
  apply bind_inl in H as ([] & w3 & t5 & t6 & Hcover & H & ->).
  apply bind_inl in H as (cover & w4 & t7 & t8 & Hupc & H & ->).
  apply bind_inl in H as (urls1 & w5 & t9 & t10 & Hloop & H & ->).
  apply contentSlides_stored in Hloop as (inner & -> & Hinner).
  apply bind_inl in H as (now1 & w6 & t11 & t12 & Hnow1 & H & ->).
  apply peek_inl in Hnow1 as ->.
  apply bind_inl in H as ([] & w7 & t13 & t14 & Hcta & H & ->).
  apply bind_inl in H as (last & w8 & t15 & t16 & Hupl & H & ->).
  apply bind_inl in H as ([] & w9 & t17 & t18 & Hclean & H & ->).
  injection H as <- <- <-.
  pose proof (stored_all_length _ _ _ _ _ _ _ _ _ _ _ Hinner) as Hlen.
  rewrite length_numbered in Hlen.
  split; [simpl; rewrite length_app; simpl; lia|].
  pose proof (stored_one _ _ _ _ _ _ _ _ _ _ _ _ _ _ _ _ _ _ Hcover Hupc) as Hc.
  pose proof (stored_one _ _ _ _ _ _ _ _ _ _ _ _ _ _ _ _ _ _ Hcta Hupl) as Hl.
  apply stored_all_drawn in Hc, Hl, Hinner.
  assert (Ht17 : drawn t17 = []).
  { destruct (strict_eq (NODE_ENV env) "development").
    - unfold Eff.ret in Hclean. inversion Hclean. reflexivity.
    - unfold cleanupTempFiles in Hclean. inversion Hclean. reflexivity. }
  rewrite drawn_app in Hc, Hl.
  rewrite !drawn_app, Hinner, Ht17.
  change (drawn []) with (@nil slide).
  change (drawn [EvEnsureDir (path_join dirname "../../temp") (inl tt)])
    with (@nil slide).
  rewrite !app_nil_r, !app_nil_l, app_assoc, Hc.
  rewrite Hl. reflexivity.
Qed.

(** A run that returns has, slide after slide of the deck, drawn the slide
    and uploaded the file it was drawn into, and returns the URLs of these
    uploads. *)
Lemma createCarousel_stored (title : string) (slides : list string)
    (cta : option string) (w w' : World) (urls : list string) (tr : list event) :
  createCarousel title slides cta w = (inl urls, w', tr) ->
  exists body tail,
    tr = EvEnsureDir (path_join dirname "../../temp") (inl tt) :: body ++ tail /\
    stored_all
      (deck title slides (match cta with Some c => c | None => default_cta end))
      urls body /\
    (tail = [] \/ tail = [EvCleanup (path_join dirname "../../temp")]).
Proof.
  intros H. unfold Carousel.createCarousel in H.
  apply try_catch_throw_inl in H.
  apply bind_inl in H as ([] & w1 & t1 & t2 & Hdir & H & ->).
  apply call_inl in Hdir as [_ ->].
  apply bind_inl in H as (now0 & w2 & t3 & t4 & Hnow0 & H & ->).
  apply peek_inl in Hnow0 as ->.
  apply bind_inl in H as ([] & w3 & t5 & t6 & Hcover & H & ->).
  apply bind_inl in H as (cover & w4 & t7 & t8 & Hupc & H & ->).
  apply bind_inl in H as (urls1 & w5 & t9 & t10 & Hloop & H & ->).
  apply contentSlides_stored in Hloop as (inner & -> & Hinner).
  apply bind_inl in H as (now1 & w6 & t11 & t12 & Hnow1 & H & ->).
  apply peek_inl in Hnow1 as ->.
  apply bind_inl in H as ([] & w7 & t13 & t14 & Hcta & H & ->).
  apply bind_inl in H as (last & w8 & t15 & t16 & Hupl & H & ->).
  apply bind_inl in H as ([] & w9 & t17 & t18 & Hclean & H & ->).
  injection H as <- <- <-.
  exists ((t5 ++ t7) ++ t9 ++ (t13 ++ t15)), t17.
  split; [|split].
  - simpl. rewrite app_nil_r, <- !app_assoc. reflexivity.
  - unfold deck.
    apply (stored_all_app _ _ _ _ _ _ _ _ [_] _ [_] _);
      [eapply stored_one; eassumption|].
    apply stored_all_app; [exact Hinner|].
    eapply stored_one; eassumption.
  - destruct (strict_eq (NODE_ENV env) "development").
    + unfold Eff.ret in Hclean. inversion Hclean. left. reflexivity.
    + unfold cleanupTempFiles in Hclean. inversion Hclean. right. reflexivity.
Qed.

End Proofs.

End CarouselDrawn.

(** ** Properties of [scheduledPostJob] *)
Module CronSpec.
Import JS Content ContentQueries Cron CronTrace InstagramTrace InstagramRequests.

Section Proofs.

Variable World : Type.
Variable axios_post : Instagram.request -> World -> Instagram.outcome * World.
Variable setTimeout : float -> World -> World.
Variable ensureDirectoryExists_io : string -> World -> (unit + Carousel.thrown) * World.
Variable draw_io : Carousel.slide -> string -> World -> (unit + Carousel.thrown) * World.
Variable cloudinary_upload_io : string -> World -> (string + Carousel.thrown) * World.
Variable copyFileSync_io : string -> string -> World -> (unit + Carousel.thrown) * World.
Variable cleanupTempFiles_io : string -> World -> World.
Variable Date_now_io : World -> nat * World.
Variable Date_io : World -> DateNow * World.
Variable Date_toISOString_io : World -> string * World.
Variable writeFileSync_io : string -> string -> World -> bool * World.
Variable JSON_stringify : ContentSchedule -> string.
Variable existsSync_io : string -> World -> bool * World.
Variable mkdirSync_io : string -> World -> bool * World.
Variable appendFileSync_io : string -> string -> World -> bool * World.
Variable path_join : string -> string -> string.
Variable path_basename : string -> string.
Variable dirname : string.
Variable instagram_env : Instagram.Env.
Variable carousel_env : Carousel.Env.

Local Abbreviation scheduledPostJob :=
  (scheduledPostJob World axios_post setTimeout ensureDirectoryExists_io draw_io
     cloudinary_upload_io copyFileSync_io cleanupTempFiles_io Date_now_io Date_io
     Date_toISOString_io writeFileSync_io JSON_stringify existsSync_io mkdirSync_io
     appendFileSync_io path_join path_basename dirname instagram_env carousel_env).
Local Abbreviation logSuccessfulPost :=
  (logSuccessfulPost World Date_toISOString_io existsSync_io mkdirSync_io
     appendFileSync_io path_join dirname).
Local Abbreviation createCarousel :=
  (Carousel.createCarousel World ensureDirectoryExists_io draw_io cloudinary_upload_io
     copyFileSync_io cleanupTempFiles_io Date_now_io path_join path_basename dirname
     carousel_env).
Local Abbreviation postToInstagram :=
  (Instagram.postToInstagram World axios_post setTimeout instagram_env).
Local Abbreviation markPostAsPublished :=
  (Content.markPostAsPublished World Date_toISOString_io writeFileSync_io JSON_stringify).
Local Abbreviation marking :=
  (marking World Date_toISOString_io writeFileSync_io JSON_stringify).

(** [logSuccessfulPost] never throws, leaves [contentService] alone, and
    does nothing but its own file-system calls. *)
Lemma logSuccessfulPost_run (title : string) (s : ContentService * World) :
  exists w' tl,
    logSuccessfulPost title s = (inl tt, (fst s, w'), tl) /\
    Forall (fun ev => is_log ev = true) tl /\
    head tl = Some (EvExistsSync (path_join dirname "../../logs")
                      (fst (existsSync_io (path_join dirname "../../logs") (snd s)))).
Proof.
  unfold Cron.logSuccessfulPost.
  destruct (existsSync_io _ (snd s)) as [present w1].
  destruct present; simpl.
  - destruct (Date_toISOString_io w1) as [timestamp w3].
    destruct (appendFileSync_io _ _ w3) as [returned w4].
    eexists _, _. split; [reflexivity|]. split; [|reflexivity].
    repeat constructor.
  - destruct (mkdirSync_io _ w1) as [[|] w2].
    + destruct (Date_toISOString_io w2) as [timestamp w3].
      destruct (appendFileSync_io _ _ w3) as [returned w4].
      eexists _, _. split; [reflexivity|]. split; [|reflexivity].
      repeat constructor.
    + eexists _, _. split; [reflexivity|]. split; [|reflexivity].
      repeat constructor.
Qed.

Lemma scheduledPostJob_run (this : ContentService) (w : World) :
  scheduledPostJob (this, w) =
  let '(now1, w1) := Date_io w in
  let '(now2, w2) := Date_io w1 in
  let postContent := chosen now1 this in
  let postId := due_id now2 this in
  match createCarousel (title postContent) (slides postContent)
          (Some (cta postContent)) w2 with
  | (inr e, w3, tc) => (inr (CarouselFailure e), (this, w3), map EvCarousel tc)
  | (inl urls, w3, tc) =>
      match postToInstagram (title postContent) urls (Some (caption postContent)) w3 with
      | (inr e, w4, ti) =>
          (inr (InstagramFailure e), (this, w4), map EvCarousel tc ++ map EvInstagram ti)
      | (inl res, w4, ti) =>
          let '(this', w5, ts) := marking postId this w4 in
          let '(_, s6, tl) := logSuccessfulPost (title postContent) (this', w5) in
          (inl {| success := true; postContent := postContent; result := res;
                  scheduledPostId := postId |},
           s6, map EvCarousel tc ++ map EvInstagram ti ++ map EvSchedule ts ++ tl)
      end
  end.
Proof.
  unfold Cron.scheduledPostJob, Cron.getPostContentForToday, Cron.getCurrentTimePost,
    Cron.createCarousel, Cron.postToInstagram, Cron.service, Cron.markPostAsPublished,
    CronTrace.marking, chosen, due_id, Eff.try_catch, Eff.bind, Eff.ret, Eff.throw.
  simpl.
  destruct (Date_io w) as [now1 w1].
  destruct (ContentQueries.getCurrentTimePost now1 this) as [post|]; simpl;
    destruct (Date_io w1) as [now2 w2]; simpl;
    match goal with
    | |- context [Carousel.createCarousel ?a1 ?a2 ?a3 ?a4 ?a5 ?a6 ?a7 ?a8 ?a9 ?a10 ?a11
                    ?t ?sl ?c ?w0] =>
        destruct (Carousel.createCarousel a1 a2 a3 a4 a5 a6 a7 a8 a9 a10 a11 t sl c w0)
          as [[[urls|e] w3] tc]
    end; simpl; rewrite ?app_nil_r; try reflexivity;
    match goal with
    | |- context [Instagram.postToInstagram ?a1 ?a2 ?a3 ?a4 ?c ?u ?ec ?w0] =>
        destruct (Instagram.postToInstagram a1 a2 a3 a4 c u ec w0)
          as [[[res|err] w4] ti]
    end; simpl; rewrite ?app_nil_r; try reflexivity.
  all: destruct (or_null _) as [i|]; simpl;
    [destruct (markPostAsPublished i this w4) as [[[ok this'] w5] ts]; simpl|];
    match goal with
    | |- context [Cron.logSuccessfulPost ?a1 ?a2 ?a3 ?a4 ?a5 ?a6 ?a7 ?t ?s0] =>
        destruct (logSuccessfulPost_run t s0) as (w6 & tl & -> & _)
    end; simpl; rewrite ?app_nil_r; reflexivity.
Qed.

Lemma createCarousel_throws (title : string) (slides : list string)
    (cta : option string) (w w' : World) (e : Carousel.thrown)
    (tr : list Carousel.event) :
  createCarousel title slides cta w = (inr e, w', tr) ->
  exists cause, e = ("Failed to create carousel: " ++ cause)%string.
Proof.
  unfold Carousel.createCarousel, Eff.try_catch, Eff.throw.
  match goal with
  | |- context [?m w] => destruct (m w) as [[[urls|cause] w1] t1]
  end; [discriminate|].
  intros [= <- _ _]. exists cause. reflexivity.
Qed.

(** The bookkeeping writes the schedule file at most once, and leaves the
    service alone when it writes nothing. *)
Lemma marking_run (postId : option string) (this this' : ContentService)
    (w w' : World) (ts : list Content.event) :
  marking postId this w = (this', w', ts) ->
  length ts <= 1 /\
  Forall (fun ev => match ev with
                    | EvWriteFile path _ _ => path = schedulePath this
                    end) ts /\
  (ts = [] -> this' = this) /\
  (postId = None -> ts = []).
Proof.
  unfold CronTrace.marking, Content.markPostAsPublished, saveContentSchedule.
  destruct postId as [i|]; [|intros [= <- _ <-]; repeat split; auto].
  destruct (contentSchedule this) as [cs|]; [|intros [= <- _ <-]; repeat split; auto].
  destruct (findIndex i (schedule cs)) as [k|]; [|intros [= <- _ <-]; repeat split; auto].
  simpl.
  destruct (Date_toISOString_io w) as [now w1].
  destruct (writeFileSync_io _ _ w1) as [returned w2].
  intros [= <- _ <-]. simpl.
  split; [lia|]. split; [repeat constructor|]. split; discriminate.
Qed.


(** X15: the order of a run of [scheduledPostJob], and what a failure
    leaves behind.  In every run the events are those of [createCarousel],
    then those of [postToInstagram], then at most one write of the schedule
    file, then the calls of [logSuccessfulPost].  A run that throws rethrows
    what [createCarousel] threw, before Instagram was contacted, or what
    [postToInstagram] threw; it has written neither the schedule nor the
    log and the content service is as it was.  A run that returns reports
    success and has attempted the log; it leaves the content service as it
    was whenever it did not write the schedule, which it does not do when
    [scheduledPostId] is null. *)
Theorem scheduledPostJob_phases (this this' : ContentService) (w w' : World)
    (out : JobResult + thrown) (tr : list event) :
  scheduledPostJob (this, w) = (out, (this', w'), tr) ->
  exists tc ti ts tl,
    tr = map EvCarousel tc ++ map EvInstagram ti ++ map EvSchedule ts ++ tl /\
    Forall (fun ev => is_log ev = true) tl /\
    length ts <= 1 /\
    Forall (fun ev => match ev with
                      | EvWriteFile path _ _ => path = schedulePath this
                      end) ts /\
    match out with
    | inr (CarouselFailure error) =>
        (exists cause, error = ("Failed to create carousel: " ++ cause)%string) /\
        ti = [] /\ ts = [] /\ tl = [] /\ this' = this
    | inr (InstagramFailure error) =>
        ts = [] /\ tl = [] /\ this' = this
    | inl r =>
        success r = true /\
        (exists present,
           head tl = Some (EvExistsSync (path_join dirname "../../logs") present)) /\
        (ts = [] -> this' = this) /\
        (scheduledPostId r = None -> ts = [])
    end.
Proof.
  intros H. rewrite scheduledPostJob_run in H.
  destruct (Date_io w) as [now1 w1]. destruct (Date_io w1) as [now2 w2].
  cbv zeta in H.
  destruct (createCarousel _ _ _ w2) as [[[urls|e] w3] tc] eqn:Ec.
  2:{ injection H as <- <- _ <-. exists tc, [], [], [].
      rewrite !app_nil_r. split; [reflexivity|]. split; [constructor|].
      split; [simpl; lia|]. split; [constructor|].
      split; [eapply createCarousel_throws; exact Ec|]. repeat split. }
  destruct (postToInstagram _ _ _ w3) as [[[res|e] w4] ti].
  2:{ injection H as <- <- _ <-. exists tc, ti, [], [].
      rewrite !app_nil_r. split; [reflexivity|]. split; [constructor|].
      split; [simpl; lia|]. split; [constructor|]. repeat split. }
  destruct (marking (due_id now2 this) this w4) as [[this1 w5] ts] eqn:Em.
  apply marking_run in Em as (Hlen & Hpath & Hsame & Hnone).
  destruct (logSuccessfulPost_run (title (chosen now1 this)) (this1, w5))
    as (w6 & tl & Hl & Hlog & Hhead).
  rewrite Hl in H. injection H as <- <- _ <-.
  exists tc, ti, ts, tl. split; [reflexivity|]. split; [exact Hlog|].
  split; [exact Hlen|]. split; [exact Hpath|]. simpl.
  split; [reflexivity|]. split; [eexists; exact Hhead|]. split; assumption.
Qed.


Lemma service_events (tc : list Carousel.event) (ti : list Instagram.event)
    (ts : list Content.event) (tl : list event) :
  Forall (fun ev => is_log ev = true) tl ->
  carousel_events (map EvCarousel tc ++ map EvInstagram ti ++ map EvSchedule ts ++ tl)
    = tc /\
  instagram_events (map EvCarousel tc ++ map EvInstagram ti ++ map EvSchedule ts ++ tl)
    = ti.
Proof.
  intros Hl. unfold carousel_events, instagram_events. rewrite !flat_map_app.
  assert (Hc : forall l : list Carousel.event,
            flat_map (fun ev => match ev with EvCarousel e => [e] | _ => [] end)
              (map EvCarousel l) = l)
    by (induction l as [|a l IH]; simpl; [|rewrite IH]; reflexivity).
  assert (Hi : forall l : list Instagram.event,
            flat_map (fun ev => match ev with EvInstagram e => [e] | _ => [] end)
              (map EvInstagram l) = l)
    by (induction l as [|a l IH]; simpl; [|rewrite IH]; reflexivity).
  assert (Hci : forall l : list Instagram.event,
            flat_map (fun ev => match ev with EvCarousel e => [e] | _ => [] end)
              (map EvInstagram l) = [])
    by (induction l as [|a l IH]; simpl; [|rewrite IH]; reflexivity).
  assert (Hic : forall l : list Carousel.event,
            flat_map (fun ev => match ev with EvInstagram e => [e] | _ => [] end)
              (map EvCarousel l) = [])
    by (induction l as [|a l IH]; simpl; [|rewrite IH]; reflexivity).
  assert (Hcs : forall l : list Content.event,
            flat_map (fun ev => match ev with EvCarousel e => [e] | _ => [] end)
              (map EvSchedule l) = [])
    by (induction l as [|a l IH]; simpl; [|rewrite IH]; reflexivity).
  assert (His : forall l : list Content.event,
            flat_map (fun ev => match ev with EvInstagram e => [e] | _ => [] end)
              (map EvSchedule l) = [])
    by (induction l as [|a l IH]; simpl; [|rewrite IH]; reflexivity).
  assert (Hcl : flat_map (fun ev => match ev with EvCarousel e => [e] | _ => [] end) tl
                = [] /\
                flat_map (fun ev => match ev with EvInstagram e => [e] | _ => [] end) tl
                = [])
    by (clear - Hl; induction Hl as [|ev l Ha Hl' IH];
        [split; reflexivity|destruct ev; try discriminate; exact IH]).
  destruct Hcl as [Hcl Hil].
  rewrite Hc, Hi, Hci, Hic, Hcs, His, Hcl, Hil, !app_nil_r. split; reflexivity.
Qed.





(** X19: the errors [scheduledPostJob] can rethrow from [postToInstagram].
    Each is a plain [Error] whose message is either the missing-credentials
    text, or starts with 'Failed to create container k: ' for an image
    number [k] between 1 and 10, 'Failed to create carousel container: ' or
    'Failed to publish carousel after multiple attempts: '; the texts 'No
    media URLs provided for Instagram post' and 'Failed to create any media
    containers' cannot occur.  The credentials are only checked once the
    whole carousel has been drawn and uploaded: whatever the error, the
    slides drawn are the whole deck of the content chosen at the first clock
    reading (cover, every slide, call to action), and each of them was
    uploaded after it was drawn; with a missing credential the job throws
    after that, without any request to Instagram. *)
Theorem scheduledPostJob_instagram_errors (this this' : ContentService)
    (w w' : World) (error : Instagram.Error) (tr : list event) :
  scheduledPostJob (this, w) = (inr (InstagramFailure error), (this', w'), tr) ->
  Instagram.response_error_message error = None /\
  CarouselReadings.drawn (carousel_events tr) =
    CarouselTrace.deck (title (chosen (fst (Date_io w)) this))
      (slides (chosen (fst (Date_io w)) this))
      (cta (chosen (fst (Date_io w)) this)) /\
  (exists urls body tail,
     carousel_events tr =
       Carousel.EvEnsureDir (path_join dirname "../../temp") (inl tt) :: body ++ tail /\
     CarouselTrace.stored_all World ensureDirectoryExists_io cloudinary_upload_io
       copyFileSync_io path_join path_basename dirname carousel_env
       (CarouselTrace.deck (title (chosen (fst (Date_io w)) this))
          (slides (chosen (fst (Date_io w)) this))
          (cta (chosen (fst (Date_io w)) this)))
       urls body /\
     (tail = [] \/ tail = [Carousel.EvCleanup (path_join dirname "../../temp")])) /\
  (if otruthy (Instagram.FACEBOOK_ACCESS_TOKEN instagram_env)
      && otruthy (Instagram.INSTAGRAM_BUSINESS_ACCOUNT_ID instagram_env)
   then
     (exists k text,
        1 <= k <= 10 /\
        Instagram.message error =
          ("Failed to create container " ++ Number_toString k ++ ": " ++ text)%string)
     \/
     (exists text,
        Instagram.message error =
          ("Failed to create carousel container: " ++ text)%string)
     \/
     (exists text,
        Instagram.message error =
          ("Failed to publish carousel after multiple attempts: " ++ text)%string)
   else
     Instagram.message error = "Missing Instagram credentials in environment variables"
     /\ instagram_events tr = []).
Proof.
  intros H. rewrite scheduledPostJob_run in H.
  destruct (Date_io w) as [now1 w1]. destruct (Date_io w1) as [now2 w2].
  cbv zeta in H. cbn [fst].
  destruct (createCarousel _ _ _ w2) as [[[urls|e] w3] tc] eqn:Ec; [|discriminate].
  destruct (postToInstagram _ _ _ w3) as [[[res|e] w4] ti] eqn:Ei.
  { destruct (marking _ _ _) as [[this1 w5] ts].
    destruct (Cron.logSuccessfulPost _ _ _ _ _ _ _ _ _) as [[x y] z]. discriminate. }
  injection H as -> _ _ <-.
  pose proof (CarouselDrawn.createCarousel_stored _ _ _ _ _ _ _ _ _ _ _ _ _ _ _ _ _ _ Ec)
    as (body & tail & Htc & Hstored & Htail).
  apply CarouselDrawn.createCarousel_drawn in Ec as [Hlen Hdrawn].
  destruct (service_events tc ti [] [] (List.Forall_nil _)) as [Hc Hi].
  simpl in Hc, Hi. rewrite app_nil_r in Hc, Hi. rewrite Hc, Hi. clear Hc Hi.
  assert (Hne : urls <> []) by (destruct urls; [simpl in Hlen; lia|discriminate]).
  split; [|split; [exact Hdrawn|split; [exists urls, body, tail; auto|]]].
  2:{ destruct (otruthy (Instagram.FACEBOOK_ACCESS_TOKEN instagram_env)) eqn:Et.
      2:{ rewrite InstagramExtras.postToInstagram_unconfigured in Ei by (left; exact Et).
          injection Ei as <- _ <-. split; reflexivity. }
      destruct (otruthy (Instagram.INSTAGRAM_BUSINESS_ACCOUNT_ID instagram_env)) eqn:Ea.
      2:{ rewrite InstagramExtras.postToInstagram_unconfigured in Ei by (right; exact Ea).
          injection Ei as <- _ <-. split; reflexivity. }
      destruct (Instagram.FACEBOOK_ACCESS_TOKEN instagram_env) as [tok|] eqn:Htok;
        [|discriminate].
      destruct (Instagram.INSTAGRAM_BUSINESS_ACCOUNT_ID instagram_env)
        as [acct|] eqn:Hacct; [|discriminate].
      simpl in Et, Ea.
      pose proof (InstagramSpec.postToInstagram_ends _ _ _ _ _ _ _ _ _ _ _ _ _
                    Htok Et Hacct Ea Hne Ei) as [He _].
      simpl.
      inversion He as
        [k ids url res1 Hk Hlenk Hids Hfail1 Hout Hposts
        |ids res2 Hlen2 Hids Hfail2 Hout Hposts
        |ids cid failures e0 Hlen3 Hids Hcid Hfl Htrans Hlast Hout Hposts|].
      - left. exists (k + 1), (failure_text url res1). split; [|reflexivity].
        apply lookup_lt_Some in Hk. pose proof (InstagramExtras.length_used urls). lia.
      - right. left. eexists. reflexivity.
      - right. right. eexists. reflexivity. }
  pose proof (InstagramExtras.postToInstagram_cases _ _ _ _ _ _ _ _ _ _ _ Ei)
    as [[_ [e' He']]|(acct & tok & Htok & Htt & Hacct & Hta & _ & He)].
  - destruct (otruthy (Instagram.FACEBOOK_ACCESS_TOKEN instagram_env)) eqn:Et.
    2:{ rewrite InstagramExtras.postToInstagram_unconfigured in Ei by (left; exact Et).
        injection Ei as <- _ _. reflexivity. }
    destruct (otruthy (Instagram.INSTAGRAM_BUSINESS_ACCOUNT_ID instagram_env)) eqn:Ea.
    2:{ rewrite InstagramExtras.postToInstagram_unconfigured in Ei by (right; exact Ea).
        injection Ei as <- _ _. reflexivity. }
    destruct (Instagram.FACEBOOK_ACCESS_TOKEN instagram_env) as [tok|] eqn:Htok;
      [|discriminate].
    destruct (Instagram.INSTAGRAM_BUSINESS_ACCOUNT_ID instagram_env)
      as [acct|] eqn:Hacct; [|discriminate].
    simpl in Et, Ea.
    pose proof (InstagramSpec.postToInstagram_ends _ _ _ _ _ _ _ _ _ _ _ _ _
                  Htok Et Hacct Ea Hne Ei) as [He _].
    inversion He; reflexivity.
  - inversion He; reflexivity.
Qed.

End Proofs.

Local Abbreviation on_doubles thm :=
  (thm MockCron.World MockCron.axios_post MockCron.setTimeout
     MockCron.ensureDirectoryExists_io MockCron.draw_io MockCron.cloudinary_upload_io
     MockCron.copyFileSync_io MockCron.cleanupTempFiles_io MockCron.Date_now_io
     MockCron.Date_io MockCron.Date_toISOString_io MockCron.writeFileSync_io
     MockContent.JSON_stringify MockCron.existsSync_io MockCron.mkdirSync_io
     MockCron.appendFileSync_io MockCarousel.path_join MockCarousel.path_basename
     "src" Mock.env MockCarousel.env).

(** The second image is refused: the job throws, and "p2" stays scheduled. *)
Lemma scheduledPostJob_phases_witness :
  exists tc ti ts tl,
    snd MockCron.run_refused
      = map EvCarousel tc ++ map EvInstagram ti ++ map EvSchedule ts ++ tl /\
    Forall (fun ev => is_log ev = true) tl /\
    length ts <= 1 /\
    Forall (fun ev => match ev with
                      | EvWriteFile path _ _ => path = "content-schedule.json"
                      end) ts /\
    ts = [] /\ tl = [] /\ fst (snd (fst MockCron.run_refused)) = MockContent.service.
Proof.
  apply (on_doubles scheduledPostJob_phases
           MockContent.service (fst (snd (fst MockCron.run_refused)))
           MockCron.refusing (snd (snd (fst MockCron.run_refused)))
           (fst (fst MockCron.run_refused)) (snd MockCron.run_refused)).
  reflexivity.
Defined.



(** The second image is refused, after the four slides of "p2" were drawn
    and uploaded. *)
Lemma scheduledPostJob_instagram_errors_witness :
  fst (fst MockCron.run_refused) =
    inr (InstagramFailure
           (Instagram.new_Error
              "Failed to create container 2: Only photo or video can be accepted as media type.")) /\
  CarouselReadings.drawn (carousel_events (snd MockCron.run_refused)) =
    [Carousel.Cover "T"; Carousel.Content "s1" 1 2; Carousel.Content "s2" 2 2;
     Carousel.Cta "C" 2] /\
  (exists urls body tail,
     carousel_events (snd MockCron.run_refused) =
       Carousel.EvEnsureDir (MockCarousel.path_join "src" "../../temp") (inl tt)
       :: body ++ tail /\
     CarouselTrace.stored_all MockCron.World MockCron.ensureDirectoryExists_io
       MockCron.cloudinary_upload_io MockCron.copyFileSync_io MockCarousel.path_join
       MockCarousel.path_basename "src" MockCarousel.env
       [Carousel.Cover "T"; Carousel.Content "s1" 1 2; Carousel.Content "s2" 2 2;
        Carousel.Cta "C" 2]
       urls body /\
     (tail = [] \/
      tail = [Carousel.EvCleanup (MockCarousel.path_join "src" "../../temp")])) /\
  ((exists k text,
      1 <= k <= 10 /\
      "Failed to create container 2: Only photo or video can be accepted as media type." =
        ("Failed to create container " ++ Number_toString k ++ ": " ++ text)%string)
   \/
   (exists text,
      "Failed to create container 2: Only photo or video can be accepted as media type." =
        ("Failed to create carousel container: " ++ text)%string)
   \/
   (exists text,
      "Failed to create container 2: Only photo or video can be accepted as media type." =
        ("Failed to publish carousel after multiple attempts: " ++ text)%string)).
Proof.
  split; [reflexivity|].
  apply (on_doubles scheduledPostJob_instagram_errors
           MockContent.service (fst (snd (fst MockCron.run_refused)))
           MockCron.refusing (snd (snd (fst MockCron.run_refused)))
           (Instagram.new_Error
              "Failed to create container 2: Only photo or video can be accepted as media type.")
           (snd MockCron.run_refused) eq_refl).
Defined.


End CronSpec.
